(** * rec-conv-transcriptor: alignment, role attribution and recording lifecycle

    A shallow embedding of
      - [transcriptor/pipeline.py]   (overlap, alignment, role heuristic, routing),
      - [transcriptor/watcher/folder_watcher.py] ([_process_file]),
      - [transcriptor/api/server.py] ([reprocess_recording]),
      - [transcriptor/api/query.py]  ([swap_speakers]),
    together with the properties of the specification that concern them.

    Modelling conventions.
      - A Python [str] is a list of Unicode code points ([pystr]); literals are
        written as UTF-8 Rocq strings and decoded by [u].
      - A Python [float] holding a time stamp, a probability or a score is an
        exact rational ([Q]); rounding is not modelled.  Scores are compared
        with [==] where two computations may produce different fractions.
      - A Python [dict] is an association list in insertion order, because
        [max(d, key=d.get)] and [sorted(d, ...)] break ties by that order.
      - Exceptions are values of type [exn] (instances of [Exception]); a
        computation that may raise returns a sum. *)

From Stdlib Require Import String Ascii List Bool Arith ZArith NArith QArith.
From Stdlib Require Import Qminmax Qround Qabs Lia Lqa Permutation Sorted DecimalString.
Import ListNotations.

Local Open Scope Q_scope.

(* ===================================================================== *)
(** ** Python strings *)
(* ===================================================================== *)

Module PyStr.

Definition codepoint := N.
Definition pystr := list codepoint.

Local Open Scope N_scope.

(** UTF-8 decoding of a source literal. *)
Fixpoint utf8_decode (bs : list N) : pystr :=
  match bs with
  | [] => []
  | b0 :: r0 =>
    if b0 <? 128 then b0 :: utf8_decode r0
    else if b0 <? 224 then
      match r0 with
      | b1 :: r1 =>
          (N.lor (N.shiftl (N.land b0 31) 6) (N.land b1 63)) :: utf8_decode r1
      | [] => [b0]
      end
    else if b0 <? 240 then
      match r0 with
      | b1 :: b2 :: r2 =>
          (N.lor (N.shiftl (N.land b0 15) 12)
             (N.lor (N.shiftl (N.land b1 63) 6) (N.land b2 63))) :: utf8_decode r2
      | _ => [b0]
      end
    else
      match r0 with
      | b1 :: b2 :: b3 :: r3 =>
          (N.lor (N.shiftl (N.land b0 7) 18)
             (N.lor (N.shiftl (N.land b1 63) 12)
                (N.lor (N.shiftl (N.land b2 63) 6) (N.land b3 63)))) :: utf8_decode r3
      | _ => [b0]
      end
  end.

Definition u (s : string) : pystr :=
  utf8_decode (map (fun a => N_of_ascii a) (list_ascii_of_string s)).

Definition pystr_eqb (a b : pystr) : bool :=
  if list_eq_dec N.eq_dec a b then true else false.


Definition in_range (lo hi c : N) : bool := (lo <=? c) && (c <=? hi).

(** [str.isspace] for one character (also the class [\s] of [re]). *)
Definition is_space (c : codepoint) : bool :=
  in_range 9 13 c || in_range 28 32 c || (c =? 133) || (c =? 160)
  || (c =? 5760) || in_range 8192 8202 c || (c =? 8232) || (c =? 8233)
  || (c =? 8239) || (c =? 8287) || (c =? 12288).

(** The class [\d]; the decimal digits outside ASCII are not modelled. *)
Definition is_digit (c : codepoint) : bool := in_range 48 57 c.

(** The class [\w]: alphanumeric or underscore.  Modelled for ASCII,
    Latin-1 and Latin Extended-A (which contain the Polish alphabet). *)
Definition is_word (c : codepoint) : bool :=
  in_range 48 57 c || in_range 65 90 c || in_range 97 122 c || (c =? 95)
  || (c =? 170) || (c =? 178) || (c =? 179) || (c =? 181) || (c =? 185)
  || (c =? 186) || in_range 188 190 c
  || in_range 192 214 c || in_range 216 246 c || in_range 248 383 c.

(** [str.lower] for one character, on the same range. U+0130 lowers to two
    code points. *)
Definition lower_cp (c : codepoint) : list codepoint :=
  if in_range 65 90 c then [c + 32]
  else if in_range 192 214 c || in_range 216 222 c then [c + 32]
  else if c =? 304 then [105; 775]
  else if (in_range 256 303 c || in_range 306 311 c || in_range 330 375 c)
          && N.even c then [c + 1]
  else if (in_range 313 328 c || in_range 377 382 c) && N.odd c then [c + 1]
  else if c =? 376 then [255]
  else [c].

Definition lower (s : pystr) : pystr := flat_map lower_cp s.

(** Upper-casing of the first character for [str.capitalize]. *)
Definition upper_cp (c : codepoint) : list codepoint :=
  if in_range 97 122 c then [c - 32]
  else if in_range 224 246 c || in_range 248 254 c then [c - 32]
  else if c =? 181 then [924]
  else if c =? 223 then [83; 115]
  else if c =? 255 then [376]
  else if c =? 305 then [73]
  else if c =? 329 then [700; 78]
  else if c =? 383 then [83]
  else if (in_range 256 303 c || in_range 306 311 c || in_range 330 375 c)
          && N.odd c then [c - 1]
  else if (in_range 313 328 c || in_range 377 382 c) && N.even c then [c - 1]
  else [c].

(** [str.capitalize]: first character upper-cased, the rest lower-cased. *)
Definition capitalize (s : pystr) : pystr :=
  match s with
  | [] => []
  | c :: r => upper_cp c ++ lower r
  end.

(** [str.strip()] with no argument. *)
Fixpoint lstrip (s : pystr) : pystr :=
  match s with
  | c :: r => if is_space c then lstrip r else s
  | [] => []
  end.

Definition rstrip (s : pystr) : pystr := rev (lstrip (rev s)).
Definition strip (s : pystr) : pystr := rstrip (lstrip s).

(** [str.split()] with no argument: maximal runs of non-space characters.
    [cur] is the word being read, reversed. *)
Fixpoint split_aux (cur : pystr) (s : pystr) : list pystr :=
  match s with
  | [] => match cur with [] => [] | _ => [rev cur] end
  | c :: r =>
    if is_space c
    then match cur with [] => split_aux [] r | _ => rev cur :: split_aux [] r end
    else split_aux (c :: cur) r
  end.

Definition split (s : pystr) : list pystr := split_aux [] s.

(** [sep.join(parts)]. *)
Fixpoint join (sep : pystr) (parts : list pystr) : pystr :=
  match parts with
  | [] => []
  | [p] => p
  | p :: rest => p ++ sep ++ join sep rest
  end.

End PyStr.
Export PyStr.

(* ===================================================================== *)
(** ** The fragment of [re] used by the phrase tables *)
(* ===================================================================== *)

Module Re.

Local Open Scope N_scope.

Inductive cset :=
| CLit (c : codepoint)
| CAny
| CDigit
| CSpace
| CWord
| CClass (cs : list codepoint).

Inductive quant := One | Opt | Star | Plus.

Inductive item :=
| Atom (c : cset) (q : quant)
| Bol
| Eol
| WordB.

Definition regex := list item.

Definition cset_mem (k : cset) (c : codepoint) : bool :=
  match k with
  | CLit d => c =? d
  | CAny => negb (c =? 10)
  | CDigit => is_digit c
  | CSpace => is_space c
  | CWord => is_word c
  | CClass cs => existsb (N.eqb c) cs
  end.

(** Reads the body of a [[...]] class up to the closing bracket. *)
Fixpoint take_class (s : pystr) : list codepoint * pystr :=
  match s with
  | [] => ([], [])
  | c :: r => if c =? 93 then ([], r)
              else let '(cs, rest) := take_class r in (c :: cs, rest)
  end.

Definition take_quant (s : pystr) : quant * pystr :=
  match s with
  | c :: r => if c =? 42 then (Star, r)
              else if c =? 43 then (Plus, r)
              else if c =? 63 then (Opt, r)
              else (One, s)
  | [] => (One, [])
  end.

(** Parser of the pattern syntax: literals, [.], [\d \s \w \b], [^], [$],
    bracket classes of literals, and the postfix [* + ?]. *)
Fixpoint parse_fuel (n : nat) (s : pystr) : regex :=
  match n with
  | O => []
  | S n' =>
    match s with
    | [] => []
    | c :: r =>
      if c =? 94 then Bol :: parse_fuel n' r
      else if c =? 36 then Eol :: parse_fuel n' r
      else if c =? 92 then
        match r with
        | e :: r' =>
          if e =? 98 then WordB :: parse_fuel n' r'
          else
            let k := if e =? 100 then CDigit
                     else if e =? 115 then CSpace
                     else if e =? 119 then CWord
                     else CLit e in
            let '(q, rest) := take_quant r' in
            Atom k q :: parse_fuel n' rest
        | [] => []
        end
      else if c =? 91 then
        let '(cs, r') := take_class r in
        let '(q, rest) := take_quant r' in
        Atom (CClass cs) q :: parse_fuel n' rest
      else
        let k := if c =? 46 then CAny else CLit c in
        let '(q, rest) := take_quant r in
        Atom k q :: parse_fuel n' rest
    end
  end.

Definition parse (p : pystr) : regex := parse_fuel (S (length p)) p.

Definition is_word_opt (o : option codepoint) : bool :=
  match o with Some c => is_word c | None => false end.

(** [match_here r prev s]: [r] matches a prefix of [s]; [prev] is the
    character before the current position ([None] at the start). *)
Fixpoint match_here (r : regex) (prev : option codepoint) (s : pystr) : bool :=
  match r with
  | [] => true
  | Bol :: r' =>
      match prev with None => match_here r' prev s | Some _ => false end
  | Eol :: r' =>
      match s with
      | [] => match_here r' prev s
      | [c] => (c =? 10) && match_here r' prev s
      | _ => false
      end
  | WordB :: r' =>
      xorb (is_word_opt prev) (is_word_opt (hd_error s)) && match_here r' prev s
  | Atom k One :: r' =>
      match s with
      | x :: s' => cset_mem k x && match_here r' (Some x) s'
      | [] => false
      end
  | Atom k Opt :: r' =>
      match s with
      | x :: s' => cset_mem k x && match_here r' (Some x) s'
      | [] => false
      end || match_here r' prev s
  | Atom k Star :: r' =>
      (fix star (prev : option codepoint) (s : pystr) : bool :=
         match s with
         | x :: s' => cset_mem k x && star (Some x) s'
         | [] => false
         end || match_here r' prev s) prev s
  | Atom k Plus :: r' =>
      match s with
      | x :: s' =>
        cset_mem k x &&
        (fix star (prev : option codepoint) (s : pystr) : bool :=
           match s with
           | x :: s' => cset_mem k x && star (Some x) s'
           | [] => false
           end || match_here r' prev s) (Some x) s'
      | [] => false
      end
  end.

(** [re.search]: a match starting at some position. *)
Fixpoint search_from (r : regex) (prev : option codepoint) (s : pystr) : bool :=
  match_here r prev s ||
  match s with
  | x :: s' => search_from r (Some x) s'
  | [] => false
  end.

Definition re_search (p : pystr) (s : pystr) : bool :=
  search_from (parse p) None s.

(** The number of positions of [s] at which the pattern matches: the
    occurrences of a phrase in a text. *)
Fixpoint occurrences_from (r : regex) (prev : option codepoint) (s : pystr) : nat :=
  ((if match_here r prev s then 1 else 0) +
   match s with
   | x :: s' => occurrences_from r (Some x) s'
   | [] => 0
   end)%nat.

Definition occurrences (p : pystr) (s : pystr) : nat :=
  occurrences_from (parse p) None s.

End Re.
Export Re.

(* ===================================================================== *)
(** ** Floats as rationals, and the built-ins [max] and [min] *)
(* ===================================================================== *)

Definition Qltb (a b : Q) : bool := negb (Qle_bool b a).


(** [max(a, b)] returns the first argument unless the second is greater;
    [min(a, b)] returns the first unless the second is smaller. *)
Definition py_max (a b : Q) : Q := if Qltb a b then b else a.
Definition py_min (a b : Q) : Q := if Qltb b a then b else a.

(** [_overlap]: the duration of overlap between two time intervals. *)
Definition _overlap (a_start a_end b_start b_end : Q) : Q :=
  py_max 0 (py_min a_end b_end - py_max a_start b_start).


Definition Qsum (l : list Q) : Q := fold_left Qplus l 0.

Definition Qnat (n : nat) : Q := inject_Z (Z.of_nat n).

(* ===================================================================== *)
(** ** Dictionaries in insertion order *)
(* ===================================================================== *)

Section Dict.

Context {V : Type}.

Definition dict := list (pystr * V).

Fixpoint dict_get (d : dict) (k : pystr) : option V :=
  match d with
  | [] => None
  | (k', v) :: r => if pystr_eqb k' k then Some v else dict_get r k
  end.

Definition dict_get_default (d : dict) (k : pystr) (dflt : V) : V :=
  match dict_get d k with Some v => v | None => dflt end.

(** [d[k] = v]: replaces in place, or appends a new key at the end. *)
Fixpoint dict_set (d : dict) (k : pystr) (v : V) : dict :=
  match d with
  | [] => [(k, v)]
  | (k', v') :: r =>
      if pystr_eqb k' k then (k', v) :: r else (k', v') :: dict_set r k v
  end.

Definition dict_keys (d : dict) : list pystr := map fst d.
Definition dict_values (d : dict) : list V := map snd d.

Definition dict_mem (d : dict) (k : pystr) : bool :=
  match dict_get d k with Some _ => true | None => false end.

End Dict.

Arguments dict V : clear implicits.

(** [max(d, key=d.get)]: the first key, in insertion order, whose value is
    maximal. *)
Fixpoint max_key_from (best : pystr) (bestv : Q) (d : dict Q) : pystr :=
  match d with
  | [] => best
  | (k, v) :: r =>
      if Qltb bestv v then max_key_from k v r else max_key_from best bestv r
  end.

Definition max_key (d : dict Q) : option pystr :=
  match d with
  | [] => None
  | (k, v) :: r => Some (max_key_from k v r)
  end.

(** [min(values)] over a non-empty list. *)
Definition py_min_list (l : list Q) : option Q :=
  match l with
  | [] => None
  | x :: r => Some (fold_left py_min r x)
  end.

(** [sorted(d, key=d.get, reverse=True)]: stable, descending by value. *)
Fixpoint insert_desc (x : pystr * Q) (l : list (pystr * Q)) : list (pystr * Q) :=
  match l with
  | [] => [x]
  | y :: r => if Qltb (snd x) (snd y) then y :: insert_desc x r else x :: l
  end.

Definition sorted_desc (d : dict Q) : list pystr :=
  map fst (fold_right insert_desc [] d).

(* ===================================================================== *)
(** ** Data classes *)
(* ===================================================================== *)

Record DiarizationSegment := {
  dia_speaker : pystr;
  dia_start : Q;
  dia_end : Q
}.

Record DiarizationResult := {
  dia_segments : list DiarizationSegment;
  dia_num_speakers : Z
}.

Record WordTimestamp := {
  w_word : pystr;
  w_start : Q;
  w_end : Q;
  w_probability : Q
}.

Record TranscriptionSegment := {
  tr_text : pystr;
  tr_start : Q;
  tr_end : Q;
  tr_words : list WordTimestamp;
  tr_avg_logprob : Q;
  tr_no_speech_prob : Q
}.

Record TranscriptionResult := {
  tr_segments : list TranscriptionSegment;
  tr_language : pystr;
  tr_language_probability : Q;
  tr_duration : Q
}.

Inductive SpeakerLabel := agent | customer.

Definition label_str (l : SpeakerLabel) : pystr :=
  match l with agent => u "agent" | customer => u "customer" end.

Record AlignedSegment := {
  seg_speaker : SpeakerLabel;
  seg_text : pystr;
  seg_start : Q;
  seg_end : Q;
  seg_confidence : option Q
}.

Inductive ChannelMode := stereo | mono.

Record PipelineResult := {
  segments : list AlignedSegment;
  full_text : pystr;
  language : pystr;
  duration : Q;
  num_speakers : Z;
  channel_mode : ChannelMode;
  raw_transcription : option TranscriptionResult;
  raw_diarization : option DiarizationResult
}.

(* ===================================================================== *)
(** ** Alignment *)
(* ===================================================================== *)

Definition _avg_word_confidence (seg : TranscriptionSegment) : option Q :=
  match tr_words seg with
  | [] => None
  | ws => Some (Qsum (map w_probability ws) / Qnat (length ws))
  end.

(** One iteration of the inner loop over the diarization segments. *)
Definition add_overlap (tseg : TranscriptionSegment) (acc : dict Q)
    (dseg : DiarizationSegment) : dict Q :=
  let ov := _overlap (tr_start tseg) (tr_end tseg) (dia_start dseg) (dia_end dseg) in
  if Qltb 0 ov
  then dict_set acc (dia_speaker dseg)
         (dict_get_default acc (dia_speaker dseg) 0 + ov)
  else acc.

Definition speaker_overlap (tseg : TranscriptionSegment)
    (dsegs : list DiarizationSegment) : dict Q :=
  fold_left (add_overlap tseg) dsegs [].

Definition align_one (dsegs : list DiarizationSegment)
    (speaker_map : dict SpeakerLabel) (tseg : TranscriptionSegment) : AlignedSegment :=
  let label :=
    match max_key (speaker_overlap tseg dsegs) with
    | Some raw_speaker => dict_get_default speaker_map raw_speaker customer
    | None => agent
    end in
  {| seg_speaker := label;
     seg_text := tr_text tseg;
     seg_start := tr_start tseg;
     seg_end := tr_end tseg;
     seg_confidence := _avg_word_confidence tseg |}.

Definition _align_segments (transcription : TranscriptionResult)
    (diarization : DiarizationResult) (speaker_map : dict SpeakerLabel)
    : list AlignedSegment :=
  map (align_one (dia_segments diarization) speaker_map) (tr_segments transcription).

(* ===================================================================== *)
(** ** Speaker labelling heuristic (mono path) *)
(* ===================================================================== *)

(** Polish formal/sales phrases typical for call centre agents. *)
Definition _AGENT_PHRASES : list pystr := map u [
  (* Greetings & intro *)
  "dzień dobry";
  "dzwonię z";
  "dzwonię ze";
  "dzwonię w sprawie";
  "nazywam się";
  "mam na imię";
  (* Sales language *)
  "czy mogę zaproponować";
  "mogę zaproponować";
  "chciał\w*bym zaproponować";
  "w promocyjnej cenie";
  "w promocji";
  "promocja";
  "rabat";
  "gratis";
  "w cenie";
  "kuracja";
  "bestseller";
  "opakowanie";
  "opakowań";
  (* Prices & numbers *)
  "\d+\s*zł";
  "\d+\s*złotych";
  "kosztuje";
  "oszczędność";
  "za opakowanie";
  "za pobraniem";
  "płatność";
  "metoda płatności";
  (* Order & delivery *)
  "dane dostawy";
  "adres dostawy";
  "numer zamówienia";
  "potwierdzam zamówienie";
  "w sprawie zamówienia";
  "wysyłam";
  "wysyłka";
  "kurier";
  "paczka";
  "przesyłka";
  (* Formal phrases *)
  "potrzebuję potwierdzenia";
  "muszę potwierdzić";
  "czy wszystko się zgadza";
  "czy wyraża pan\w* zgodę";
  "czy wyraża pani zgodę";
  "proszę pan\w";
  "regulamin";
  "reklamacja";
  "gwarancja";
  (* Closing *)
  "miłego dnia";
  "dziękuję za rozmowę";
  "do widzenia";
  "życzę miłego"
]%string.

(** Short customer-like responses. *)
Definition _CUSTOMER_SHORT_RESPONSES : list pystr := map u [
  "^tak[.,!]?\s*$";
  "^nie[.,!]?\s*$";
  "^no\s*$";
  "^no tak\s*$";
  "^no nie\s*$";
  "^no dobrze";
  "^no niech będzie";
  "^niech będzie";
  "^dokładnie";
  "^dobrze";
  "^ok\b";
  "^okej";
  "^trudno";
  "^halo";
  "^to znaczy";
  "^mhm";
  "^aha";
  "^uhm";
  "^no właśnie";
  "^zgadza się";
  "^jasne";
  "^rozumiem";
  "^a ile";
  "^no to";
  "^yyyy"
]%string.

(** [sum(1 for p in patterns if re.search(p, text_lower))]. *)
Definition _count_phrase_matches (text : pystr) (patterns : list pystr) : nat :=
  let text_lower := lower text in
  length (filter (fun p => re_search p text_lower) patterns).

Definition _count_distinct_phrase_matches (text : pystr) (patterns : list pystr) : nat :=
  let text_lower := lower text in
  length (filter (fun p => re_search p text_lower) patterns).

(** The three dictionaries gathered from the diarization segments. *)
Record dia_stats := {
  speaking_time : dict Q;
  first_appearance : dict Q;
  segment_count : dict Z
}.

Definition gather_step (st : dia_stats) (seg : DiarizationSegment) : dia_stats :=
  let dur := dia_end seg - dia_start seg in
  let sp := dia_speaker seg in
  {| speaking_time :=
       dict_set (speaking_time st) sp (dict_get_default (speaking_time st) sp 0 + dur);
     segment_count :=
       dict_set (segment_count st) sp (dict_get_default (segment_count st) sp 0 + 1)%Z;
     first_appearance :=
       if dict_mem (first_appearance st) sp then first_appearance st
       else dict_set (first_appearance st) sp (dia_start seg) |}.

Definition gather_stats (dsegs : list DiarizationSegment) : dia_stats :=
  fold_left gather_step dsegs
    {| speaking_time := []; first_appearance := []; segment_count := [] |}.

(** Top two speakers by speaking time. *)
Definition top_speakers (dsegs : list DiarizationSegment) : list pystr :=
  firstn 2 (sorted_desc (speaking_time (gather_stats dsegs))).

(** One iteration of the loop that attributes transcription text to the
    candidate speakers. *)
Definition attribute_text (dsegs : list DiarizationSegment)
    (acc : dict (list pystr)) (tseg : TranscriptionSegment) : dict (list pystr) :=
  match max_key (speaker_overlap tseg dsegs) with
  | Some best =>
      match dict_get acc best with
      | Some l => dict_set acc best (l ++ [strip (tr_text tseg)])
      | None => acc
      end
  | None => acc
  end.

Definition speaker_texts (dsegs : list DiarizationSegment)
    (tsegs : list TranscriptionSegment) : dict (list pystr) :=
  fold_left (attribute_text dsegs) tsegs
    (map (fun sp => (sp, @nil pystr)) (top_speakers dsegs)).

(** The entries of the per-speaker [info] dictionary that the function
    reads back (the rounded values are only logged). *)
Record info := {
  agent_phrases : nat;
  customer_responses : nat;
  short_segments : nat;
  distinct_agent_phrases : nat;
  total_segments : nat
}.

Definition word_count (t : pystr) : nat := length (split t).

Section Signals.

Variable st : dia_stats.
Variable texts : list pystr.
Variable sp : pystr.

Definition all_text : pystr := join (u " ") texts.

(** Signal 1: formal/sales phrases, +3 per match. *)
Definition agent_phrase_count : nat := _count_phrase_matches all_text _AGENT_PHRASES.
Definition signal_agent_phrases : Q := Qnat agent_phrase_count * 3.

(** Signal 2: short customer response patterns, -2 per matching text. *)
Definition short_responses : nat :=
  length (filter (fun t => (0 <? _count_phrase_matches t _CUSTOMER_SHORT_RESPONSES)%nat) texts).

(** Signal 3: segments of fewer than 5 words, -1.5 each. *)
Definition short_segment_count : nat :=
  length (filter (fun t => (word_count t <? 5)%nat) texts).

(** Signal 4: share of the total speaking time. *)
Definition time_pct : Q :=
  let total_time := Qsum (dict_values (speaking_time st)) in
  if Qltb 0 total_time
  then dict_get_default (speaking_time st) sp 0 / total_time
  else 0.

(** Signal 5: average words per segment. *)
Definition avg_words : Q :=
  match texts with
  | [] => 0
  | _ => Qnat (fold_left Nat.add (map word_count texts) O) / Qnat (length texts)
  end.

(** Signal 6: diversity of agent phrases. *)
Definition distinct_agent : nat := _count_distinct_phrase_matches all_text _AGENT_PHRASES.

(** Signal 7: speaks first. *)
Definition speaks_first : bool :=
  match dict_get (first_appearance st) sp, py_min_list (dict_values (first_appearance st)) with
  | Some x, Some m => Qeq_bool x m
  | _, _ => false
  end.

(** The body of the scoring loop for one speaker: the running value of
    [scores[sp]] after each signal. *)
Definition speaker_score : Q :=
  let s0 := 0 in
  let s1 := s0 + signal_agent_phrases in
  let s2 := s1 - Qnat short_responses * 2 in
  let s3 := s2 - Qnat short_segment_count * (3 # 2) in
  let s4 := if Qltb (11 # 20) time_pct then s3 + 2 else s3 in
  let s5 := match texts with
            | [] => s4
            | _ => if Qltb 8 avg_words then s4 + 1 else s4
            end in
  let s6 := if (3 <=? distinct_agent)%nat then s5 + 2 else s5 in
  let s7 := if speaks_first then s6 + (1 # 2) else s6 in
  s7.

Definition speaker_info : info :=
  {| agent_phrases := agent_phrase_count;
     customer_responses := short_responses;
     short_segments := short_segment_count;
     distinct_agent_phrases := distinct_agent;
     total_segments := length texts |}.

End Signals.

Definition texts_of (dsegs : list DiarizationSegment)
    (tsegs : list TranscriptionSegment) (sp : pystr) : list pystr :=
  dict_get_default (speaker_texts dsegs tsegs) sp [].

(** The [scores] dictionary after the scoring loop. *)
Definition speaker_scores (dsegs : list DiarizationSegment)
    (tsegs : list TranscriptionSegment) : dict Q :=
  map (fun sp => (sp, speaker_score (gather_stats dsegs) (texts_of dsegs tsegs sp) sp))
      (top_speakers dsegs).

Definition _label_speakers_smart (diarization : DiarizationResult)
    (transcription : TranscriptionResult) : dict SpeakerLabel :=
  let dsegs := dia_segments diarization in
  let tsegs := tr_segments transcription in
  match dsegs with
  | [] => []
  | _ =>
    let scores := speaker_scores dsegs tsegs in
    match top_speakers dsegs with
    | [sp] =>
        let i := speaker_info (texts_of dsegs tsegs sp) in
        if (agent_phrases i =? 0)%nat
           && Qltb (Qnat (total_segments i) * (1 # 2)) (Qnat (short_segments i))
        then [(sp, customer)]
        else [(sp, agent)]
    | [a; b] =>
        if Qle_bool (dict_get_default scores b 0) (dict_get_default scores a 0)
        then [(a, agent); (b, customer)]
        else [(b, agent); (a, customer)]
    | _ => []
    end
  end.

(* ===================================================================== *)
(** ** Exceptions and collaborators *)
(* ===================================================================== *)

(** An instance of [Exception]: its class name and [str(e)]. *)
Record exn := {
  exn_class : pystr;
  exn_msg : pystr
}.

Inductive outcome (A : Type) :=
| Ok (a : A)
| Raise (e : exn).

Arguments Ok {A} a.
Arguments Raise {A} e.

(** What the recognition service is asked to transcribe: a file, or one
    channel of a file exported by [_split_stereo]. *)
Inductive AudioRef :=
| WavFile (path : pystr)
| MonoChannel (path : pystr) (index : nat).

(** Calls observed during one pipeline run. *)
Inductive event :=
| EvTranscribe (a : AudioRef)
| EvDiarize (path : pystr)
| EvClassify.

(** The decoded audio, as far as routing reads it. *)
Record Audio := {
  channels : Z
}.

(** The external collaborators: file system, decoder, recognition and
    diarization services. *)
Record Env := {
  path_exists : pystr -> bool;
  load_audio : pystr -> outcome Audio;
  transcribe : AudioRef -> outcome TranscriptionResult;
  diarize : pystr -> outcome DiarizationResult
}.

(** Pipeline computations: they may raise and they log collaborator calls. *)
Definition P (A : Type) : Type := list event -> outcome A * list event.

Definition P_ret {A} (a : A) : P A := fun tr => (Ok a, tr).

Definition P_bind {A B} (m : P A) (f : A -> P B) : P B :=
  fun tr => match m tr with
            | (Ok a, tr') => f a tr'
            | (Raise e, tr') => (Raise e, tr')
            end.

Definition P_raise {A} (e : exn) : P A := fun tr => (Raise e, tr).

Definition P_log (ev : event) : P unit := fun tr => (Ok tt, tr ++ [ev]).

Definition P_lift {A} (o : outcome A) : P A := fun tr => (o, tr).

Declare Scope pipe_scope.
Delimit Scope pipe_scope with pipe.
Notation "x <- m ;; k" := (P_bind m (fun x => k))
  (at level 61, m at next level, right associativity) : pipe_scope.
Notation "m ;;; k" := (P_bind m (fun _ => k))
  (at level 61, right associativity) : pipe_scope.

(** Decimal rendering of an integer in an f-string. *)
Definition str_of_Z (z : Z) : pystr :=
  u (NilZero.string_of_int (Z.to_int z)).

(** Stable ascending sort by a float key ([list.sort] and [sorted]). *)
Section SortBy.

Context {A : Type}.
Variable key : A -> Q.

Fixpoint insert_by (x : A) (l : list A) : list A :=
  match l with
  | [] => [x]
  | y :: r => if Qltb (key y) (key x) then y :: insert_by x r else x :: l
  end.

Definition sorted_by (l : list A) : list A := fold_right insert_by [] l.

End SortBy.

(** [_build_full_text]. *)
Definition render_line (label : pystr) (text : pystr) : pystr :=
  u "[" ++ capitalize label ++ u "] " ++ text.

Definition _build_full_text (segs : list AlignedSegment) : pystr :=
  join [10%N]
    (map (fun seg => render_line (label_str (seg_speaker seg)) (seg_text seg)) segs).

Section Pipeline.

Variable env : Env.

Local Open Scope pipe_scope.

Definition call_transcribe (a : AudioRef) : P TranscriptionResult :=
  P_log (EvTranscribe a) ;;; P_lift (transcribe env a).

Definition call_diarize (path : pystr) : P DiarizationResult :=
  P_log (EvDiarize path) ;;; P_lift (diarize env path).

Definition call_label_speakers (d : DiarizationResult) (t : TranscriptionResult)
    : P (dict SpeakerLabel) :=
  P_log EvClassify ;;; P_ret (_label_speakers_smart d t).

(** [_split_stereo]: left is agent, right is customer. *)
Definition _split_stereo (audio : Audio) (audio_path : pystr) : P (AudioRef * AudioRef) :=
  if negb (channels audio =? 2)%Z
  then P_raise {| exn_class := u "ValueError";
                  exn_msg := u "Expected stereo audio (2 channels), got "
                             ++ str_of_Z (channels audio) |}
  else P_ret (MonoChannel audio_path 0, MonoChannel audio_path 1).

Definition channel_segment (label : SpeakerLabel) (seg : TranscriptionSegment)
    : AlignedSegment :=
  {| seg_speaker := label;
     seg_text := tr_text seg;
     seg_start := tr_start seg;
     seg_end := tr_end seg;
     seg_confidence := _avg_word_confidence seg |}.

Definition _run_stereo_pipeline (audio : Audio) (audio_path : pystr) : P PipelineResult :=
  paths <- _split_stereo audio audio_path ;;
  agent_result <- call_transcribe (fst paths) ;;
  customer_result <- call_transcribe (snd paths) ;;
  let segs := map (channel_segment agent) (tr_segments agent_result)
              ++ map (channel_segment customer) (tr_segments customer_result) in
  let segs := sorted_by seg_start segs in
  P_ret {| segments := segs;
           full_text := _build_full_text segs;
           language := tr_language agent_result;
           duration := py_max (tr_duration agent_result) (tr_duration customer_result);
           num_speakers := 2;
           channel_mode := stereo;
           raw_transcription := None;
           raw_diarization := None |}.

Definition _run_mono_pipeline (audio_path : pystr) : P PipelineResult :=
  diarization <- call_diarize audio_path ;;
  transcription <- call_transcribe (WavFile audio_path) ;;
  speaker_map <- call_label_speakers diarization transcription ;;
  let segs := _align_segments transcription diarization speaker_map in
  P_ret {| segments := segs;
           full_text := _build_full_text segs;
           language := tr_language transcription;
           duration := tr_duration transcription;
           num_speakers := dia_num_speakers diarization;
           channel_mode := mono;
           raw_transcription := Some transcription;
           raw_diarization := Some diarization |}.

(** [TranscriptionPipeline.process]. *)
Definition process (audio_path : pystr) : P PipelineResult :=
  if negb (path_exists env audio_path)
  then P_raise {| exn_class := u "FileNotFoundError";
                  exn_msg := u "Audio file not found: " ++ audio_path |}
  else
    audio <- P_lift (load_audio env audio_path) ;;
    if (channels audio >=? 2)%Z
    then _run_stereo_pipeline audio audio_path
    else _run_mono_pipeline audio_path.

End Pipeline.

(* ===================================================================== *)
(** ** Storage: tables, sessions *)
(* ===================================================================== *)

Inductive Status := pending | processing | done | error.

Definition status_eqb (a b : Status) : bool :=
  match a, b with
  | pending, pending | processing, processing | done, done | error, error => true
  | _, _ => false
  end.

Record Recording := {
  rec_id : Z;
  rec_filename : pystr;
  rec_filepath : pystr;
  rec_duration_seconds : option Q;
  rec_created_at : option Z;
  rec_processed_at : option Z;
  rec_status : Status;
  rec_error_message : option pystr
}.

Record Transcript := {
  trn_id : Z;
  trn_recording_id : Z;
  trn_full_text : option pystr;
  trn_language : option pystr;
  trn_model_used : option pystr
}.

Record Segment := {
  sg_id : Z;
  sg_transcript_id : Z;
  sg_speaker_label : option pystr;
  sg_text : pystr;
  sg_start_time : Q;
  sg_end_time : Q;
  sg_confidence : option Q
}.

(** The three tables, rows in insertion order (the order in which a query
    without [order_by] returns them). *)
Record DB := {
  recordings : list Recording;
  transcripts : list Transcript;
  segment_rows : list Segment
}.

(** A session: the committed store, the session's uncommitted view of it,
    and the wall clock read by [datetime.utcnow]. *)
Record Session := {
  committed : DB;
  working : DB;
  clock : Z
}.

Definition M (A : Type) : Type := Session -> outcome A * Session.

Definition ret {A} (a : A) : M A := fun s => (Ok a, s).

Definition bind {A B} (m : M A) (f : A -> M B) : M B :=
  fun s => match m s with
           | (Ok a, s') => f a s'
           | (Raise e, s') => (Raise e, s')
           end.

Definition raise {A} (e : exn) : M A := fun s => (Raise e, s).

(** [try: body  except Exception as e: handler e]. *)
Definition try_except {A} (body : M A) (handler : exn -> M A) : M A :=
  fun s => match body s with
           | (Ok a, s') => (Ok a, s')
           | (Raise e, s') => handler e s'
           end.

(** [try: body  finally: cleanup]. *)
Definition try_finally {A} (body : M A) (cleanup : M unit) : M A :=
  fun s => match body s with
           | (o, s') =>
             match cleanup s' with
             | (Ok _, s'') => (o, s'')
             | (Raise e, s'') => (Raise e, s'')
             end
           end.

Declare Scope session_scope.
Delimit Scope session_scope with session.
Notation "x <- m ;; k" := (bind m (fun x => k))
  (at level 61, m at next level, right associativity) : session_scope.
Notation "m ;;; k" := (bind m (fun _ => k))
  (at level 61, right associativity) : session_scope.

Definition get_working : M DB := fun s => (Ok (working s), s).

Definition modify_working (f : DB -> DB) : M unit :=
  fun s => (Ok tt, {| committed := committed s; working := f (working s); clock := clock s |}).

Definition session_commit : M unit :=
  fun s => (Ok tt, {| committed := working s; working := working s; clock := clock s |}).

Definition session_rollback : M unit :=
  fun s => (Ok tt, {| committed := committed s; working := committed s; clock := clock s |}).

(** Closing (or opening) a session leaves only what was committed. *)
Definition session_close : M unit := session_rollback.

Definition utcnow : M Z :=
  fun s => (Ok (clock s),
            {| committed := committed s; working := working s; clock := (clock s + 1)%Z |}).

(** The next integer primary key of a table. *)
Definition next_id (ids : list Z) : Z := (fold_left Z.max ids 0 + 1)%Z.

Definition update_recording (id : Z) (f : Recording -> Recording) (db : DB) : DB :=
  {| recordings := map (fun r => if (rec_id r =? id)%Z then f r else r) (recordings db);
     transcripts := transcripts db;
     segment_rows := segment_rows db |}.

Definition update_transcript (id : Z) (f : Transcript -> Transcript) (db : DB) : DB :=
  {| recordings := recordings db;
     transcripts := map (fun t => if (trn_id t =? id)%Z then f t else t) (transcripts db);
     segment_rows := segment_rows db |}.

Definition update_segments_of (tid : Z) (f : Segment -> Segment) (db : DB) : DB :=
  {| recordings := recordings db;
     transcripts := transcripts db;
     segment_rows := map (fun s => if (sg_transcript_id s =? tid)%Z then f s else s)
                         (segment_rows db) |}.

Definition set_status (st : Status) (r : Recording) : Recording :=
  {| rec_id := rec_id r; rec_filename := rec_filename r; rec_filepath := rec_filepath r;
     rec_duration_seconds := rec_duration_seconds r; rec_created_at := rec_created_at r;
     rec_processed_at := rec_processed_at r; rec_status := st;
     rec_error_message := rec_error_message r |}.

Definition set_error_message (m : option pystr) (r : Recording) : Recording :=
  {| rec_id := rec_id r; rec_filename := rec_filename r; rec_filepath := rec_filepath r;
     rec_duration_seconds := rec_duration_seconds r; rec_created_at := rec_created_at r;
     rec_processed_at := rec_processed_at r; rec_status := rec_status r;
     rec_error_message := m |}.

Definition set_processed_at (t : option Z) (r : Recording) : Recording :=
  {| rec_id := rec_id r; rec_filename := rec_filename r; rec_filepath := rec_filepath r;
     rec_duration_seconds := rec_duration_seconds r; rec_created_at := rec_created_at r;
     rec_processed_at := t; rec_status := rec_status r;
     rec_error_message := rec_error_message r |}.

Definition set_duration_seconds (d : option Q) (r : Recording) : Recording :=
  {| rec_id := rec_id r; rec_filename := rec_filename r; rec_filepath := rec_filepath r;
     rec_duration_seconds := d; rec_created_at := rec_created_at r;
     rec_processed_at := rec_processed_at r; rec_status := rec_status r;
     rec_error_message := rec_error_message r |}.

Definition set_speaker_label (l : option pystr) (s : Segment) : Segment :=
  {| sg_id := sg_id s; sg_transcript_id := sg_transcript_id s; sg_speaker_label := l;
     sg_text := sg_text s; sg_start_time := sg_start_time s; sg_end_time := sg_end_time s;
     sg_confidence := sg_confidence s |}.

Definition set_full_text (x : option pystr) (t : Transcript) : Transcript :=
  {| trn_id := trn_id t; trn_recording_id := trn_recording_id t; trn_full_text := x;
     trn_language := trn_language t; trn_model_used := trn_model_used t |}.

(** [session.query(Recording).filter(Recording.filepath == p).first()]. *)
Definition recording_by_filepath (p : pystr) (db : DB) : option Recording :=
  find (fun r => pystr_eqb (rec_filepath r) p) (recordings db).

(** [session.get(Recording, id)]. *)
Definition recording_by_id (id : Z) (db : DB) : option Recording :=
  find (fun r => (rec_id r =? id)%Z) (recordings db).

(** [session.query(Transcript).filter(Transcript.recording_id == id)]. *)
Definition transcripts_of (id : Z) (db : DB) : list Transcript :=
  filter (fun t => (trn_recording_id t =? id)%Z) (transcripts db).

(** [session.query(Segment).filter(Segment.transcript_id == tid).all()]. *)
Definition segments_of (tid : Z) (db : DB) : list Segment :=
  filter (fun s => (sg_transcript_id s =? tid)%Z) (segment_rows db).

(** [session.add(Recording(filename, filepath, status))] followed by the
    flush that assigns the key and the [created_at] default. *)
Definition add_recording (fname fpath : pystr) (st : Status) : M Z :=
  (now <- utcnow ;;
   db <- get_working ;;
   let id := next_id (map rec_id (recordings db)) in
   modify_working (fun db =>
     {| recordings := recordings db ++
          [ {| rec_id := id; rec_filename := fname; rec_filepath := fpath;
               rec_duration_seconds := None; rec_created_at := Some now;
               rec_processed_at := None; rec_status := st;
               rec_error_message := None |} ];
        transcripts := transcripts db;
        segment_rows := segment_rows db |}) ;;;
   ret id)%session.

Definition add_transcript (rid : Z) (text lang : pystr) : M Z :=
  (db <- get_working ;;
   let id := next_id (map trn_id (transcripts db)) in
   modify_working (fun db =>
     {| recordings := recordings db;
        transcripts := transcripts db ++
          [ {| trn_id := id; trn_recording_id := rid; trn_full_text := Some text;
               trn_language := Some lang; trn_model_used := None |} ];
        segment_rows := segment_rows db |}) ;;;
   ret id)%session.

Definition add_segment (tid : Z) (seg : AlignedSegment) : M unit :=
  modify_working (fun db =>
    {| recordings := recordings db;
       transcripts := transcripts db;
       segment_rows := segment_rows db ++
         [ {| sg_id := next_id (map sg_id (segment_rows db));
              sg_transcript_id := tid;
              sg_speaker_label := Some (label_str (seg_speaker seg));
              sg_text := seg_text seg;
              sg_start_time := seg_start seg;
              sg_end_time := seg_end seg;
              sg_confidence := seg_confidence seg |} ] |}).

Fixpoint for_each {A} (l : list A) (body : A -> M unit) : M unit :=
  match l with
  | [] => ret tt
  | x :: r => bind (body x) (fun _ => for_each r body)
  end.

(** [session.delete(t)] for a transcript, with the cascade to its segments. *)
Definition delete_transcript (t : Transcript) : M unit :=
  modify_working (fun db =>
    {| recordings := recordings db;
       transcripts := filter (fun t' => negb (trn_id t' =? trn_id t)%Z) (transcripts db);
       segment_rows := filter (fun s => negb (sg_transcript_id s =? trn_id t)%Z)
                              (segment_rows db) |}).

(** Failures of the storage layer during a run of [_process_file], by the
    place where they arise: before the [try] block, when the session is
    opened and the path is looked up ([init_db()], [SessionLocal()] and the
    query) and at the commit of the pending record; inside the [try] block,
    at the flush of the new transcript and at the final commit; in the
    [except] block, at the rollback and the re-fetch of the record and at the
    commit of the error status. *)
Record Faults := {
  open_error : option exn;
  enqueue_error : option exn;
  flush_error : option exn;
  commit_error : option exn;
  rollback_error : option exn;
  handler_error : option exn
}.

Definition may_fail (f : option exn) : M unit :=
  match f with Some e => raise e | None => ret tt end.

(** [Path.name]: the final component of a path. *)
Fixpoint path_name_aux (cur : pystr) (s : pystr) : pystr :=
  match s with
  | [] => rev cur
  | c :: r => if (c =? 47)%N then path_name_aux [] r else path_name_aux (c :: cur) r
  end.

Definition path_name (p : pystr) : pystr := path_name_aux [] p.

(* ===================================================================== *)
(** ** Recording lifecycle: [_process_file], [reprocess_recording] *)
(* ===================================================================== *)

Section Lifecycle.

Variable env : Env.
Variable faults : Faults.

Local Open Scope session_scope.

(** [_process_file], first part: look the path up and either skip, reset
    the existing record or create one.  Returns the key of the record to
    process, or [None] when the file is skipped. *)
Definition _process_file_enqueue (file_path : pystr) : M (option Z) :=
  may_fail (open_error faults) ;;;
  db <- get_working ;;
  match recording_by_filepath file_path db with
  | Some existing =>
      if status_eqb (rec_status existing) done
      then session_close ;;; ret None
      else
        modify_working (update_recording (rec_id existing) (set_status pending)) ;;;
        modify_working (update_recording (rec_id existing) (set_error_message None)) ;;;
        may_fail (enqueue_error faults) ;;;
        session_commit ;;;
        ret (Some (rec_id existing))
  | None =>
      id <- add_recording (path_name file_path) file_path pending ;;
      may_fail (enqueue_error faults) ;;;
      session_commit ;;;
      ret (Some id)
  end.

(** The body of the [try] block. *)
Definition _process_file_try (recording_id : Z) (file_path : pystr) : M unit :=
  modify_working (update_recording recording_id (set_status processing)) ;;;
  session_commit ;;;
  result <- (fun s => (fst (process env file_path []), s)) ;;
  transcript_id <- add_transcript recording_id (full_text result) (language result) ;;
  may_fail (flush_error faults) ;;;
  for_each (segments result) (add_segment transcript_id) ;;;
  modify_working (update_recording recording_id (set_status done)) ;;;
  modify_working (update_recording recording_id
                    (set_duration_seconds (Some (duration result)))) ;;;
  now <- utcnow ;;
  modify_working (update_recording recording_id (set_processed_at (Some now))) ;;;
  may_fail (commit_error faults) ;;;
  session_commit.

(** The [except Exception as e] block. Nothing guards it: what it raises
    leaves [_process_file] after the [finally] block has run. *)
Definition _process_file_except (recording_id : Z) (e : exn) : M unit :=
  may_fail (rollback_error faults) ;;;
  session_rollback ;;;
  db <- get_working ;;
  match recording_by_id recording_id db with
  | Some _ =>
      modify_working (update_recording recording_id (set_status error)) ;;;
      modify_working (update_recording recording_id
                        (set_error_message (Some (exn_msg e)))) ;;;
      may_fail (handler_error faults) ;;;
      session_commit
  | None => ret tt
  end.

Definition _process_file (file_path : pystr) : M unit :=
  r <- _process_file_enqueue file_path ;;
  match r with
  | None => ret tt
  | Some recording_id =>
      try_finally
        (try_except (_process_file_try recording_id file_path)
                    (_process_file_except recording_id))
        session_close
  end.

(** [reprocess_recording], the request handler up to its commit: delete the
    old transcripts (and, by cascade, their segments), reset the record. *)
Definition reprocess_reset (recording_id : Z) : M pystr :=
  try_finally
    (db <- get_working ;;
     match recording_by_id recording_id db with
     | None => raise {| exn_class := u "HTTPException";
                        exn_msg := u "Recording not found" |}
     | Some recording =>
         let filepath := rec_filepath recording in
         for_each (transcripts_of recording_id db) delete_transcript ;;;
         modify_working (update_recording recording_id (set_status pending)) ;;;
         modify_working (update_recording recording_id (set_error_message None)) ;;;
         modify_working (update_recording recording_id (set_processed_at None)) ;;;
         session_commit ;;;
         ret filepath
     end)
    session_close.

(** [reprocess_recording] with its background job run to completion. *)
Definition reprocess_recording (recording_id : Z) : M unit :=
  filepath <- reprocess_reset recording_id ;;
  _process_file filepath.

End Lifecycle.

(* ===================================================================== *)
(** ** [swap_speakers] *)
(* ===================================================================== *)

Definition swap_label (l : option pystr) : option pystr :=
  match l with
  | Some s =>
      if pystr_eqb s (u "agent") then Some (u "customer")
      else if pystr_eqb s (u "customer") then Some (u "agent")
      else Some s
  | None => None
  end.

(** The loop that renders the lines; [None.capitalize()] raises. *)
Fixpoint render_rows (rows : list Segment) : outcome (list pystr) :=
  match rows with
  | [] => Ok []
  | seg :: r =>
      match sg_speaker_label seg with
      | None => Raise {| exn_class := u "AttributeError";
                         exn_msg := u "'NoneType' object has no attribute 'capitalize'" |}
      | Some l =>
          match render_rows r with
          | Ok lines => Ok (render_line l (sg_text seg) :: lines)
          | Raise e => Raise e
          end
      end
  end.

Definition swap_speakers (recording_id : Z) : M bool :=
  (try_finally
    (db <- get_working ;;
     match transcripts_of recording_id db with
     | [] => ret false
     | transcript :: _ =>
         modify_working (update_segments_of (trn_id transcript)
                           (fun s => set_speaker_label (swap_label (sg_speaker_label s)) s)) ;;;
         db' <- get_working ;;
         let ordered := sorted_by sg_start_time (segments_of (trn_id transcript) db') in
         lines <- (fun s => (render_rows ordered, s)) ;;
         modify_working (update_transcript (trn_id transcript)
                           (set_full_text (Some (join [10%N] lines)))) ;;;
         session_commit ;;;
         ret true
     end)
    session_close)%session.

(** Running one request against the store: a fresh session, and what is
    committed when it ends. *)
Definition open_session (db : DB) (now : Z) : Session :=
  {| committed := db; working := db; clock := now |}.

Definition run {A} (m : M A) (db : DB) (now : Z) : outcome A * DB :=
  let '(o, s) := m (open_session db now) in (o, committed s).

(** The overlap of a transcription segment with a diarization segment. *)
Definition overlaps (tseg : TranscriptionSegment) (dseg : DiarizationSegment) : Q :=
  _overlap (tr_start tseg) (tr_end tseg) (dia_start dseg) (dia_end dseg).

(* ===================================================================== *)
(** ** Concrete inputs *)
(* ===================================================================== *)

(** Constructors for concrete segments. *)
Definition mk_dseg (tag : string) (a b : Q) : DiarizationSegment :=
  {| dia_speaker := u tag; dia_start := a; dia_end := b |}.

Definition mk_tseg (text : string) (a b : Q) : TranscriptionSegment :=
  {| tr_text := u text; tr_start := a; tr_end := b; tr_words := [];
     tr_avg_logprob := 0; tr_no_speech_prob := 0 |}.

Definition mk_diarization (l : list DiarizationSegment) : DiarizationResult :=
  {| dia_segments := l; dia_num_speakers := 2 |}.

Definition mk_transcription (l : list TranscriptionSegment) : TranscriptionResult :=
  {| tr_segments := l; tr_language := u "pl"; tr_language_probability := 1;
     tr_duration := 30 |}.

(* ===================================================================== *)
(** ** Readings of the score used to state the properties *)
(* ===================================================================== *)

(** What signals 2 to 7 add to a speaker's score. *)
Definition other_signals (st : dia_stats) (texts : list pystr) (sp : pystr) : Q :=
  - (Qnat (short_responses texts) * 2)
  - Qnat (short_segment_count texts) * (3 # 2)
  + (if Qltb (11 # 20) (time_pct st sp) then 2 else 0)
  + match texts with
    | [] => 0
    | _ => if Qltb 8 (avg_words texts) then 1 else 0
    end
  + (if (3 <=? distinct_agent texts)%nat then 2 else 0)
  + (if speaks_first st sp then 1 # 2 else 0).

(** The total number of occurrences of agent phrases in a speaker's
    concatenated text: each pattern counted as often as it matches. *)
Definition agent_phrase_occurrences (texts : list pystr) : nat :=
  fold_left Nat.add
    (map (fun p => occurrences p (lower (all_text texts))) _AGENT_PHRASES) O.

(** The number of agent phrase patterns that occur at least once. *)
Definition agent_patterns_present (texts : list pystr) : nat :=
  length (filter (fun p => (1 <=? occurrences p (lower (all_text texts)))%nat)
                 _AGENT_PHRASES).

(** The text that the attribution loop stores for a segment. *)
Definition stripped_text (tseg : TranscriptionSegment) : pystr := strip (tr_text tseg).

(** The transcription segment is attributed to speaker [sp]: [sp] is the
    first tag of maximal accumulated overlap. *)
Definition best_is (dsegs : list DiarizationSegment) (sp : pystr)
    (tseg : TranscriptionSegment) : bool :=
  match max_key (speaker_overlap tseg dsegs) with
  | Some best => pystr_eqb best sp
  | None => false
  end.

(** Every agent phrase pattern gives the same search result on the
    concatenated texts that two transcriptions attribute to each candidate. *)
Definition phrase_hits_agree (dsegs : list DiarizationSegment)
    (tsegs tsegs' : list TranscriptionSegment) : bool :=
  forallb (fun sp =>
    forallb (fun p =>
      Bool.eqb (re_search p (lower (all_text (texts_of dsegs tsegs sp))))
               (re_search p (lower (all_text (texts_of dsegs tsegs' sp)))))
      _AGENT_PHRASES)
    (top_speakers dsegs).

(** Order of two rows by a float key. *)
Definition key_le {A : Type} (key : A -> Q) (a b : A) : Prop := key a <= key b.

(** The event is a call of the recognition service. *)
Definition is_transcribe (ev : event) : bool :=
  match ev with EvTranscribe _ => true | _ => false end.

(** A decoder and services that always succeed, for a file of [n] channels
    in which the agent says [left] and the customer says [right]. *)
Definition env_of_channels (n : Z) (left right : list TranscriptionSegment) : Env :=
  {| path_exists := fun _ => true;
     load_audio := fun _ => Ok {| channels := n |};
     transcribe := fun a =>
       match a with
       | MonoChannel _ O => Ok (mk_transcription left)
       | MonoChannel _ _ => Ok (mk_transcription right)
       | WavFile _ => Ok (mk_transcription (left ++ right))
       end;
     diarize := fun _ => Ok (mk_diarization []) |}.

(* ===================================================================== *)
(** ** Readings of the lifecycle used to state the properties *)
(* ===================================================================== *)

(** The first exception raised inside the [try] block of [_process_file]
    after the record entered processing: by the pipeline, by the flush of the
    new transcript, or by the final commit. *)
Definition attempt_error (env : Env) (faults : Faults) (file_path : pystr) : option exn :=
  match fst (process env file_path []) with
  | Raise e => Some e
  | Ok _ =>
      match flush_error faults with
      | Some e => Some e
      | None => commit_error faults
      end
  end.

(** The path is not skipped: it is new, or its record is not done. *)
Definition enters_processing (db : DB) (file_path : pystr) : bool :=
  match recording_by_filepath file_path db with
  | Some r => negb (status_eqb (rec_status r) done)
  | None => true
  end.

(** The segment rows after the loop that adds the segments of a result. *)
Definition persist_segments (tid : Z) (segs : list AlignedSegment)
    (rows : list Segment) : list Segment :=
  fold_left (fun rows seg =>
    rows ++ [ {| sg_id := next_id (map sg_id rows);
                 sg_transcript_id := tid;
                 sg_speaker_label := Some (label_str (seg_speaker seg));
                 sg_text := seg_text seg;
                 sg_start_time := seg_start seg;
                 sg_end_time := seg_end seg;
                 sg_confidence := seg_confidence seg |} ]) segs rows.

(** The record as the enqueue step of [_process_file] leaves it. *)
Definition reset_by_enqueue (r : Recording) : Recording :=
  {| rec_id := rec_id r; rec_filename := rec_filename r; rec_filepath := rec_filepath r;
     rec_duration_seconds := rec_duration_seconds r; rec_created_at := rec_created_at r;
     rec_processed_at := rec_processed_at r; rec_status := pending;
     rec_error_message := None |}.

(** The record as [reprocess_recording] leaves it before the new run. *)
Definition reset_by_reprocess (r : Recording) : Recording :=
  {| rec_id := rec_id r; rec_filename := rec_filename r; rec_filepath := rec_filepath r;
     rec_duration_seconds := rec_duration_seconds r; rec_created_at := rec_created_at r;
     rec_processed_at := None; rec_status := pending;
     rec_error_message := None |}.

(** The [try]/[except]/[finally] statement of [_process_file]. *)
Definition _process_file_attempt (env : Env) (faults : Faults)
    (recording_id : Z) (file_path : pystr) : M unit :=
  try_finally
    (try_except (_process_file_try env faults recording_id file_path)
                (_process_file_except faults recording_id))
    session_close.

(** The storage calls before the [try] block succeed. *)
Definition enqueue_succeeds (faults : Faults) : Prop :=
  open_error faults = None /\ enqueue_error faults = None.

(** The storage calls of the [except] block succeed. *)
Definition handler_succeeds (faults : Faults) : Prop :=
  rollback_error faults = None /\ handler_error faults = None.

(** The except block lets [e] through: its rollback or re-fetch raises it,
    or else its commit does. *)
Definition handler_raises (faults : Faults) (e : exn) : Prop :=
  rollback_error faults = Some e
  \/ (rollback_error faults = None /\ handler_error faults = Some e).

(** A storage call before the [try] block raises [e]. *)
Definition enqueue_raises (faults : Faults) (e : exn) : Prop :=
  open_error faults = Some e
  \/ (open_error faults = None /\ enqueue_error faults = Some e).

(** The store after the [except] block has recorded the failure [e] of the
    attempt on record [id]; [db] is the store committed when the record
    entered processing. *)
Definition store_after_error (id : Z) (e : exn) (db : DB) : DB :=
  match recording_by_id id db with
  | Some _ =>
      update_recording id (set_error_message (Some (exn_msg e)))
        (update_recording id (set_status error) db)
  | None => db
  end.

(** The store after a successful attempt on record [id] that started from
    [db] at time [now]. *)
Definition store_after_success (id : Z) (result : PipelineResult) (now : Z) (db : DB) : DB :=
  let tid := next_id (map trn_id (transcripts db)) in
  {| recordings :=
       recordings
         (update_recording id (set_processed_at (Some now))
            (update_recording id (set_duration_seconds (Some (duration result)))
               (update_recording id (set_status done)
                  (update_recording id (set_status processing) db))));
     transcripts := transcripts db ++
       [ {| trn_id := tid; trn_recording_id := id;
            trn_full_text := Some (full_text result);
            trn_language := Some (language result); trn_model_used := None |} ];
     segment_rows := persist_segments tid (segments result) (segment_rows db) |}.

(** The store after the transcripts [ts] and, by cascade, their segments
    have been deleted. *)
Definition store_after_delete (ts : list Transcript) (db : DB) : DB :=
  {| recordings := recordings db;
     transcripts :=
       filter (fun t' => negb (existsb (fun t => (trn_id t' =? trn_id t)%Z) ts))
              (transcripts db);
     segment_rows :=
       filter (fun s => negb (existsb (fun t => (sg_transcript_id s =? trn_id t)%Z) ts))
              (segment_rows db) |}.

(** The store that [reprocess_recording] commits before the new run. *)
Definition store_after_reset (id : Z) (db : DB) : DB :=
  update_recording id (set_processed_at None)
    (update_recording id (set_error_message None)
       (update_recording id (set_status pending)
          (store_after_delete (transcripts_of id db) db))).

(** A store in which the record of a failed call still has a transcript
    with one segment. *)
Definition stale_store : DB :=
  {| recordings :=
       [ {| rec_id := 1; rec_filename := u "call.wav";
            rec_filepath := u "/watch/call.wav";
            rec_duration_seconds := Some 30; rec_created_at := Some 10%Z;
            rec_processed_at := Some 50%Z; rec_status := error;
            rec_error_message := Some (u "database is locked") |} ];
     transcripts :=
       [ {| trn_id := 1; trn_recording_id := 1;
            trn_full_text := Some (u "[Agent] stary tekst");
            trn_language := Some (u "pl"); trn_model_used := None |} ];
     segment_rows :=
       [ {| sg_id := 1; sg_transcript_id := 1; sg_speaker_label := Some (u "agent");
            sg_text := u "stary tekst"; sg_start_time := 0; sg_end_time := 3;
            sg_confidence := None |} ] |}.

Definition no_faults : Faults :=
  {| open_error := None; enqueue_error := None;
     flush_error := None; commit_error := None;
     rollback_error := None; handler_error := None |}.

Definition empty_store : DB :=
  {| recordings := []; transcripts := []; segment_rows := [] |}.

(** A two-channel call: the customer answers before the agent greets. *)
Definition stereo_call : Env :=
  env_of_channels 2 [mk_tseg "dzień dobry" 2 4] [mk_tseg "halo" 0 1].

(** The store after that call has been processed once. *)
Definition done_store : DB :=
  snd (run (_process_file stereo_call no_faults (u "/watch/call.wav")) empty_store 100).

(* ===================================================================== *)
(** ** Readings of [swap_speakers] used to state the properties *)
(* ===================================================================== *)

(** What [swap_speakers] does to one segment row. *)
Definition swap_row (s : Segment) : Segment :=
  set_speaker_label (swap_label (sg_speaker_label s)) s.

(** The transcript text rendered from segment rows taken in the given
    order; [None] when a row has no label. *)
Definition rows_text (rows : list Segment) : option pystr :=
  match render_rows rows with
  | Ok lines => Some (join [10%N] lines)
  | Raise _ => None
  end.

(** The rows of a transcript in ascending order of start time. *)
Definition rows_by_start (tid : Z) (db : DB) : list Segment :=
  sorted_by sg_start_time (segments_of tid db).

(** A single-channel call whose recognition returns the later segment
    first; the diarization has two speakers. *)
Definition mono_call_unordered : Env :=
  {| path_exists := fun _ => true;
     load_audio := fun _ => Ok {| channels := 1 |};
     transcribe := fun _ =>
       Ok (mk_transcription [mk_tseg "do widzenia" 5 6; mk_tseg "halo" 1 2]);
     diarize := fun _ => Ok (mk_diarization [mk_dseg "X" 0 3; mk_dseg "Y" 3 8]) |}.

(** The store after that call has been processed. *)
Definition unordered_store : DB :=
  snd (run (_process_file mono_call_unordered no_faults (u "/watch/mono.wav"))
           empty_store 100).

Definition swap_twice (recording_id : Z) : M bool :=
  bind (swap_speakers recording_id) (fun _ => swap_speakers recording_id).

(** The fields of a segment row other than its label. *)
Definition row_content (s : Segment) : Z * Z * pystr * Q * Q * option Q :=
  (sg_id s, sg_transcript_id s, sg_text s, sg_start_time s, sg_end_time s,
   sg_confidence s).

(* ===================================================================== *)
(** ** Readings of the accumulating dictionaries *)
(* ===================================================================== *)

(** [d[k] = d.get(k, 0.0) + v], the step shared by the loops that
    accumulate overlap and speaking time per speaker. *)
Definition dict_add (acc : dict Q) (kv : pystr * Q) : dict Q :=
  dict_set acc (fst kv) (dict_get_default acc (fst kv) 0 + snd kv).

Definition dict_add_all (items : list (pystr * Q)) (acc : dict Q) : dict Q :=
  fold_left dict_add items acc.

(** The sum of the values that the items give to key [k]. *)
Definition key_total (items : list (pystr * Q)) (k : pystr) : Q :=
  Qsum (map snd (filter (fun kv => pystr_eqb (fst kv) k) items)).

(** The total overlap of a transcription segment with the diarization
    segments of one speaker. *)
Definition tag_overlap (tseg : TranscriptionSegment)
    (dsegs : list DiarizationSegment) (sp : pystr) : Q :=
  Qsum (map (overlaps tseg)
            (filter (fun d => pystr_eqb (dia_speaker d) sp) dsegs)).

(** The total duration of the diarization segments of one speaker. *)
Definition tag_duration (dsegs : list DiarizationSegment) (sp : pystr) : Q :=
  Qsum (map (fun d => dia_end d - dia_start d)
            (filter (fun d => pystr_eqb (dia_speaker d) sp) dsegs)).

(** [len({s.speaker for s in segments})]: the number of distinct tags. *)
Definition distinct_tags (dsegs : list DiarizationSegment) : nat :=
  length (nodup (list_eq_dec N.eq_dec) (map dia_speaker dsegs)).

(** Order of two dictionary items by descending value. *)
Definition value_ge (x y : pystr * Q) : Prop := snd y <= snd x.

(** The transcription segment is attributed to one of the candidates. *)
Definition attributed_to_candidate (dsegs : list DiarizationSegment)
    (tseg : TranscriptionSegment) : bool :=
  existsb (fun sp => best_is dsegs sp tseg) (top_speakers dsegs).

(** A transcription restricted to some of its segments. *)
Definition with_segments (t : TranscriptionResult) (segs : list TranscriptionSegment)
    : TranscriptionResult :=
  {| tr_segments := segs; tr_language := tr_language t;
     tr_language_probability := tr_language_probability t;
     tr_duration := tr_duration t |}.

(** The columns of a segment row other than its key. *)
Definition segment_payload (s : Segment)
    : Z * option pystr * pystr * Q * Q * option Q :=
  (sg_transcript_id s, sg_speaker_label s, sg_text s, sg_start_time s,
   sg_end_time s, sg_confidence s).

(** The columns that [_process_file] writes for an aligned segment of the
    transcript [tid]. *)
Definition aligned_payload (tid : Z) (seg : AlignedSegment)
    : Z * option pystr * pystr * Q * Q * option Q :=
  (tid, Some (label_str (seg_speaker seg)), seg_text seg, seg_start seg,
   seg_end seg, seg_confidence seg).

(** Every segment row belongs to a transcript of the store. *)
Definition segments_reference_transcripts (db : DB) : Prop :=
  Forall (fun s => In (sg_transcript_id s) (map trn_id (transcripts db)))
         (segment_rows db).

(* ===================================================================== *)
(** ** Queries of [api/query.py] *)
(* ===================================================================== *)

(** The [speakers] table. No function of the modelled files writes it, so
    the queries that read it take its rows as an argument. *)
Record Speaker := {
  spk_id : Z;
  spk_label : pystr;
  spk_role : option SpeakerLabel;
  spk_voice_sample_path : option pystr
}.

(** The dictionaries returned for a recording, a transcript and a segment.
    [rv_duration] is [None] when the dictionary has no "duration" key. *)
Record RecordingView := {
  rv_id : Z;
  rv_filename : pystr;
  rv_status : Status;
  rv_duration : option (option Q)
}.

Record TranscriptInfo := {
  ti_id : Z;
  ti_full_text : option pystr;
  ti_language : option pystr
}.

Record SegmentView := {
  sv_id : Z;
  sv_speaker : option pystr;
  sv_role : option pystr;
  sv_text : pystr;
  sv_start_time : Q;
  sv_end_time : Q
}.

Record TranscriptView := {
  tv_recording : RecordingView;
  tv_transcript : option TranscriptInfo;
  tv_segments : list SegmentView
}.

(** Truth value of an optional string: [None] and [""] are false. *)
Definition truthy (l : option pystr) : bool :=
  match l with
  | Some (_ :: _) => true
  | _ => false
  end.

(** [{s.speaker_label for s in segments if s.speaker_label}]. *)
Definition speaker_labels_of (segs : list Segment) : list pystr :=
  flat_map (fun s => match sg_speaker_label s with
                     | Some l => if truthy (Some l) then [l] else []
                     | None => []
                     end) segs.

(** [{sp.label: sp.role for sp in speakers}] over the speakers whose label
    is one of [labels]. *)
Definition role_map_of (speakers : list Speaker) (labels : list pystr)
    : dict (option SpeakerLabel) :=
  fold_left (fun m sp => dict_set m (spk_label sp) (spk_role sp))
            (filter (fun sp => existsb (pystr_eqb (spk_label sp)) labels) speakers)
            [].

(** [role_map.get(s.speaker_label)]. *)
Definition lookup_role (m : dict (option SpeakerLabel)) (l : option pystr)
    : option pystr :=
  match l with
  | Some k =>
      match dict_get m k with
      | Some (Some r) => Some (label_str r)
      | _ => None
      end
  | None => None
  end.

Definition segment_view (role : option pystr) (s : Segment) : SegmentView :=
  {| sv_id := sg_id s; sv_speaker := sg_speaker_label s; sv_role := role;
     sv_text := sg_text s; sv_start_time := sg_start_time s;
     sv_end_time := sg_end_time s |}.

(** [.order_by(Segment.start_time)]: the database returns the rows in
    ascending order of start time and leaves the order of rows of equal
    start time open. The queries take the ordering that the database applies
    as an argument; [orders_by_start] is what is known of it. *)
Definition orders_by_start (order_by : list Segment -> list Segment) : Prop :=
  forall rows,
    Permutation (order_by rows) rows
    /\ StronglySorted (key_le sg_start_time) (order_by rows).

(** [get_transcript]: [None] when the recording does not exist. *)
Definition get_transcript (order_by : list Segment -> list Segment)
    (speakers : list Speaker) (recording_id : Z) (db : DB)
    : option TranscriptView :=
  match recording_by_id recording_id db with
  | None => None
  | Some recording =>
      match transcripts_of recording_id db with
      | [] =>
          Some {| tv_recording := {| rv_id := rec_id recording;
                                     rv_filename := rec_filename recording;
                                     rv_status := rec_status recording;
                                     rv_duration := None |};
                  tv_transcript := None;
                  tv_segments := [] |}
      | transcript :: _ =>
          let segs := order_by (segments_of (trn_id transcript) db) in
          let role_map := role_map_of speakers (speaker_labels_of segs) in
          Some {| tv_recording := {| rv_id := rec_id recording;
                                     rv_filename := rec_filename recording;
                                     rv_status := rec_status recording;
                                     rv_duration := Some (rec_duration_seconds recording) |};
                  tv_transcript := Some {| ti_id := trn_id transcript;
                                           ti_full_text := trn_full_text transcript;
                                           ti_language := trn_language transcript |};
                  tv_segments :=
                    map (fun s => segment_view (lookup_role role_map (sg_speaker_label s)) s)
                        segs |}
      end
  end.

(** [Speaker.role == role] for a role given as a string. *)
Definition has_role (role : pystr) (sp : Speaker) : bool :=
  match spk_role sp with
  | Some r => pystr_eqb (label_str r) role
  | None => false
  end.

(** [Segment.speaker_label.in_(matching_labels)]. *)
Definition label_in (labels : list pystr) (s : Segment) : bool :=
  match sg_speaker_label s with
  | Some l => existsb (pystr_eqb l) labels
  | None => false
  end.

(** [get_segments_by_speaker]. *)
Definition get_segments_by_speaker (order_by : list Segment -> list Segment)
    (speakers : list Speaker) (recording_id : Z)
    (role : pystr) (db : DB) : list SegmentView :=
  match transcripts_of recording_id db with
  | [] => []
  | transcript :: _ =>
      let matching_labels := map spk_label (filter (has_role role) speakers) in
      match matching_labels with
      | [] => []
      | _ =>
          map (segment_view (Some role))
            (order_by
               (filter (fun s => (sg_transcript_id s =? trn_id transcript)%Z
                                 && label_in matching_labels s)
                       (segment_rows db)))
      end
  end.

(** [round(x, 2)] on an exact value: the nearest hundredth, ties to even. *)
Definition round_half_even (x : Q) : Z :=
  let f := Qfloor x in
  let d := x - inject_Z f in
  if Qltb d (1 # 2) then f
  else if Qltb (1 # 2) d then (f + 1)%Z
  else if Z.even f then f else (f + 1)%Z.

Definition round2 (x : Q) : Q := inject_Z (round_half_even (x * 100)) / 100.

Record Stats := {
  total_recordings : Z;
  stats_done : Z;
  stats_pending : Z;
  stats_errors : Z;
  avg_duration_seconds : option Q
}.

Definition count_status (st : Status) (db : DB) : Z :=
  Z.of_nat (length (filter (fun r => status_eqb (rec_status r) st) (recordings db))).

(** The durations that are not NULL. *)
Definition known_durations (db : DB) : list Q :=
  flat_map (fun r => match rec_duration_seconds r with
                     | Some d => [d]
                     | None => []
                     end) (recordings db).

(** [func.avg]: NULL over no rows. *)
Definition sql_avg (l : list Q) : option Q :=
  match l with
  | [] => None
  | _ => Some (Qsum l / Qnat (length l))
  end.

(** [get_stats] of [api/query.py]. *)
Definition get_stats (db : DB) : Stats :=
  {| total_recordings := Z.of_nat (length (recordings db));
     stats_done := count_status done db;
     stats_pending := count_status pending db;
     stats_errors := count_status error db;
     avg_duration_seconds :=
       match sql_avg (known_durations db) with
       | Some a => if Qeq_bool a 0 then None else Some (round2 a)
       | None => None
       end |}.

(* ===================================================================== *)
(** ** Further handlers of [api/server.py] *)
(* ===================================================================== *)

(** [delete_recording]: [session.delete(recording)] cascades to the
    transcripts of the recording and to their segments. *)
Definition delete_recording (recording_id : Z) : M unit :=
  (try_finally
     (db <- get_working ;;
      match recording_by_id recording_id db with
      | None => raise {| exn_class := u "HTTPException";
                         exn_msg := u "Recording not found" |}
      | Some recording =>
          for_each (transcripts_of (rec_id recording) db) delete_transcript ;;;
          modify_working (fun db =>
            {| recordings := filter (fun r => negb (rec_id r =? rec_id recording)%Z)
                                    (recordings db);
               transcripts := transcripts db;
               segment_rows := segment_rows db |}) ;;;
          session_commit
      end)
     session_close)%session.

(** [offset(n).limit(k)] on the rows of a query. *)
Definition offset_limit {A} (offset limit : Z) (rows : list A) : list A :=
  firstn (Z.to_nat limit) (skipn (Z.to_nat offset) rows).

(** [max(1, (total + per_page - 1) // per_page)]. *)
Definition total_pages (total per_page : Z) : Z :=
  Z.max 1 ((total + per_page - 1) / per_page).

(** The rows of one page of a listing. *)
Definition page_rows {A} (page per_page : Z) (rows : list A) : list A :=
  offset_limit ((page - 1) * per_page) per_page rows.

(* ===================================================================== *)
(** ** What the services do with the output of their engines *)
(* ===================================================================== *)

(** One track of the annotation returned by the diarization engine. *)
Record Track := {
  turn_start : Q;
  turn_end : Q;
  track_speaker : pystr
}.

(** [PyannoteDiarizer.diarize] after the engine has returned: one segment
    per track, sorted by start, and the number of distinct speakers. *)
Definition diarization_of_tracks (tracks : list Track) : DiarizationResult :=
  let segs :=
    sorted_by dia_start
      (map (fun t => {| dia_speaker := track_speaker t;
                        dia_start := turn_start t;
                        dia_end := turn_end t |}) tracks) in
  {| dia_segments := segs;
     dia_num_speakers := Z.of_nat (distinct_tags segs) |}.

(** A segment and a word as the recognition engine yields them. *)
Record RawWord := {
  rw_word : pystr;
  rw_start : Q;
  rw_end : Q;
  rw_probability : Q
}.

Record RawSegment := {
  rs_text : pystr;
  rs_start : Q;
  rs_end : Q;
  rs_words : option (list RawWord);
  rs_avg_logprob : Q;
  rs_no_speech_prob : Q
}.

(** [WhisperService.transcribe] after the engine has returned. *)
Definition transcription_of_segments (raw : list RawSegment)
    (lang : pystr) (lang_probability dur : Q) : TranscriptionResult :=
  {| tr_segments :=
       map (fun seg =>
              {| tr_text := strip (rs_text seg);
                 tr_start := rs_start seg;
                 tr_end := rs_end seg;
                 tr_words :=
                   map (fun w => {| w_word := strip (rw_word w);
                                    w_start := rw_start w;
                                    w_end := rw_end w;
                                    w_probability := rw_probability w |})
                       (match rs_words seg with Some ws => ws | None => [] end);
                 tr_avg_logprob := rs_avg_logprob seg;
                 tr_no_speech_prob := rs_no_speech_prob seg |}) raw;
     tr_language := lang;
     tr_language_probability := lang_probability;
     tr_duration := dur |}.


(** The store after a second, single-channel call has been processed. *)
Definition two_calls_store : DB :=
  snd (run (_process_file mono_call_unordered no_faults (u "/watch/mono.wav"))
           done_store 200).

(** Every transcript belongs to a recording of the store. *)
Definition transcripts_reference_recordings (db : DB) : Prop :=
  Forall (fun t => In (trn_recording_id t) (map rec_id (recordings db)))
         (transcripts db).

(** What a segment dictionary of [get_transcript] says about the speech. *)
Definition view_payload (v : SegmentView) : option pystr * pystr * Q * Q :=
  (sv_speaker v, sv_text v, sv_start_time v, sv_end_time v).

(** The same for an aligned segment of the pipeline. *)
Definition aligned_view_payload (seg : AlignedSegment) : option pystr * pystr * Q * Q :=
  (Some (label_str (seg_speaker seg)), seg_text seg, seg_start seg, seg_end seg).

(** The record of a run that succeeded at time [now]. *)
Definition finished (result : PipelineResult) (now : Z) (r : Recording) : Recording :=
  {| rec_id := rec_id r; rec_filename := rec_filename r; rec_filepath := rec_filepath r;
     rec_duration_seconds := Some (duration result); rec_created_at := rec_created_at r;
     rec_processed_at := Some now; rec_status := done;
     rec_error_message := None |}.

(* ===================================================================== *)
(** ** Batch processing of [watcher/folder_watcher.py] *)
(* ===================================================================== *)

(** [process_all_unprocessed]. [wav_files] is [sorted(watch_dir.glob("*.wav"))];
    [scan_error] is a failure of the query for the done recordings, and the
    storage failures of a run may depend on the file. Nothing guards the
    query or the runs. *)
Definition process_all_unprocessed (env : Env) (scan_error : option exn)
    (faults : pystr -> Faults) (wav_files : list pystr) : M unit :=
  (may_fail scan_error ;;;
   db <- get_working ;;
   let processed_files :=
     map rec_filename
         (filter (fun r => status_eqb (rec_status r) done) (recordings db)) in
   let unprocessed :=
     filter (fun f => negb (existsb (pystr_eqb (path_name f)) processed_files))
            wav_files in
   for_each unprocessed (fun f => _process_file env (faults f) f))%session.

(** The file is left out by [process_all_unprocessed]: a done recording has
    its name. *)
Definition name_is_done (db : DB) (f : pystr) : bool :=
  existsb (fun r => status_eqb (rec_status r) done
                    && pystr_eqb (path_name f) (rec_filename r))
          (recordings db).

(** The recording is done or in error. *)
Definition terminal (r : Recording) : Prop :=
  rec_status r = done \/ rec_status r = error.
(* ===================================================================== *)
(** * Properties *)
(* ===================================================================== *)

(** ** Strings and comparisons *)

Lemma pystr_eqb_eq a b : pystr_eqb a b = true <-> a = b.
Proof.
  unfold pystr_eqb. destruct (list_eq_dec N.eq_dec a b); split; congruence.
Qed.

Lemma pystr_eqb_refl a : pystr_eqb a a = true.
Proof. apply pystr_eqb_eq. reflexivity. Qed.

Lemma pystr_eqb_neq a b : pystr_eqb a b = false <-> a <> b.
Proof.
  unfold pystr_eqb. destruct (list_eq_dec N.eq_dec a b); split; congruence.
Qed.

Lemma Qltb_lt a b : Qltb a b = true <-> a < b.
Proof.
  unfold Qltb. rewrite negb_true_iff. split; intro H.
  - apply Qnot_le_lt. intro L. apply Qle_bool_iff in L. congruence.
  - destruct (Qle_bool b a) eqn:E; [|reflexivity].
    apply Qle_bool_iff in E. exfalso. apply (Qlt_not_le _ _ H E).
Qed.

Lemma Qltb_ge a b : Qltb a b = false <-> b <= a.
Proof.
  unfold Qltb. rewrite negb_false_iff. apply Qle_bool_iff.
Qed.

(** ** Interval overlap *)

Ltac q_cases :=
  repeat match goal with
  | |- context [Qltb ?a ?b] =>
      let E := fresh "E" in
      destruct (Qltb a b) eqn:E;
      [apply Qltb_lt in E | apply Qltb_ge in E]
  | H : context [Qltb ?a ?b] |- _ =>
      let E := fresh "E" in
      destruct (Qltb a b) eqn:E;
      [apply Qltb_lt in E | apply Qltb_ge in E]
  end.

Lemma py_max_zero_nonneg x : 0 <= py_max 0 x.
Proof. unfold py_max. q_cases; lra. Qed.

Lemma overlap_nonneg a_start a_end b_start b_end :
  0 <= _overlap a_start a_end b_start b_end.
Proof. apply py_max_zero_nonneg. Qed.

Lemma overlap_sym a_start a_end b_start b_end :
  _overlap a_start a_end b_start b_end == _overlap b_start b_end a_start a_end.
Proof. unfold _overlap, py_max, py_min. q_cases; lra. Qed.

Lemma overlap_disjoint a_start a_end b_start b_end :
  a_end <= b_start \/ b_end <= a_start ->
  _overlap a_start a_end b_start b_end = 0.
Proof.
  intros H. unfold _overlap, py_max, py_min.
  q_cases; try reflexivity; exfalso; destruct H; lra.
Qed.

(** C9. The overlap of two intervals does not depend on their order, is
    never negative, and is exactly zero as soon as one interval ends no later
    than the other starts. *)
Theorem overlap_symmetric_nonnegative :
  forall a_start a_end b_start b_end : Q,
    _overlap a_start a_end b_start b_end == _overlap b_start b_end a_start a_end
    /\ 0 <= _overlap a_start a_end b_start b_end
    /\ 0 <= _overlap b_start b_end a_start a_end
    /\ (a_end <= b_start \/ b_end <= a_start ->
        _overlap a_start a_end b_start b_end = 0
        /\ _overlap b_start b_end a_start a_end = 0).
Proof.
  intros. repeat split.
  - apply overlap_sym.
  - apply overlap_nonneg.
  - apply overlap_nonneg.
  - now apply overlap_disjoint.
  - apply overlap_disjoint. tauto.
Qed.

(** The intervals [0,5] and [5,10] of scenario B touch without overlapping. *)
Lemma overlap_symmetric_nonnegative_witness :
  (5 <= 5 \/ 10 <= 0) /\ _overlap 0 5 5 10 = 0 /\ _overlap 5 10 0 5 = 0.
Proof.
  assert (H : 5 <= 5 \/ 10 <= 0) by (left; apply Qle_refl).
  split; [exact H|].
  exact (proj2 (proj2 (proj2 (overlap_symmetric_nonnegative 0 5 5 10))) H).
Defined.

(** ** Alignment *)

Lemma dict_set_not_nil {V} (d : dict V) k v : dict_set d k v <> [].
Proof. destruct d as [|[k' v'] r]; simpl; [|destruct (pystr_eqb k' k)]; discriminate. Qed.

Lemma add_overlap_keeps_nonempty tseg dsegs :
  forall acc, acc <> [] -> fold_left (add_overlap tseg) dsegs acc <> [].
Proof.
  induction dsegs as [|d r IH]; intros acc H; simpl; [exact H|].
  apply IH. unfold add_overlap.
  destruct (Qltb 0 _); [apply dict_set_not_nil | exact H].
Qed.


(** No speaker is recorded exactly when no diarization segment overlaps. *)
Lemma speaker_overlap_nil_iff tseg dsegs :
  speaker_overlap tseg dsegs = [] <->
  (forall dseg, In dseg dsegs -> overlaps tseg dseg == 0).
Proof.
  unfold speaker_overlap. induction dsegs as [|d r IH]; simpl.
  - split; [intros _ ? []| reflexivity].
  - unfold add_overlap at 2. fold (overlaps tseg d).
    destruct (Qltb 0 (overlaps tseg d)) eqn:E.
    + apply Qltb_lt in E. split.
      * intros H. exfalso. revert H. apply add_overlap_keeps_nonempty, dict_set_not_nil.
      * intros H. specialize (H d (or_introl eq_refl)). lra.
    + apply Qltb_ge in E. rewrite IH. split.
      * intros H x [<-|Hx]; [|now apply H].
        pose proof (overlap_nonneg (tr_start tseg) (tr_end tseg) (dia_start d) (dia_end d)).
        unfold overlaps in *. lra.
      * intros H x Hx. apply H. now right.
Qed.

Lemma align_length t d m :
  length (_align_segments t d m) = length (tr_segments t).
Proof. unfold _align_segments. apply length_map. Qed.

Lemma align_nth t d m i tseg :
  nth_error (tr_segments t) i = Some tseg ->
  nth_error (_align_segments t d m) i = Some (align_one (dia_segments d) m tseg).
Proof. intros H. unfold _align_segments. now apply map_nth_error. Qed.

(** C6. A transcription segment that overlaps no diarization segment (in
    particular when there is none) is emitted once, at its own position, with
    the role agent and its own text and times. *)
Theorem align_no_overlap_defaults_to_agent :
  forall (transcription : TranscriptionResult) (diarization : DiarizationResult)
         (speaker_map : dict SpeakerLabel) (i : nat) (tseg : TranscriptionSegment),
    nth_error (tr_segments transcription) i = Some tseg ->
    (forall dseg, In dseg (dia_segments diarization) -> overlaps tseg dseg == 0) ->
    length (_align_segments transcription diarization speaker_map)
      = length (tr_segments transcription)
    /\ nth_error (_align_segments transcription diarization speaker_map) i
       = Some {| seg_speaker := agent;
                 seg_text := tr_text tseg;
                 seg_start := tr_start tseg;
                 seg_end := tr_end tseg;
                 seg_confidence := _avg_word_confidence tseg |}.
Proof.
  intros t d m i tseg Hi Hov. split; [apply align_length|].
  rewrite (align_nth _ _ _ _ _ Hi). unfold align_one.
  apply speaker_overlap_nil_iff in Hov. rewrite Hov. reflexivity.
Qed.


(** Scenario B: a segment over [10,12] against diarization over [0,5] and
    [5,10]. *)
Lemma align_no_overlap_defaults_to_agent_witness :
  nth_error
    (_align_segments
       (mk_transcription [mk_tseg "halo" 1 4; mk_tseg "tak" 10 12])
       (mk_diarization [mk_dseg "X" 0 5; mk_dseg "Y" 5 10])
       [(u "X", customer); (u "Y", agent)]) 1
  = Some {| seg_speaker := agent; seg_text := u "tak"; seg_start := 10;
            seg_end := 12; seg_confidence := None |}.
Proof.
  refine (proj2 (align_no_overlap_defaults_to_agent
            (mk_transcription [mk_tseg "halo" 1 4; mk_tseg "tak" 10 12])
            (mk_diarization [mk_dseg "X" 0 5; mk_dseg "Y" 5 10])
            [(u "X", customer); (u "Y", agent)] 1 (mk_tseg "tak" 10 12) _ _)).
  - reflexivity.
  - intros dseg [<-|[<-|[]]]; vm_compute; reflexivity.
Defined.

Lemma max_key_from_spec (d : dict Q) :
  forall best bestv k,
    max_key_from best bestv d = k ->
    exists v, ((k, v) = (best, bestv) \/ In (k, v) d)
              /\ bestv <= v
              /\ forall k' v', In (k', v') d -> v' <= v.
Proof.
  induction d as [|[k0 v0] r IH]; simpl; intros best bestv k H.
  - subst. exists bestv. split; [now left|]. split; [apply Qle_refl|]. intros ? ? [].
  - destruct (Qltb bestv v0) eqn:E; [apply Qltb_lt in E | apply Qltb_ge in E];
      destruct (IH _ _ _ H) as (v & Hin & Hle & Hall); exists v.
    + split; [destruct Hin as [Hin|Hin]; [right; left; congruence | right; now right]|].
      split; [lra|].
      intros k' v' [Heq|Hin']; [inversion Heq; subst; exact Hle | eauto].
    + split; [destruct Hin as [Hin|Hin]; [now left | right; now right]|].
      split; [exact Hle|].
      intros k' v' [Heq|Hin']; [inversion Heq; subst; lra | eauto].
Qed.

(** [max_key] selects an entry of maximal value. *)
Lemma max_key_maximal (d : dict Q) k :
  max_key d = Some k ->
  exists v, In (k, v) d /\ forall k' v', In (k', v') d -> v' <= v.
Proof.
  destruct d as [|[k0 v0] r]; simpl; [discriminate|].
  intros H. inversion H as [H']. clear H.
  destruct (max_key_from_spec r k0 v0 _ eq_refl) as (v & Hin & Hle & Hall).
  rewrite H' in *.
  exists v. split.
  - destruct Hin as [Hin|Hin]; [left; congruence | now right].
  - intros k' v' [Heq|Hin']; [inversion Heq; subst; exact Hle | eauto].
Qed.

Lemma max_key_some_iff (d : dict Q) : (exists k, max_key d = Some k) <-> d <> [].
Proof.
  destruct d as [|[k v] r]; simpl; split.
  - intros [k H]. discriminate.
  - intros H. now elim H.
  - discriminate.
  - intros _. eexists. reflexivity.
Qed.

(** C10. When the speaker tag with the largest accumulated overlap is not a
    key of the role map, the aligned segment gets the role customer; this is
    the case where some diarization segment does overlap, so it is separate
    from the no-overlap fallback to agent. *)
Theorem align_unmapped_speaker_defaults_to_customer :
  forall (transcription : TranscriptionResult) (diarization : DiarizationResult)
         (speaker_map : dict SpeakerLabel) (i : nat) (tseg : TranscriptionSegment)
         (raw_speaker : pystr),
    nth_error (tr_segments transcription) i = Some tseg ->
    max_key (speaker_overlap tseg (dia_segments diarization)) = Some raw_speaker ->
    dict_get speaker_map raw_speaker = None ->
    nth_error (_align_segments transcription diarization speaker_map) i
      = Some {| seg_speaker := customer;
                seg_text := tr_text tseg;
                seg_start := tr_start tseg;
                seg_end := tr_end tseg;
                seg_confidence := _avg_word_confidence tseg |}
    /\ ~ (forall dseg, In dseg (dia_segments diarization) -> overlaps tseg dseg == 0).
Proof.
  intros t d m i tseg raw Hi Hmax Hget. split.
  - rewrite (align_nth _ _ _ _ _ Hi). unfold align_one.
    rewrite Hmax. unfold dict_get_default. rewrite Hget. reflexivity.
  - intros Hno. apply speaker_overlap_nil_iff in Hno.
    rewrite Hno in Hmax. discriminate.
Qed.

(** Three speakers: the classifier maps the two who speak most, and the
    segment of the third one is labelled customer. *)
Lemma align_unmapped_speaker_defaults_to_customer_witness :
  let d := mk_diarization [mk_dseg "A" 0 10; mk_dseg "B" 10 20; mk_dseg "C" 20 25] in
  let t := mk_transcription [mk_tseg "dzień dobry" 1 9; mk_tseg "halo" 21 24] in
  dict_keys (_label_speakers_smart d t) = [u "A"; u "B"]
  /\ nth_error (_align_segments t d (_label_speakers_smart d t)) 1
     = Some {| seg_speaker := customer; seg_text := u "halo"; seg_start := 21;
               seg_end := 24; seg_confidence := None |}.
Proof.
  intros d t. split; [vm_compute; reflexivity|].
  refine (proj1 (align_unmapped_speaker_defaults_to_customer
                   t d (_label_speakers_smart d t) 1 (mk_tseg "halo" 21 24) (u "C") _ _ _));
    vm_compute; reflexivity.
Defined.

(** ** Agent phrase signal *)

Lemma search_from_occurrences r :
  forall s prev, search_from r prev s = (1 <=? occurrences_from r prev s)%nat.
Proof.
  induction s as [|x s IH]; intros prev; simpl.
  - destruct (match_here r prev []); reflexivity.
  - rewrite IH. destruct (match_here r prev (x :: s)); simpl; [reflexivity|].
    reflexivity.
Qed.

Lemma re_search_occurrences p s :
  re_search p s = (1 <=? occurrences p s)%nat.
Proof. apply search_from_occurrences. Qed.

Lemma agent_phrase_count_patterns_present texts :
  agent_phrase_count texts = agent_patterns_present texts.
Proof.
  unfold agent_phrase_count, _count_phrase_matches, agent_patterns_present.
  f_equal. apply filter_ext. intros p. apply re_search_occurrences.
Qed.

Lemma speaker_score_decomposition st texts sp :
  speaker_score st texts sp == signal_agent_phrases texts + other_signals st texts sp.
Proof.
  unfold speaker_score, other_signals.
  destruct (Qltb (11 # 20) (time_pct st sp));
    destruct (3 <=? distinct_agent texts)%nat;
    destruct (speaks_first st sp);
    destruct texts as [|t0 texts']; try destruct (Qltb 8 (avg_words (t0 :: texts')));
    ring.
Qed.

Lemma speaker_scores_get dsegs tsegs sp :
  In sp (top_speakers dsegs) ->
  dict_get (speaker_scores dsegs tsegs) sp
  = Some (speaker_score (gather_stats dsegs) (texts_of dsegs tsegs sp) sp).
Proof.
  unfold speaker_scores. induction (top_speakers dsegs) as [|k r IH]; simpl; [tauto|].
  intros [->|H].
  - now rewrite pystr_eqb_refl.
  - destruct (pystr_eqb k sp) eqn:E; [apply pystr_eqb_eq in E; now subst | auto].
Qed.

Lemma filter_length_le {A} (f : A -> bool) l : (length (filter f l) <= length l)%nat.
Proof. induction l as [|x l IH]; simpl; [lia|]. destruct (f x); simpl; lia. Qed.

(** C1, as the code has it. The score of a candidate speaker gains 3.0 for
    each agent phrase pattern that occurs at least once in the speaker's
    concatenated text, whatever the number of its occurrences; the gain is
    therefore at most 3.0 times the 50 patterns of the table. *)
Theorem agent_phrase_gain_per_matching_pattern :
  forall (dsegs : list DiarizationSegment) (tsegs : list TranscriptionSegment)
         (sp : pystr),
    In sp (top_speakers dsegs) ->
    let texts := texts_of dsegs tsegs sp in
    exists score,
      dict_get (speaker_scores dsegs tsegs) sp = Some score
      /\ score == 3 * Qnat (agent_patterns_present texts)
                  + other_signals (gather_stats dsegs) texts sp
      /\ (agent_patterns_present texts <= 50)%nat.
Proof.
  intros dsegs tsegs sp Hin texts.
  exists (speaker_score (gather_stats dsegs) texts sp). split; [|split].
  - now apply speaker_scores_get.
  - rewrite speaker_score_decomposition. unfold signal_agent_phrases.
    rewrite agent_phrase_count_patterns_present. ring.
  - unfold agent_patterns_present.
    etransitivity; [apply filter_length_le|]. vm_compute. lia.
Qed.

(** Two candidates; the first says one agent phrase twice in one segment. *)
Lemma agent_phrase_gain_per_matching_pattern_witness :
  let dsegs := [mk_dseg "A" 0 10; mk_dseg "B" 10 20] in
  let tsegs := [mk_tseg "rabat rabat" 1 2] in
  exists score,
    dict_get (speaker_scores dsegs tsegs) (u "A") = Some score
    /\ score == 3 * Qnat (agent_patterns_present (texts_of dsegs tsegs (u "A")))
                + other_signals (gather_stats dsegs) (texts_of dsegs tsegs (u "A")) (u "A")
    /\ (agent_patterns_present (texts_of dsegs tsegs (u "A")) <= 50)%nat.
Proof.
  intros dsegs tsegs.
  apply (agent_phrase_gain_per_matching_pattern dsegs tsegs (u "A")).
  vm_compute. left. reflexivity.
Defined.

(** C1, as stated, fails. With two candidates, the text "rabat rabat" holds
    two occurrences of the phrase "rabat": the phrase signal is 3.0 and not
    3.0 * 2, and the score is the same as for the text "rabat". *)
Lemma agent_phrase_gain_per_occurrence_fails :
  let dsegs := [mk_dseg "A" 0 10; mk_dseg "B" 10 20] in
  let twice := [mk_tseg "rabat rabat" 1 2] in
  let once := [mk_tseg "rabat" 1 2] in
  top_speakers dsegs = [u "A"; u "B"]
  /\ texts_of dsegs twice (u "A") = [u "rabat rabat"]
  /\ occurrences (u "rabat") (lower (all_text (texts_of dsegs twice (u "A")))) = 2%nat
  /\ agent_phrase_occurrences (texts_of dsegs twice (u "A")) = 2%nat
  /\ signal_agent_phrases (texts_of dsegs twice (u "A")) == 3
  /\ ~ signal_agent_phrases (texts_of dsegs twice (u "A"))
       == 3 * Qnat (agent_phrase_occurrences (texts_of dsegs twice (u "A")))
  /\ dict_get (speaker_scores dsegs twice) (u "A") = Some (8 # 4)
  /\ dict_get (speaker_scores dsegs once) (u "A") = Some (8 # 4).
Proof.
  repeat split; try (vm_compute; reflexivity).
  vm_compute. discriminate.
Qed.

(** ** Order of the input segments *)

Lemma dict_get_set {V} (d : dict V) k v k' :
  dict_get (dict_set d k v) k' = if pystr_eqb k k' then Some v else dict_get d k'.
Proof.
  induction d as [|[k0 v0] r IH]; simpl.
  - reflexivity.
  - destruct (pystr_eqb k0 k) eqn:E; simpl.
    + apply pystr_eqb_eq in E. subst k0. destruct (pystr_eqb k k'); reflexivity.
    + destruct (pystr_eqb k0 k') eqn:E'.
      * apply pystr_eqb_eq in E'. subst k0.
        destruct (pystr_eqb k k') eqn:E2; [|reflexivity].
        apply pystr_eqb_eq in E2. subst k. rewrite pystr_eqb_refl in E. discriminate.
      * exact IH.
Qed.

(** The texts gathered for a key by the attribution loop. *)
Lemma attribute_text_fold dsegs sp :
  forall tsegs acc,
    dict_get (fold_left (attribute_text dsegs) tsegs acc) sp
    = match dict_get acc sp with
      | Some l => Some (l ++ map stripped_text (filter (best_is dsegs sp) tsegs))
      | None => None
      end.
Proof.
  induction tsegs as [|tseg tsegs IH]; intros acc; simpl.
  - destruct (dict_get acc sp); [now rewrite app_nil_r | reflexivity].
  - rewrite IH. unfold attribute_text, best_is.
    destruct (max_key (speaker_overlap tseg dsegs)) as [best|]; [|reflexivity].
    destruct (dict_get acc best) as [l|] eqn:Hb.
    + rewrite dict_get_set. destruct (pystr_eqb best sp) eqn:E.
      * apply pystr_eqb_eq in E. subst best. rewrite Hb. simpl.
        now rewrite <- app_assoc.
      * reflexivity.
    + destruct (pystr_eqb best sp) eqn:E; [|reflexivity].
      apply pystr_eqb_eq in E. subst best. now rewrite Hb.
Qed.

Lemma dict_get_init (keys : list pystr) sp :
  dict_get (map (fun k => (k, @nil pystr)) keys) sp
  = if existsb (fun k => pystr_eqb k sp) keys then Some [] else None.
Proof.
  induction keys as [|k r IH]; simpl; [reflexivity|].
  destruct (pystr_eqb k sp); [reflexivity | exact IH].
Qed.

(** The texts of a candidate are the stripped texts of the segments
    attributed to it, in the order of the transcription. *)
Lemma texts_of_filter dsegs tsegs sp :
  texts_of dsegs tsegs sp
  = if existsb (fun k => pystr_eqb k sp) (top_speakers dsegs)
    then map stripped_text (filter (best_is dsegs sp) tsegs)
    else [].
Proof.
  unfold texts_of, dict_get_default, speaker_texts.
  rewrite attribute_text_fold, dict_get_init.
  destruct (existsb _ _); reflexivity.
Qed.

Lemma Permutation_filter' {A} (f : A -> bool) l l' :
  Permutation l l' -> Permutation (filter f l) (filter f l').
Proof.
  induction 1; simpl.
  - constructor.
  - destruct (f x); [now constructor | assumption].
  - destruct (f x), (f y); try apply Permutation_refl. apply perm_swap.
  - eapply Permutation_trans; eassumption.
Qed.

Lemma texts_of_Permutation dsegs tsegs tsegs' sp :
  Permutation tsegs tsegs' ->
  Permutation (texts_of dsegs tsegs sp) (texts_of dsegs tsegs' sp).
Proof.
  intros H. rewrite !texts_of_filter.
  destruct (existsb _ _); [|constructor].
  now apply Permutation_map, Permutation_filter'.
Qed.

Lemma fold_add_sum l : forall a, fold_left Nat.add l a = (a + list_sum l)%nat.
Proof.
  induction l as [|x l IH]; intros a; simpl; [lia|]. rewrite IH. lia.
Qed.

Lemma list_sum_Permutation l l' : Permutation l l' -> list_sum l = list_sum l'.
Proof. induction 1; simpl; lia. Qed.

Lemma filter_length_Permutation {A} (f : A -> bool) l l' :
  Permutation l l' -> length (filter f l) = length (filter f l').
Proof. intros H. now apply Permutation_length, Permutation_filter'. Qed.

Lemma avg_words_Permutation texts texts' :
  Permutation texts texts' -> avg_words texts = avg_words texts'.
Proof.
  intros H. unfold avg_words.
  destruct texts as [|t r], texts' as [|t' r'].
  - reflexivity.
  - apply Permutation_nil in H. discriminate.
  - apply Permutation_sym, Permutation_nil in H. discriminate.
  - rewrite !fold_add_sum.
    rewrite (list_sum_Permutation _ _ (Permutation_map word_count H)).
    now rewrite (Permutation_length H).
Qed.

(** The score of a speaker depends on the texts only through their multiset
    and through the agent phrase searches on their concatenation. *)
Lemma speaker_score_Permutation st texts texts' sp :
  Permutation texts texts' ->
  (forall p, In p _AGENT_PHRASES ->
     re_search p (lower (all_text texts)) = re_search p (lower (all_text texts'))) ->
  speaker_score st texts sp = speaker_score st texts' sp
  /\ speaker_info texts = speaker_info texts'.
Proof.
  intros HP Hhits.
  assert (Hc : agent_phrase_count texts = agent_phrase_count texts').
  { unfold agent_phrase_count, _count_phrase_matches. f_equal.
    now apply filter_ext_in. }
  assert (Hd : distinct_agent texts = distinct_agent texts').
  { unfold distinct_agent, _count_distinct_phrase_matches. f_equal.
    now apply filter_ext_in. }
  assert (Hr : short_responses texts = short_responses texts')
    by (now apply filter_length_Permutation).
  assert (Hs : short_segment_count texts = short_segment_count texts')
    by (now apply filter_length_Permutation).
  pose proof (avg_words_Permutation _ _ HP) as Ha.
  pose proof (Permutation_length HP) as Hl.
  split.
  - unfold speaker_score, signal_agent_phrases. rewrite Hc, Hd, Hr, Hs, Ha.
    destruct texts as [|t r], texts' as [|t' r']; try reflexivity;
      exfalso; simpl in Hl; discriminate.
  - unfold speaker_info. now rewrite Hc, Hd, Hr, Hs, Hl.
Qed.

Lemma phrase_hits_agree_spec dsegs tsegs tsegs' :
  phrase_hits_agree dsegs tsegs tsegs' = true ->
  forall sp, In sp (top_speakers dsegs) ->
  forall p, In p _AGENT_PHRASES ->
    re_search p (lower (all_text (texts_of dsegs tsegs sp)))
    = re_search p (lower (all_text (texts_of dsegs tsegs' sp))).
Proof.
  unfold phrase_hits_agree. intros H sp Hsp p Hp.
  rewrite forallb_forall in H. specialize (H sp Hsp).
  rewrite forallb_forall in H. specialize (H p Hp).
  now apply eqb_prop in H.
Qed.

(** C4, as the code has it. Permuting the transcription segments leaves the
    scores of the candidates and the role assignment unchanged as long as
    every agent phrase pattern gives the same search result on each
    candidate's concatenated text before and after. *)
Theorem classifier_transcription_order :
  forall (diarization : DiarizationResult)
         (transcription transcription' : TranscriptionResult),
    Permutation (tr_segments transcription) (tr_segments transcription') ->
    phrase_hits_agree (dia_segments diarization)
      (tr_segments transcription) (tr_segments transcription') = true ->
    speaker_scores (dia_segments diarization) (tr_segments transcription)
    = speaker_scores (dia_segments diarization) (tr_segments transcription')
    /\ _label_speakers_smart diarization transcription
       = _label_speakers_smart diarization transcription'.
Proof.
  intros [dsegs n] [tsegs l lp du] [tsegs' l' lp' du']. simpl.
  intros HP Hhits.
  pose proof (phrase_hits_agree_spec _ _ _ Hhits) as Hspec.
  assert (Hsc : forall sp, In sp (top_speakers dsegs) ->
            speaker_score (gather_stats dsegs) (texts_of dsegs tsegs sp) sp
            = speaker_score (gather_stats dsegs) (texts_of dsegs tsegs' sp) sp
            /\ speaker_info (texts_of dsegs tsegs sp)
               = speaker_info (texts_of dsegs tsegs' sp)).
  { intros sp Hsp. apply speaker_score_Permutation.
    - now apply texts_of_Permutation.
    - now apply Hspec. }
  assert (Hscores : speaker_scores dsegs tsegs = speaker_scores dsegs tsegs').
  { unfold speaker_scores. apply map_ext_in. intros sp Hsp.
    f_equal. now apply Hsc. }
  split; [exact Hscores|].
  unfold _label_speakers_smart.
  cbn [dia_segments tr_segments]. rewrite Hscores.
  destruct dsegs as [|d0 dr]; [reflexivity|].
  destruct (top_speakers (d0 :: dr)) as [|a [|b [|c r]]]; try reflexivity.
  cbv zeta. rewrite (proj2 (Hsc a (or_introl eq_refl))). reflexivity.
Qed.

(** Two segments of the same speaker exchanged. *)
Lemma classifier_transcription_order_witness :
  let d := mk_diarization [mk_dseg "A" 0 10; mk_dseg "B" 10 20] in
  let t := mk_transcription [mk_tseg "dzień dobry" 1 2; mk_tseg "tak" 3 4] in
  let t' := mk_transcription [mk_tseg "tak" 3 4; mk_tseg "dzień dobry" 1 2] in
  speaker_scores (dia_segments d) (tr_segments t)
  = speaker_scores (dia_segments d) (tr_segments t')
  /\ _label_speakers_smart d t = _label_speakers_smart d t'.
Proof.
  intros d t t'.
  apply (classifier_transcription_order d t t').
  - apply perm_swap.
  - vm_compute. reflexivity.
Defined.

(** C4, as stated, fails for each of the two lists. Exchanging two
    diarization segments of one speaker changes which speaker appears first;
    exchanging two transcription segments changes the concatenated text in
    which the phrase "dzień dobry" is searched. Both change the scores and
    exchange the roles. *)
Lemma classifier_order_dependent :
  let d := [mk_dseg "A" 0 1; mk_dseg "A" 5 6; mk_dseg "B" 2 4] in
  let d' := [mk_dseg "A" 5 6; mk_dseg "A" 0 1; mk_dseg "B" 2 4] in
  let e := [mk_dseg "A" 0 10; mk_dseg "B" 10 20] in
  let t := [mk_tseg "dzień" 1 2; mk_tseg "dobry" 3 4] in
  let t' := [mk_tseg "dobry" 3 4; mk_tseg "dzień" 1 2] in
  (Permutation d d'
   /\ speaker_scores d [] = [(u "A", 2 # 4); (u "B", 0 # 2)]
   /\ speaker_scores d' [] = [(u "A", 0 # 2); (u "B", 2 # 4)]
   /\ _label_speakers_smart (mk_diarization d) (mk_transcription [])
      = [(u "A", agent); (u "B", customer)]
   /\ _label_speakers_smart (mk_diarization d') (mk_transcription [])
      = [(u "B", agent); (u "A", customer)])
  /\ (Permutation t t'
      /\ speaker_scores e t = [(u "A", 2 # 4); (u "B", 0 # 2)]
      /\ speaker_scores e t' = [(u "A", -10 # 4); (u "B", 0 # 2)]
      /\ _label_speakers_smart (mk_diarization e) (mk_transcription t)
         = [(u "A", agent); (u "B", customer)]
      /\ _label_speakers_smart (mk_diarization e) (mk_transcription t')
         = [(u "B", agent); (u "A", customer)]).
Proof.
  repeat split; try apply perm_swap; vm_compute; reflexivity.
Qed.

(** ** Sorting by start time *)

Section SortByFacts.

Context {A : Type}.
Variable key : A -> Q.

Lemma insert_by_Permutation x l : Permutation (insert_by key x l) (x :: l).
Proof.
  induction l as [|y r IH]; simpl; [apply Permutation_refl|].
  destruct (Qltb (key y) (key x)); [|apply Permutation_refl].
  eapply Permutation_trans; [apply perm_skip, IH | apply perm_swap].
Qed.

Lemma sorted_by_Permutation l : Permutation (sorted_by key l) l.
Proof.
  induction l as [|x l IH]; simpl; [constructor|].
  eapply Permutation_trans; [apply insert_by_Permutation | now apply perm_skip].
Qed.

Lemma insert_by_sorted x l :
  StronglySorted (key_le key) l -> StronglySorted (key_le key) (insert_by key x l).
Proof.
  induction 1 as [|y r Hs IH Hall]; simpl.
  - repeat constructor.
  - destruct (Qltb (key y) (key x)) eqn:E; [apply Qltb_lt in E | apply Qltb_ge in E].
    + constructor; [exact IH|].
      eapply Permutation_Forall; [apply Permutation_sym, insert_by_Permutation|].
      constructor; [unfold key_le; lra | exact Hall].
    + constructor; [now constructor|].
      constructor; [exact E|].
      eapply Forall_impl; [|exact Hall]. unfold key_le. intros z Hz. lra.
Qed.

Lemma sorted_by_sorted l : StronglySorted (key_le key) (sorted_by key l).
Proof.
  induction l as [|x l IH]; simpl; [constructor | now apply insert_by_sorted].
Qed.

(** A list already in order is left as it is. *)
Lemma sorted_by_fixpoint l : StronglySorted (key_le key) l -> sorted_by key l = l.
Proof.
  induction 1 as [|x r Hs IH Hall]; simpl; [reflexivity|].
  rewrite IH. destruct r as [|y r']; simpl; [reflexivity|].
  inversion Hall as [|? ? Hxy _]; subst. unfold key_le in Hxy.
  destruct (Qltb (key y) (key x)) eqn:E; [apply Qltb_lt in E; lra | reflexivity].
Qed.

End SortByFacts.

(** ** Routing by channel count *)

Lemma process_routes_stereo env path audio :
  path_exists env path = true ->
  load_audio env path = Ok audio ->
  (channels audio >= 2)%Z ->
  process env path [] = _run_stereo_pipeline env audio path [].
Proof.
  intros Hex Hload Hch.
  assert (Hge : (channels audio >=? 2)%Z = true) by (apply Z.geb_le; lia).
  unfold process. rewrite Hex. cbn [negb].
  unfold P_bind at 1, P_lift at 1. now rewrite Hload, Hge.
Qed.

(** C5, as the code has it. For decoded audio with two channels or more the
    diarization service and the role classifier are never called. With exactly
    two channels, and both recognitions succeeding, channel 0 is transcribed
    as agent and channel 1 as customer, each once, the two segment lists are
    merged in order of start time, and the result has two speakers and mode
    stereo. With more than two channels the split raises ValueError before
    anything is transcribed. *)
Theorem stereo_route :
  forall (env : Env) (audio_path : pystr) (audio : Audio),
    path_exists env audio_path = true ->
    load_audio env audio_path = Ok audio ->
    (channels audio >= 2)%Z ->
    forallb is_transcribe (snd (process env audio_path [])) = true
    /\ (channels audio <> 2%Z ->
        process env audio_path []
        = (Raise {| exn_class := u "ValueError";
                    exn_msg := u "Expected stereo audio (2 channels), got "
                               ++ str_of_Z (channels audio) |}, []))
    /\ (channels audio = 2%Z ->
        forall agent_result customer_result,
          transcribe env (MonoChannel audio_path 0) = Ok agent_result ->
          transcribe env (MonoChannel audio_path 1) = Ok customer_result ->
          exists result,
            process env audio_path []
            = (Ok result, [EvTranscribe (MonoChannel audio_path 0);
                           EvTranscribe (MonoChannel audio_path 1)])
            /\ Permutation (segments result)
                 (map (channel_segment agent) (tr_segments agent_result)
                  ++ map (channel_segment customer) (tr_segments customer_result))
            /\ StronglySorted (key_le seg_start) (segments result)
            /\ full_text result = _build_full_text (segments result)
            /\ num_speakers result = 2%Z
            /\ channel_mode result = stereo
            /\ raw_diarization result = None).
Proof.
  intros env path audio Hex Hload Hch.
  rewrite (process_routes_stereo env path audio Hex Hload Hch).
  unfold _run_stereo_pipeline, _split_stereo.
  destruct (channels audio =? 2)%Z eqn:E2; cbn [negb].
  - apply Z.eqb_eq in E2.
    unfold P_bind, P_ret, call_transcribe, P_bind, P_log, P_lift. cbn [fst snd app].
    split; [|split].
    + destruct (transcribe env (MonoChannel path 0)); [|reflexivity].
      destruct (transcribe env (MonoChannel path 1)); reflexivity.
    + intros Hne. contradiction.
    + intros _ ra rc Ha Hc.
      rewrite Ha, Hc. eexists. split; [reflexivity|].
      cbn [segments full_text num_speakers channel_mode raw_diarization].
      repeat split.
      * apply sorted_by_Permutation.
      * apply sorted_by_sorted.
  - apply Z.eqb_neq in E2. split; [|split].
    + reflexivity.
    + intros _. reflexivity.
    + intros He. contradiction.
Qed.

(** A two-channel call in which the customer speaks before the agent. *)
Lemma stereo_route_witness :
  let env := env_of_channels 2 [mk_tseg "dzień dobry" 2 4] [mk_tseg "halo" 0 1] in
  exists result,
    process env (u "call.wav") []
    = (Ok result, [EvTranscribe (MonoChannel (u "call.wav") 0);
                   EvTranscribe (MonoChannel (u "call.wav") 1)])
    /\ map seg_speaker (segments result) = [customer; agent]
    /\ full_text result
       = u "[Customer] halo" ++ [10%N] ++ u "[Agent] dzień dobry"
    /\ num_speakers result = 2%Z
    /\ channel_mode result = stereo.
Proof.
  intros env.
  assert (Hch : (channels {| channels := 2 |} >= 2)%Z) by (simpl; lia).
  destruct (proj2 (proj2 (stereo_route env (u "call.wav") {| channels := 2 |}
                            eq_refl eq_refl Hch))
              eq_refl _ _ eq_refl eq_refl)
    as (result & Hrun & _ & _ & _ & Hn & Hm & _).
  exists result. split; [exact Hrun|].
  assert (Hr : fst (process env (u "call.wav") []) = Ok result) by now rewrite Hrun.
  vm_compute in Hr. inversion Hr. subst result.
  repeat split; vm_compute; reflexivity.
Defined.

(** C5, as stated, fails for three channels: the audio is routed to the
    stereo pipeline, whose split raises, and no result is produced. *)
Lemma three_channels_raise_in_split :
  let env := env_of_channels 3 [mk_tseg "dzień dobry" 2 4] [mk_tseg "halo" 0 1] in
  load_audio env (u "call.wav") = Ok {| channels := 3 |}
  /\ (3 >= 2)%Z
  /\ process env (u "call.wav") []
     = (Raise {| exn_class := u "ValueError";
                 exn_msg := u "Expected stereo audio (2 channels), got 3" |}, [])
  /\ forall result trace, process env (u "call.wav") [] <> (Ok result, trace).
Proof.
  intros env. split; [reflexivity|]. split; [lia|].
  assert (H : process env (u "call.wav") []
     = (Raise {| exn_class := u "ValueError";
                 exn_msg := u "Expected stereo audio (2 channels), got 3" |}, []))
    by (vm_compute; reflexivity).
  split; [exact H|]. intros result trace. rewrite H. discriminate.
Qed.

(** ** Storage *)

Lemma find_map_preserved {A} (g : A -> bool) (h : A -> A) l :
  (forall x, g (h x) = g x) ->
  find g (map h l) = option_map h (find g l).
Proof.
  intros Hg. induction l as [|x l IH]; simpl; [reflexivity|].
  rewrite Hg. destruct (g x); [reflexivity | exact IH].
Qed.

Lemma recording_by_filepath_update p id f db :
  (forall r, rec_filepath (f r) = rec_filepath r) ->
  recording_by_filepath p (update_recording id f db)
  = option_map (fun r => if (rec_id r =? id)%Z then f r else r)
               (recording_by_filepath p db).
Proof.
  intros Hf. unfold recording_by_filepath, update_recording. cbn [recordings].
  apply find_map_preserved. intros r. destruct (rec_id r =? id)%Z; [now rewrite Hf | reflexivity].
Qed.

Lemma recording_by_id_update i id f db :
  (forall r, rec_id (f r) = rec_id r) ->
  recording_by_id i (update_recording id f db)
  = option_map (fun r => if (rec_id r =? id)%Z then f r else r)
               (recording_by_id i db).
Proof.
  intros Hf. unfold recording_by_id, update_recording. cbn [recordings].
  apply find_map_preserved. intros r. destruct (rec_id r =? id)%Z; [now rewrite Hf | reflexivity].
Qed.

Lemma find_some_id_eq id db r :
  recording_by_id id db = Some r -> rec_id r = id.
Proof.
  unfold recording_by_id. intros H. apply find_some in H. now apply Z.eqb_eq.
Qed.

Lemma fold_max_ge ids : forall a, (a <= fold_left Z.max ids a)%Z.
Proof.
  induction ids as [|x r IH]; intros a; simpl; [lia|].
  specialize (IH (Z.max a x)). lia.
Qed.

Lemma fold_max_bound ids : forall a x, In x ids -> (x <= fold_left Z.max ids a)%Z.
Proof.
  induction ids as [|y r IH]; intros a x; simpl; [tauto|].
  intros [->|H]; [|now apply IH].
  pose proof (fold_max_ge r (Z.max a x)). lia.
Qed.

(** A fresh key is above every key in use. *)
Lemma next_id_fresh ids x : In x ids -> (x < next_id ids)%Z.
Proof. intros H. unfold next_id. pose proof (fold_max_bound ids 0 x H). lia. Qed.

Lemma for_each_add_segment tid segs :
  forall s,
    for_each segs (add_segment tid) s
    = (Ok tt,
       {| committed := committed s;
          working := {| recordings := recordings (working s);
                        transcripts := transcripts (working s);
                        segment_rows := persist_segments tid segs (segment_rows (working s)) |};
          clock := clock s |}).
Proof.
  induction segs as [|seg r IH]; intros [c [rs ts ss] k]; simpl.
  - reflexivity.
  - unfold bind, add_segment, modify_working. cbn [working committed clock].
    rewrite IH. reflexivity.
Qed.

Lemma persist_segments_app tid segs :
  forall rows, exists added, persist_segments tid segs rows = rows ++ added.
Proof.
  induction segs as [|seg r IH]; intros rows; simpl.
  - exists []. now rewrite app_nil_r.
  - destruct (IH (rows ++ [ {| sg_id := next_id (map sg_id rows);
                 sg_transcript_id := tid;
                 sg_speaker_label := Some (label_str (seg_speaker seg));
                 sg_text := seg_text seg;
                 sg_start_time := seg_start seg;
                 sg_end_time := seg_end seg;
                 sg_confidence := seg_confidence seg |} ])) as [added H].
    unfold persist_segments in *. simpl. rewrite H.
    eexists. rewrite <- app_assoc. reflexivity.
Qed.

(** ** The steps of [_process_file] *)

Lemma process_file_unfold env faults p :
  _process_file env faults p
  = bind (_process_file_enqueue faults p)
         (fun r => match r with
                   | None => ret tt
                   | Some id => _process_file_attempt env faults id p
                   end).
Proof. reflexivity. Qed.

Lemma enqueue_done faults p db now r :
  open_error faults = None ->
  recording_by_filepath p db = Some r ->
  rec_status r = done ->
  _process_file_enqueue faults p (open_session db now) = (Ok None, open_session db now).
Proof.
  intros Ho Hr Hs. unfold _process_file_enqueue. rewrite Ho.
  unfold bind, may_fail, ret, get_working, open_session.
  cbn [working]. rewrite Hr, Hs. reflexivity.
Qed.

Lemma enqueue_existing faults p db now r :
  enqueue_succeeds faults ->
  recording_by_filepath p db = Some r ->
  rec_status r <> done ->
  _process_file_enqueue faults p (open_session db now)
  = (Ok (Some (rec_id r)),
     open_session
       (update_recording (rec_id r) (set_error_message None)
          (update_recording (rec_id r) (set_status pending) db)) now).
Proof.
  intros [Ho He] Hr Hs. unfold _process_file_enqueue. rewrite Ho, He.
  unfold bind, may_fail, ret, get_working, open_session.
  cbn [working]. rewrite Hr.
  destruct (status_eqb (rec_status r) done) eqn:E.
  - destruct (rec_status r); try discriminate. now elim Hs.
  - reflexivity.
Qed.

Lemma enqueue_new faults p db now :
  enqueue_succeeds faults ->
  recording_by_filepath p db = None ->
  _process_file_enqueue faults p (open_session db now)
  = (Ok (Some (next_id (map rec_id (recordings db)))),
     open_session
       {| recordings := recordings db ++
            [ {| rec_id := next_id (map rec_id (recordings db));
                 rec_filename := path_name p; rec_filepath := p;
                 rec_duration_seconds := None; rec_created_at := Some now;
                 rec_processed_at := None; rec_status := pending;
                 rec_error_message := None |} ];
          transcripts := transcripts db;
          segment_rows := segment_rows db |} (now + 1)).
Proof.
  intros [Ho He] Hr. unfold _process_file_enqueue. rewrite Ho, He.
  unfold bind, may_fail, ret, get_working, open_session.
  cbn [working]. rewrite Hr. reflexivity.
Qed.

(** A storage call that fails before the [try] block leaves
    [_process_file] with nothing committed. *)
Lemma enqueue_failure faults p db now e0 :
  enqueue_raises faults e0 ->
  (open_error faults = None -> enters_processing db p = true) ->
  exists s',
    _process_file_enqueue faults p (open_session db now) = (Raise e0, s')
    /\ committed s' = db.
Proof.
  intros [Ho | [Ho He]] Hent; unfold _process_file_enqueue; rewrite Ho.
  - eexists. split; reflexivity.
  - specialize (Hent Ho). unfold enters_processing in Hent. rewrite He.
    unfold bind, may_fail, ret, raise, get_working, open_session.
    cbn [working].
    destruct (recording_by_filepath p db) as [r|].
    + destruct (status_eqb (rec_status r) done); [discriminate|].
      eexists. split; reflexivity.
    + eexists. split; reflexivity.
Qed.

(** What the [try] block does when something in it raises. *)
Lemma try_block_failure env faults id p e db clk :
  attempt_error env faults p = Some e ->
  exists s',
    _process_file_try env faults id p (open_session db clk) = (Raise e, s')
    /\ committed s' = update_recording id (set_status processing) db.
Proof.
  unfold attempt_error. intros He. unfold _process_file_try.
  unfold bind at 1 2 3. unfold modify_working at 1, session_commit at 1, open_session.
  cbn [working committed clock fst snd].
  destruct (fst (process env p [])) as [result|e0] eqn:Hp.
  - unfold bind at 1. unfold add_transcript at 1. unfold bind at 1 2 3.
    unfold get_working at 1, modify_working at 1, ret at 1.
    cbn [working committed clock].
    destruct (flush_error faults) as [e1|] eqn:Hf.
    + inversion He; subst e1. unfold bind, may_fail, raise.
      eexists. split; reflexivity.
    + unfold may_fail at 1. unfold bind at 1, ret at 1.
      unfold bind at 1. rewrite for_each_add_segment.
      cbn [working committed clock recordings transcripts segment_rows].
      unfold bind, modify_working, utcnow. cbn [working committed clock].
      rewrite He. unfold may_fail, raise.
      eexists. split; reflexivity.
  - inversion He; subst e0. eexists. split; reflexivity.
Qed.

(** The [except] block followed by the [finally] block, when the storage
    calls of the [except] block succeed. *)
Lemma except_block_records faults id e s :
  handler_succeeds faults ->
  (let (o, s') := _process_file_except faults id e s in
   match session_close s' with
   | (Ok _, s'') => (o, s'')
   | (Raise e0, s'') => (Raise e0, s'')
   end)
  = (Ok tt, open_session (store_after_error id e (committed s)) (clock s)).
Proof.
  intros [Hr Hh]. destruct s as [c0 w0 k0].
  unfold _process_file_except. rewrite Hr, Hh.
  unfold store_after_error, bind, may_fail, ret, session_rollback, get_working,
    session_close, session_rollback, open_session.
  cbn [working committed clock].
  destruct (recording_by_id id c0); reflexivity.
Qed.

(** The same when a storage call of the [except] block raises: the exception
    is let through, and nothing the block did is committed. *)
Lemma except_block_raises faults id e e' s r :
  handler_raises faults e' ->
  recording_by_id id (committed s) = Some r ->
  (let (o, s') := _process_file_except faults id e s in
   match session_close s' with
   | (Ok _, s'') => (o, s'')
   | (Raise e0, s'') => (Raise e0, s'')
   end)
  = (Raise e', open_session (committed s) (clock s)).
Proof.
  intros [Hr | [Hr Hh]] Hrec; destruct s as [c0 w0 k0];
    unfold _process_file_except; rewrite Hr.
  - reflexivity.
  - rewrite Hh.
    unfold bind, may_fail, ret, raise, session_rollback, get_working,
      session_close, session_rollback, open_session.
    cbn [working committed clock] in *. rewrite Hrec. reflexivity.
Qed.

Lemma attempt_failure env faults id p e db clk :
  handler_succeeds faults ->
  attempt_error env faults p = Some e ->
  exists clk',
    _process_file_attempt env faults id p (open_session db clk)
    = (Ok tt,
       open_session
         (store_after_error id e (update_recording id (set_status processing) db)) clk').
Proof.
  intros Hh He.
  destruct (try_block_failure env faults id p e db clk He) as (s' & Htry & Hc).
  unfold _process_file_attempt, try_finally, try_except. rewrite Htry.
  exists (clock s'). rewrite <- Hc. apply except_block_records. exact Hh.
Qed.

Lemma attempt_handler_failure env faults id p e e' db clk r :
  attempt_error env faults p = Some e ->
  handler_raises faults e' ->
  recording_by_id id db = Some r ->
  exists clk',
    _process_file_attempt env faults id p (open_session db clk)
    = (Raise e', open_session (update_recording id (set_status processing) db) clk').
Proof.
  intros He Hh Hr.
  destruct (try_block_failure env faults id p e db clk He) as (s' & Htry & Hc).
  unfold _process_file_attempt, try_finally, try_except. rewrite Htry.
  exists (clock s'). rewrite <- Hc.
  apply except_block_raises with (r := set_status processing r); [exact Hh|].
  rewrite Hc, recording_by_id_update by reflexivity. rewrite Hr.
  cbn [option_map]. now rewrite (find_some_id_eq _ _ _ Hr), Z.eqb_refl.
Qed.

Lemma attempt_success env faults id p result db clk :
  fst (process env p []) = Ok result ->
  attempt_error env faults p = None ->
  _process_file_attempt env faults id p (open_session db clk)
  = (Ok tt, open_session (store_after_success id result clk db) (clk + 1)).
Proof.
  unfold attempt_error. intros Hp He. rewrite Hp in He.
  destruct (flush_error faults) eqn:Hf; [discriminate|].
  unfold _process_file_attempt, try_finally, try_except, _process_file_try.
  unfold bind at 1 2 3. unfold modify_working at 1, session_commit at 1, open_session.
  cbn [working committed clock fst snd]. rewrite Hp.
  unfold bind at 1. unfold add_transcript at 1. unfold bind at 1 2 3.
  unfold get_working at 1, modify_working at 1, ret at 1.
  cbn [working committed clock].
  rewrite Hf. unfold may_fail at 1. unfold bind at 1, ret at 1.
  unfold bind at 1. rewrite for_each_add_segment.
  cbn [working committed clock recordings transcripts segment_rows].
  unfold bind, modify_working, utcnow. cbn [working committed clock].
  rewrite He. unfold may_fail, ret, session_commit, session_close, session_rollback.
  cbn [working committed clock]. reflexivity.
Qed.

Lemma by_filepath_has_id p db r :
  recording_by_filepath p db = Some r ->
  exists r0, recording_by_id (rec_id r) db = Some r0.
Proof.
  unfold recording_by_filepath, recording_by_id. intros H.
  apply find_some in H. destruct H as [Hin _].
  destruct (find (fun r0 => (rec_id r0 =? rec_id r)%Z) (recordings db)) as [r0|] eqn:E.
  - now exists r0.
  - exfalso. pose proof (find_none _ _ E r Hin) as Hn. simpl in Hn.
    rewrite Z.eqb_refl in Hn. discriminate.
Qed.

Lemma find_app_none {A} (g : A -> bool) l x :
  find g l = None -> g x = true -> find g (l ++ [x]) = Some x.
Proof.
  induction l as [|y l IH]; simpl; intros Hn Hx.
  - now rewrite Hx.
  - destruct (g y); [discriminate | auto].
Qed.

(** The enqueue step either skips a done record, or leaves the record of the
    path pending with the transcript and segment tables untouched. *)
Lemma enqueue_cases faults p db now :
  enqueue_succeeds faults ->
  (exists r, recording_by_filepath p db = Some r /\ rec_status r = done
             /\ _process_file_enqueue faults p (open_session db now)
                = (Ok None, open_session db now))
  \/ (exists r1 db1 now1,
        _process_file_enqueue faults p (open_session db now)
        = (Ok (Some (rec_id r1)), open_session db1 now1)
        /\ recording_by_filepath p db1 = Some r1
        /\ rec_status r1 = pending
        /\ transcripts db1 = transcripts db
        /\ segment_rows db1 = segment_rows db
        /\ enters_processing db p = true).
Proof.
  intros Hq.
  destruct (recording_by_filepath p db) as [r|] eqn:Hr.
  - destruct (status_eqb (rec_status r) done) eqn:Hs.
    + left. exists r. assert (rec_status r = done) by (destruct (rec_status r); now try discriminate).
      split; [reflexivity|]. split; [assumption|].
      now apply enqueue_done with r; [apply Hq| |].
    + right. assert (Hnd : rec_status r <> done) by (intros H; rewrite H in Hs; discriminate).
      exists (reset_by_enqueue r). do 2 eexists.
      split; [exact (enqueue_existing faults p db now r Hq Hr Hnd)|].
      split; [|split; [reflexivity|split; [reflexivity|split; [reflexivity|]]]].
      * rewrite !recording_by_filepath_update by reflexivity. rewrite Hr.
        cbn [option_map]. rewrite Z.eqb_refl. cbn [set_status rec_id].
        rewrite Z.eqb_refl. reflexivity.
      * unfold enters_processing. now rewrite Hr, Hs.
  - right.
    exists {| rec_id := next_id (map rec_id (recordings db));
              rec_filename := path_name p; rec_filepath := p;
              rec_duration_seconds := None; rec_created_at := Some now;
              rec_processed_at := None; rec_status := pending;
              rec_error_message := None |}.
    do 2 eexists.
    split; [exact (enqueue_new faults p db now Hq Hr)|].
    split; [|split; [|split; [reflexivity|split; [reflexivity|]]]].
    + unfold recording_by_filepath in *. cbn [recordings].
      apply find_app_none; [exact Hr|]. cbn [rec_filepath]. apply pystr_eqb_refl.
    + reflexivity.
    + unfold enters_processing. now rewrite Hr.
Qed.

(** What the [except] block leaves in the store. *)
Lemma failure_recorded p id e db1 r1 :
  recording_by_filepath p db1 = Some r1 ->
  rec_id r1 = id ->
  let db' := store_after_error id e (update_recording id (set_status processing) db1) in
  (exists r', recording_by_filepath p db' = Some r'
              /\ rec_status r' = error
              /\ rec_error_message r' = Some (exn_msg e))
  /\ transcripts db' = transcripts db1
  /\ segment_rows db' = segment_rows db1.
Proof.
  intros Hr Hid db'. subst db'. unfold store_after_error.
  destruct (by_filepath_has_id _ _ _ Hr) as [r0 Hr0]. rewrite Hid in Hr0.
  rewrite recording_by_id_update by reflexivity. rewrite Hr0. cbn [option_map].
  split; [|split; reflexivity].
  rewrite !recording_by_filepath_update by reflexivity. rewrite Hr.
  cbn [option_map]. rewrite Hid, Z.eqb_refl. cbn [set_status rec_id].
  rewrite Hid, Z.eqb_refl. cbn [set_status rec_id]. rewrite Hid, Z.eqb_refl.
  eexists. split; [reflexivity|]. split; reflexivity.
Qed.

Lemma attempt_error_none env faults p :
  attempt_error env faults p = None ->
  exists result, fst (process env p []) = Ok result.
Proof.
  unfold attempt_error. destruct (fst (process env p [])) as [result|e].
  - intros _. now exists result.
  - discriminate.
Qed.

(** The storage calls of the [except] block succeed, or one of them raises. *)
Lemma handler_cases faults :
  handler_succeeds faults \/ exists e', handler_raises faults e'.
Proof.
  unfold handler_succeeds, handler_raises.
  destruct (rollback_error faults) as [e1|]; [right; exists e1; now left|].
  destruct (handler_error faults) as [e2|]; [right; exists e2; now right|].
  now left.
Qed.

Lemma handler_exclusive faults e' :
  handler_succeeds faults -> handler_raises faults e' -> False.
Proof.
  intros [Hr Hh] [H | [_ H]]; congruence.
Qed.

(** The storage calls before the [try] block succeed, or one of them raises
    (the commit is reached only by a path that is not skipped). *)
Lemma enqueue_fault_cases faults :
  enqueue_succeeds faults
  \/ (exists e0, open_error faults = Some e0)
  \/ (exists e0, open_error faults = None /\ enqueue_error faults = Some e0).
Proof.
  unfold enqueue_succeeds.
  destruct (open_error faults) as [e1|]; [right; left; now exists e1|].
  destruct (enqueue_error faults) as [e2|]; [right; right; now exists e2|].
  now left.
Qed.

(** Every way a run can go. It is skipped; or a storage call before the
    [try] block raises and nothing is committed; or the path enters
    processing, and then the attempt succeeds, or its failure is recorded,
    or the [except] block raises and the record stays in processing. *)
Lemma process_file_cases env faults db now p :
  (exists r, open_error faults = None
             /\ recording_by_filepath p db = Some r /\ rec_status r = done
             /\ _process_file env faults p (open_session db now)
                = (Ok tt, open_session db now))
  \/ (exists e0 s', enqueue_raises faults e0
                    /\ _process_file env faults p (open_session db now) = (Raise e0, s')
                    /\ committed s' = db)
  \/ (exists r1 db1 now1,
        enqueue_succeeds faults
        /\ enters_processing db p = true
        /\ recording_by_filepath p db1 = Some r1
        /\ rec_status r1 = pending
        /\ transcripts db1 = transcripts db
        /\ segment_rows db1 = segment_rows db
        /\ ((exists result,
               fst (process env p []) = Ok result
               /\ attempt_error env faults p = None
               /\ _process_file env faults p (open_session db now)
                  = (Ok tt, open_session
                              (store_after_success (rec_id r1) result now1 db1) (now1 + 1)))
            \/ (exists e clk',
                  attempt_error env faults p = Some e
                  /\ handler_succeeds faults
                  /\ _process_file env faults p (open_session db now)
                     = (Ok tt, open_session
                                 (store_after_error (rec_id r1) e
                                    (update_recording (rec_id r1) (set_status processing) db1))
                                 clk'))
            \/ (exists e e' clk',
                  attempt_error env faults p = Some e
                  /\ handler_raises faults e'
                  /\ _process_file env faults p (open_session db now)
                     = (Raise e', open_session
                                    (update_recording (rec_id r1) (set_status processing) db1)
                                    clk')))).
Proof.
  rewrite process_file_unfold. unfold bind.
  destruct (enqueue_fault_cases faults) as [Hq | [[e0 Ho] | [e0 [Ho He]]]].
  - destruct (enqueue_cases faults p db now Hq)
      as [(r & Hr & Hs & Henq) | (r1 & db1 & now1 & Henq & Hr1 & Hs1 & Ht & Hsg & Hent)];
      rewrite Henq.
    + left. exists r. split; [apply Hq|]. split; [exact Hr|]. split; [exact Hs|].
      reflexivity.
    + right. right. exists r1, db1, now1.
      do 6 (split; [assumption|]).
      destruct (attempt_error env faults p) as [e|] eqn:Hae.
      * destruct (handler_cases faults) as [Hh | [e' Hh]].
        -- right. left.
           destruct (attempt_failure env faults (rec_id r1) p e db1 now1 Hh Hae)
             as [clk' Hatt].
           exists e, clk'. split; [reflexivity|]. split; [exact Hh | exact Hatt].
        -- right. right.
           destruct (by_filepath_has_id _ _ _ Hr1) as [r0 Hr0].
           destruct (attempt_handler_failure env faults (rec_id r1) p e e' db1 now1 r0
                       Hae Hh Hr0) as [clk' Hatt].
           exists e, e', clk'. split; [reflexivity|]. split; [exact Hh | exact Hatt].
      * left. destruct (attempt_error_none _ _ _ Hae) as [result Hp].
        exists result. split; [exact Hp|]. split; [reflexivity|].
        exact (attempt_success env faults (rec_id r1) p result db1 now1 Hp Hae).
  - right. left.
    destruct (enqueue_failure faults p db now e0 (or_introl Ho)) as (s' & Henq & Hc).
    { intros H. congruence. }
    rewrite Henq. exists e0, s'. split; [now left|]. now split.
  - destruct (enters_processing db p) eqn:Hent.
    + right. left.
      destruct (enqueue_failure faults p db now e0 (or_intror (conj Ho He)))
        as (s' & Henq & Hc); [now intros _|].
      rewrite Henq. exists e0, s'. split; [now right|]. now split.
    + left. unfold enters_processing in Hent.
      destruct (recording_by_filepath p db) as [r|] eqn:Hr; [|discriminate].
      assert (Hs : rec_status r = done).
      { destruct (rec_status r); try discriminate; reflexivity. }
      rewrite (enqueue_done faults p db now r Ho Hr Hs).
      exists r. split; [exact Ho|]. split; [reflexivity|]. split; [exact Hs|].
      reflexivity.
Qed.

(** C3, as the code has it. [_process_file] returns normally whenever the
    storage calls that no [try] guards succeed: those before the [try]
    block and those of the [except] block. When one of the former raises,
    the exception leaves [_process_file] and nothing is committed. When the
    path enters processing and the pipeline, the flush of the transcript or
    the final commit raises [e], the transcript and segment tables are what
    they were before the call; the record of the path ends in status error
    with [str(e)] as its error message when the storage calls of the
    [except] block succeed, and when one of them raises, that exception
    leaves [_process_file] and the record stays in processing. *)
Theorem process_file_captures_errors :
  forall (env : Env) (faults : Faults) (db : DB) (now : Z) (file_path : pystr),
    let out := run (_process_file env faults file_path) db now in
    (enqueue_succeeds faults -> handler_succeeds faults -> fst out = Ok tt)
    /\ (forall e0,
          enqueue_raises faults e0 ->
          enters_processing db file_path = true ->
          out = (Raise e0, db))
    /\ forall e,
         enqueue_succeeds faults ->
         enters_processing db file_path = true ->
         attempt_error env faults file_path = Some e ->
         transcripts (snd out) = transcripts db
         /\ segment_rows (snd out) = segment_rows db
         /\ (handler_succeeds faults ->
             exists r', recording_by_filepath file_path (snd out) = Some r'
                        /\ rec_status r' = error
                        /\ rec_error_message r' = Some (exn_msg e))
         /\ (forall e', handler_raises faults e' ->
             fst out = Raise e'
             /\ exists r', recording_by_filepath file_path (snd out) = Some r'
                           /\ rec_status r' = processing).
Proof.
  intros env faults db now p out. subst out. unfold run.
  destruct (process_file_cases env faults db now p)
    as [(r & Ho & Hr & Hs & Hrun)
       | [(e0 & s' & Hraise & Hrun & Hc)
         | (r1 & db1 & now1 & Hq & Hent & Hr1 & Hs1 & Ht & Hsg &
            [(result & Hp & Hae & Hrun)
            | [(e & clk' & Hae & Hh & Hrun) | (e & e' & clk' & Hae & Hh & Hrun)]])]];
    rewrite Hrun; cbn [fst snd committed open_session].
  - split; [reflexivity|]. split.
    + intros e0 _ Hent. unfold enters_processing in Hent.
      rewrite Hr, Hs in Hent. discriminate.
    + intros e _ Hent. unfold enters_processing in Hent.
      rewrite Hr, Hs in Hent. discriminate.
  - split; [|split].
    + intros [Ho He] _. destruct Hraise as [H | [_ H]]; congruence.
    + intros e1 Hraise1 _. rewrite Hc. f_equal. f_equal.
      destruct Hraise as [H | [H H']], Hraise1 as [H1 | [H1 H1']]; congruence.
    + intros e [Ho He] _ _. destruct Hraise as [H | [_ H]]; congruence.
  - split; [reflexivity|]. split.
    + intros e0 Hraise _. destruct Hq as [Ho He].
      destruct Hraise as [H | [_ H]]; congruence.
    + intros e _ _ Habs. congruence.
  - destruct (failure_recorded p (rec_id r1) e db1 r1 Hr1 eq_refl) as (Hrec & Ht' & Hsg').
    split; [reflexivity|]. split.
    + intros e0 Hraise _. destruct Hq as [Ho He].
      destruct Hraise as [H | [_ H]]; congruence.
    + intros e1 _ _ He1. rewrite Hae in He1. inversion He1; subst e1.
      split; [congruence|]. split; [congruence|]. split; [intros _; exact Hrec|].
      intros e' Hraise. elim (handler_exclusive faults e' Hh Hraise).
  - split; [|split].
    + intros _ Hok. elim (handler_exclusive faults e' Hok Hh).
    + intros e0 Hraise _. destruct Hq as [Ho He].
      destruct Hraise as [H | [_ H]]; congruence.
    + intros e1 _ _ He1. cbn [update_recording transcripts segment_rows].
      split; [exact Ht|]. split; [exact Hsg|]. split.
      * intros Hok. elim (handler_exclusive faults e' Hok Hh).
      * intros e2 Hraise2. split.
        -- f_equal. destruct Hh as [H | [H H']], Hraise2 as [H2 | [H2 H2']]; congruence.
        -- rewrite recording_by_filepath_update by reflexivity. rewrite Hr1.
           cbn [option_map]. rewrite Z.eqb_refl.
           eexists. split; reflexivity.
Qed.

(** Two-channel call whose final commit fails. *)
Lemma process_file_captures_errors_witness :
  let env := env_of_channels 2 [mk_tseg "dzień dobry" 2 4] [mk_tseg "halo" 0 1] in
  let faults := {| open_error := None; enqueue_error := None;
                   flush_error := None;
                   commit_error := Some {| exn_class := u "OperationalError";
                                           exn_msg := u "database is locked" |};
                   rollback_error := None; handler_error := None |} in
  let db := {| recordings := []; transcripts := []; segment_rows := [] |} in
  let out := run (_process_file env faults (u "/watch/call.wav")) db 100 in
  fst out = Ok tt
  /\ transcripts (snd out) = []
  /\ segment_rows (snd out) = []
  /\ exists r', recording_by_filepath (u "/watch/call.wav") (snd out) = Some r'
                /\ rec_status r' = error
                /\ rec_error_message r' = Some (u "database is locked").
Proof.
  intros env faults db out.
  destruct (process_file_captures_errors env faults db 100 (u "/watch/call.wav"))
    as (Hret & _ & Hcap).
  fold out in Hret, Hcap.
  assert (Hq : enqueue_succeeds faults) by (split; reflexivity).
  assert (Hh : handler_succeeds faults) by (split; reflexivity).
  destruct (Hcap {| exn_class := u "OperationalError"; exn_msg := u "database is locked" |}
              Hq) as (Ht & Hsg & Hrec & _); [vm_compute; reflexivity..|].
  split; [exact (Hret Hq Hh)|]. split; [exact Ht|]. split; [exact Hsg|].
  exact (Hrec Hh).
Defined.

(** C3, as stated, fails: the file is not on disk, the pipeline raises, and
    the commit of the error status fails as well. The second exception
    leaves [_process_file], and the record is left in status processing. *)
Lemma handler_failure_propagates :
  let env := {| path_exists := fun _ => false;
                load_audio := fun _ => Ok {| channels := 1 |};
                transcribe := fun _ => Ok (mk_transcription []);
                diarize := fun _ => Ok (mk_diarization []) |} in
  let locked := {| exn_class := u "OperationalError";
                   exn_msg := u "database is locked" |} in
  let faults := {| open_error := None; enqueue_error := None;
                   flush_error := None; commit_error := None;
                   rollback_error := None; handler_error := Some locked |} in
  let out := run (_process_file env faults (u "/watch/gone.wav")) empty_store 100 in
  fst out = Raise locked
  /\ fst out <> Ok tt
  /\ option_map rec_status (recording_by_filepath (u "/watch/gone.wav") (snd out))
     = Some processing
  /\ option_map rec_error_message
       (recording_by_filepath (u "/watch/gone.wav") (snd out)) = Some None.
Proof.
  repeat split; try (vm_compute; reflexivity).
  vm_compute. discriminate.
Qed.

(** ** Enqueue of a known path *)

Lemma map_update_twice (f g : Recording -> Recording) id l :
  (forall r, rec_id (f r) = rec_id r) ->
  map (fun r => if (rec_id r =? id)%Z then g r else r)
      (map (fun r => if (rec_id r =? id)%Z then f r else r) l)
  = map (fun r => if (rec_id r =? id)%Z then g (f r) else r) l.
Proof.
  intros Hf. rewrite map_map. apply map_ext. intros r.
  destruct (rec_id r =? id)%Z eqn:E.
  - now rewrite Hf, E.
  - now rewrite E.
Qed.

(** C7, as the code has it, for a run whose storage calls before the
    [try] block succeed. When the record of an observed path is done, the
    file is skipped and the store is unchanged (the store is unchanged also
    when such a call fails). Otherwise the enqueue step sets the status to
    pending and clears the error message of that record, and changes nothing
    else: its other fields, the processed timestamp among them, the other
    records and the other tables are as before. *)
Theorem enqueue_existing_record :
  forall (faults : Faults) (file_path : pystr) (db : DB) (now : Z)
         (existing : Recording),
    enqueue_succeeds faults ->
    recording_by_filepath file_path db = Some existing ->
    (rec_status existing = done ->
       _process_file_enqueue faults file_path (open_session db now)
       = (Ok None, open_session db now)
       /\ (forall env,
             run (_process_file env faults file_path) db now = (Ok tt, db))
       /\ forall env faults',
            snd (run (_process_file env faults' file_path) db now) = db)
    /\ (rec_status existing <> done ->
        exists db1,
          _process_file_enqueue faults file_path (open_session db now)
          = (Ok (Some (rec_id existing)), open_session db1 now)
          /\ recording_by_filepath file_path db1
             = Some {| rec_id := rec_id existing;
                       rec_filename := rec_filename existing;
                       rec_filepath := rec_filepath existing;
                       rec_duration_seconds := rec_duration_seconds existing;
                       rec_created_at := rec_created_at existing;
                       rec_processed_at := rec_processed_at existing;
                       rec_status := pending;
                       rec_error_message := None |}
          /\ recordings db1
             = map (fun r => if (rec_id r =? rec_id existing)%Z
                             then reset_by_enqueue r else r) (recordings db)
          /\ transcripts db1 = transcripts db
          /\ segment_rows db1 = segment_rows db).
Proof.
  intros faults p db now r Hq Hr. split.
  - intros Hs. pose proof (enqueue_done faults p db now r (proj1 Hq) Hr Hs) as Henq.
    split; [exact Henq|]. split.
    + intros env.
      rewrite process_file_unfold. unfold run, bind. rewrite Henq. reflexivity.
    + intros env faults'. unfold run.
      destruct (process_file_cases env faults' db now p)
        as [(r0 & _ & _ & _ & Hrun)
           | [(e0 & s' & _ & Hrun & Hc)
             | (r1 & db1 & now1 & _ & Hent & _)]].
      * now rewrite Hrun.
      * now rewrite Hrun.
      * unfold enters_processing in Hent. rewrite Hr, Hs in Hent. discriminate.
  - intros Hs. eexists. split; [exact (enqueue_existing faults p db now r Hq Hr Hs)|].
    split; [|split; [|split; reflexivity]].
    + rewrite !recording_by_filepath_update by reflexivity. rewrite Hr.
      cbn [option_map]. rewrite Z.eqb_refl. cbn [set_status rec_id].
      rewrite Z.eqb_refl. reflexivity.
    + unfold update_recording. cbn [recordings].
      rewrite map_update_twice by reflexivity. reflexivity.
Qed.

(** A failed record is observed again. *)
Lemma enqueue_existing_record_witness :
  let r := {| rec_id := 1; rec_filename := u "call.wav";
              rec_filepath := u "/watch/call.wav";
              rec_duration_seconds := None; rec_created_at := Some 10%Z;
              rec_processed_at := None; rec_status := error;
              rec_error_message := Some (u "database is locked") |} in
  let db := {| recordings := [r]; transcripts := []; segment_rows := [] |} in
  exists db1,
    _process_file_enqueue no_faults (u "/watch/call.wav") (open_session db 100)
    = (Ok (Some 1%Z), open_session db1 100)
    /\ recording_by_filepath (u "/watch/call.wav") db1
       = Some {| rec_id := 1; rec_filename := u "call.wav";
                 rec_filepath := u "/watch/call.wav";
                 rec_duration_seconds := None; rec_created_at := Some 10%Z;
                 rec_processed_at := None; rec_status := pending;
                 rec_error_message := None |}.
Proof.
  intros r db.
  assert (Hr : recording_by_filepath (u "/watch/call.wav") db = Some r)
    by (vm_compute; reflexivity).
  assert (Hs : rec_status r <> done) by (simpl; discriminate).
  assert (Hq : enqueue_succeeds no_faults) by (split; reflexivity).
  destruct (proj2 (enqueue_existing_record no_faults (u "/watch/call.wav") db 100 r
                     Hq Hr) Hs)
    as (db1 & Henq & Hrec & _).
  exists db1. split; [exact Henq | exact Hrec].
Defined.

(** C7, as stated, fails: a record that is not done and carries a processed
    timestamp keeps it through the enqueue step. *)
Lemma enqueue_keeps_processed_timestamp :
  let r := {| rec_id := 1; rec_filename := u "call.wav";
              rec_filepath := u "/watch/call.wav";
              rec_duration_seconds := Some 30; rec_created_at := Some 10%Z;
              rec_processed_at := Some 50%Z; rec_status := error;
              rec_error_message := Some (u "database is locked") |} in
  let db := {| recordings := [r]; transcripts := []; segment_rows := [] |} in
  let s' := snd (_process_file_enqueue no_faults (u "/watch/call.wav")
                   (open_session db 100)) in
  option_map rec_status (recording_by_filepath (u "/watch/call.wav") (committed s'))
  = Some pending
  /\ option_map rec_error_message
       (recording_by_filepath (u "/watch/call.wav") (committed s')) = Some None
  /\ option_map rec_processed_at
       (recording_by_filepath (u "/watch/call.wav") (committed s')) = Some (Some 50%Z)
  /\ option_map rec_processed_at
       (recording_by_filepath (u "/watch/call.wav") (committed s')) <> Some None.
Proof.
  repeat split; try (vm_compute; reflexivity).
  vm_compute. discriminate.
Qed.

(** ** Deletion of earlier transcripts *)

Lemma filter_filter {A} (f g : A -> bool) l :
  filter f (filter g l) = filter (fun x => g x && f x) l.
Proof.
  induction l as [|x l IH]; simpl; [reflexivity|].
  destruct (g x); simpl; [destruct (f x); now rewrite IH | exact IH].
Qed.

Lemma filter_all_true {A} (f : A -> bool) l :
  (forall x, f x = true) -> filter f l = l.
Proof.
  intros H. induction l as [|x l IH]; simpl; [reflexivity|].
  now rewrite H, IH.
Qed.

Lemma for_each_delete ts :
  forall s,
    for_each ts delete_transcript s
    = (Ok tt, {| committed := committed s;
                 working := store_after_delete ts (working s);
                 clock := clock s |}).
Proof.
  induction ts as [|t r IH]; intros [c [rs tr ss] k].
  - unfold store_after_delete. simpl. rewrite !filter_all_true; reflexivity.
  - simpl. unfold bind, delete_transcript at 1, modify_working.
    cbn [working committed clock recordings transcripts segment_rows].
    rewrite IH. unfold store_after_delete.
    cbn [working committed clock recordings transcripts segment_rows existsb].
    rewrite !filter_filter.
    do 3 f_equal; apply filter_ext; intros x; now rewrite negb_orb.
Qed.

Lemma reprocess_reset_run id db now r :
  recording_by_id id db = Some r ->
  reprocess_reset id (open_session db now)
  = (Ok (rec_filepath r), open_session (store_after_reset id db) now).
Proof.
  intros Hr. unfold reprocess_reset, try_finally.
  unfold bind at 1, get_working at 1, open_session. cbn [working].
  rewrite Hr. unfold bind at 1. rewrite for_each_delete.
  reflexivity.
Qed.

Lemma filter_none {A} (f : A -> bool) l :
  (forall x, In x l -> f x = false) -> filter f l = [].
Proof.
  induction l as [|y l IH]; intros H; simpl; [reflexivity|].
  rewrite (H y (or_introl eq_refl)). apply IH. intros x Hx. apply H. now right.
Qed.

(** After the deletion no transcript of the recording is left, nor any
    segment of one of its transcripts. *)
Lemma store_after_delete_clean id db :
  transcripts_of id (store_after_delete (transcripts_of id db) db) = []
  /\ forall t, In t (transcripts_of id db) ->
       segments_of (trn_id t) (store_after_delete (transcripts_of id db) db) = [].
Proof.
  unfold transcripts_of, segments_of, store_after_delete.
  cbn [transcripts segment_rows]. split.
  - rewrite filter_filter.
    apply filter_none. intros x Hx.
    destruct (trn_recording_id x =? id)%Z eqn:E; [|now rewrite andb_false_r].
    rewrite andb_true_r. apply negb_false_iff. apply existsb_exists.
    exists x. split; [|apply Z.eqb_refl].
    apply filter_In. now split.
  - intros t Ht. rewrite filter_filter.
    apply filter_none. intros x Hx.
    destruct (sg_transcript_id x =? trn_id t)%Z eqn:E; [|now rewrite andb_false_r].
    rewrite andb_true_r. apply negb_false_iff. apply existsb_exists.
    exists t. split; [exact Ht | exact E].
Qed.

(** [_process_file] only appends to the transcript and segment tables. *)
Lemma process_file_appends env faults db now p :
  let db' := snd (run (_process_file env faults p) db now) in
  exists ts ss,
    transcripts db' = transcripts db ++ ts
    /\ segment_rows db' = segment_rows db ++ ss.
Proof.
  cbv zeta. unfold run.
  destruct (process_file_cases env faults db now p)
    as [(r & Ho & Hr & Hs & Hrun)
       | [(e0 & s' & Hraise & Hrun & Hc)
         | (r1 & db1 & now1 & Hq & Hent & Hr1 & Hs1 & Ht & Hsg &
            [(result & Hp & Hae & Hrun)
            | [(e & clk' & Hae & Hh & Hrun) | (e & e' & clk' & Hae & Hh & Hrun)]])]];
    rewrite Hrun; cbn [snd committed open_session].
  - exists [], []. now rewrite !app_nil_r.
  - exists [], []. now rewrite Hc, !app_nil_r.
  - cbn [store_after_success transcripts segment_rows].
    destruct (persist_segments_app (next_id (map trn_id (transcripts db1)))
                (segments result) (segment_rows db1)) as [added Hadd].
    rewrite Hadd, Ht, Hsg. eexists. eexists. split; reflexivity.
  - destruct (failure_recorded p (rec_id r1) e db1 r1 Hr1 eq_refl) as (_ & Ht' & Hsg').
    exists [], []. rewrite !app_nil_r. split; congruence.
  - exists [], []. cbn [update_recording transcripts segment_rows].
    rewrite !app_nil_r. now split.
Qed.

Lemma transcripts_of_app id db ts :
  filter (fun t => (trn_recording_id t =? id)%Z) (transcripts db ++ ts)
  = transcripts_of id db ++ filter (fun t => (trn_recording_id t =? id)%Z) ts.
Proof. unfold transcripts_of. apply filter_app. Qed.

Lemma reprocess_then_process env faults id db now r :
  recording_by_id id db = Some r ->
  run (reprocess_recording env faults id) db now
  = run (_process_file env faults (rec_filepath r)) (store_after_reset id db) now.
Proof.
  intros Hr. unfold run, reprocess_recording. unfold bind at 1.
  rewrite (reprocess_reset_run id db now r Hr). reflexivity.
Qed.

(** C2, as the code has it. [_process_file] deletes nothing: whatever the
    outcome of the run, the transcript and segment rows present before are
    still there, and new rows are added after them. The earlier rows of a
    recording are deleted by [reprocess_recording], which removes every
    transcript of the recording with its segments and resets the record
    before it runs [_process_file]; after a reprocessing in which nothing
    raises the only transcript of the recording is the one of the new run. *)
Theorem prior_rows_deleted_by_reprocess :
  forall (env : Env) (faults : Faults) (db : DB) (now : Z),
    (forall file_path,
       exists ts ss,
         transcripts (snd (run (_process_file env faults file_path) db now))
           = transcripts db ++ ts
         /\ segment_rows (snd (run (_process_file env faults file_path) db now))
            = segment_rows db ++ ss)
    /\ (forall id r,
          recording_by_id id db = Some r ->
          run (reprocess_reset id) db now
            = (Ok (rec_filepath r), store_after_reset id db)
          /\ transcripts_of id (store_after_reset id db) = []
          /\ (forall t, In t (transcripts_of id db) ->
                segments_of (trn_id t) (store_after_reset id db) = [])
          /\ run (reprocess_recording env faults id) db now
             = run (_process_file env faults (rec_filepath r)) (store_after_reset id db) now
          /\ (forall result,
                recording_by_filepath (rec_filepath r) db = Some r ->
                fst (process env (rec_filepath r) []) = Ok result ->
                attempt_error env faults (rec_filepath r) = None ->
                enqueue_succeeds faults ->
                transcripts_of id (snd (run (reprocess_recording env faults id) db now))
                = [ {| trn_id := next_id (map trn_id (transcripts (store_after_reset id db)));
                       trn_recording_id := id;
                       trn_full_text := Some (full_text result);
                       trn_language := Some (language result);
                       trn_model_used := None |} ])).
Proof.
  intros env faults db now. split.
  - intros p. apply process_file_appends.
  - intros id r Hr.
    pose proof (store_after_delete_clean id db) as [Hclean Hsegs].
    split; [|split; [|split; [|split]]].
    + unfold run. now rewrite (reprocess_reset_run id db now r Hr).
    + exact Hclean.
    + exact Hsegs.
    + now apply reprocess_then_process.
    + intros result Hpath Hp He Hq.
      rewrite (reprocess_then_process env faults id db now r Hr).
      pose proof (find_some_id_eq _ _ _ Hr) as Hid.
      set (db1 := store_after_reset id db).
      assert (Hr1 : recording_by_filepath (rec_filepath r) db1
                    = Some (reset_by_reprocess r)).
      { unfold db1, store_after_reset.
        rewrite !recording_by_filepath_update by reflexivity.
        unfold recording_by_filepath, store_after_delete. cbn [recordings].
        unfold recording_by_filepath in Hpath. rewrite Hpath. cbn [option_map].
        repeat (cbn [set_status set_error_message rec_id];
                rewrite ?Hid, ?Z.eqb_refl).
        reflexivity. }
      assert (Hnd : rec_status (reset_by_reprocess r) <> done) by (simpl; discriminate).
      rewrite process_file_unfold. unfold run, bind.
      rewrite (enqueue_existing faults _ db1 now _ Hq Hr1 Hnd).
      rewrite (attempt_success env faults _ _ result _ now Hp He).
      cbn [snd committed open_session store_after_success transcripts update_recording
           reset_by_reprocess rec_id].
      unfold transcripts_of, store_after_success.
      cbn [transcripts update_recording].
      rewrite filter_app. fold (transcripts_of id db1).
      assert (Hc1 : transcripts_of id db1 = []) by exact Hclean.
      rewrite Hc1. cbn [filter app trn_recording_id]. rewrite Hid, Z.eqb_refl.
      reflexivity.
Qed.

(** A record that was done is reprocessed: its first transcript is replaced. *)
Lemma prior_rows_deleted_by_reprocess_witness :
  map trn_id (transcripts_of 1 done_store) = [1%Z]
  /\ transcripts_of 1 (store_after_reset 1 done_store) = []
  /\ transcripts_of 1
       (snd (run (reprocess_recording stereo_call no_faults 1) done_store 200))
     = [ {| trn_id := 1; trn_recording_id := 1;
            trn_full_text := Some (u "[Customer] halo" ++ [10%N] ++ u "[Agent] dzień dobry");
            trn_language := Some (u "pl"); trn_model_used := None |} ].
Proof.
  assert (Hr : exists r, recording_by_id 1 done_store = Some r
                         /\ recording_by_filepath (rec_filepath r) done_store = Some r
                         /\ rec_filepath r = u "/watch/call.wav").
  { eexists. split; [vm_compute; reflexivity|]. split; vm_compute; reflexivity. }
  destruct Hr as (r & Hid & Hpath & Hfp).
  destruct (proj2 (prior_rows_deleted_by_reprocess stereo_call no_faults done_store 200)
              1%Z r Hid) as (_ & Hclean & _ & _ & Hnew).
  split; [vm_compute; reflexivity|]. split; [exact Hclean|].
  assert (Hp : exists result, fst (process stereo_call (rec_filepath r) []) = Ok result
             /\ full_text result = u "[Customer] halo" ++ [10%N] ++ u "[Agent] dzień dobry"
             /\ language result = u "pl").
  { rewrite Hfp. eexists. split; [vm_compute; reflexivity|]. split; vm_compute; reflexivity. }
  destruct Hp as (result & Hp & Hft & Hlang).
  rewrite (Hnew result Hpath Hp);
    [|rewrite Hfp; vm_compute; reflexivity | split; reflexivity].
  rewrite Hft, Hlang. vm_compute. reflexivity.
Defined.

(** C2, as stated, fails: [_process_file] on a record that is not done and
    still has a transcript adds the new transcript and segments next to the
    old ones. *)
Lemma process_file_keeps_prior_rows :
  let db' := snd (run (_process_file stereo_call no_faults (u "/watch/call.wav"))
                      stale_store 100) in
  option_map rec_status (recording_by_filepath (u "/watch/call.wav") stale_store)
    = Some error
  /\ option_map rec_status (recording_by_filepath (u "/watch/call.wav") db') = Some done
  /\ map trn_id (transcripts_of 1 db') = [1%Z; 2%Z]
  /\ map trn_full_text (transcripts_of 1 db')
     = [Some (u "[Agent] stary tekst");
        Some (u "[Customer] halo" ++ [10%N] ++ u "[Agent] dzień dobry")]
  /\ map sg_text (segments_of 1 db') = [u "stary tekst"]
  /\ map sg_text (segments_of 2 db') = [u "halo"; u "dzień dobry"].
Proof. repeat split; vm_compute; reflexivity. Qed.

(** ** Role swap *)

Lemma swap_label_involutive l : swap_label (swap_label l) = l.
Proof.
  destruct l as [s|]; [|reflexivity]. unfold swap_label.
  destruct (pystr_eqb s (u "agent")) eqn:Ea.
  - apply pystr_eqb_eq in Ea. subst s. reflexivity.
  - destruct (pystr_eqb s (u "customer")) eqn:Ec.
    + apply pystr_eqb_eq in Ec. subst s. reflexivity.
    + now rewrite Ea, Ec.
Qed.

Lemma swap_row_involutive s : swap_row (swap_row s) = s.
Proof.
  destruct s. unfold swap_row, set_speaker_label. cbn.
  now rewrite swap_label_involutive.
Qed.

Lemma swap_label_some l : l <> None -> swap_label l <> None.
Proof.
  destruct l as [s|]; [|tauto]. intros _. unfold swap_label.
  destruct (pystr_eqb s (u "agent")); [discriminate|].
  destruct (pystr_eqb s (u "customer")); discriminate.
Qed.

Lemma filter_map_comm {A} (g : A -> bool) (h : A -> A) l :
  (forall x, g (h x) = g x) ->
  filter g (map h l) = map h (filter g l).
Proof.
  intros Hg. induction l as [|x l IH]; simpl; [reflexivity|].
  rewrite Hg. destruct (g x); simpl; now rewrite IH.
Qed.

Lemma segments_of_update tid f db :
  (forall s, sg_transcript_id (f s) = sg_transcript_id s) ->
  segments_of tid (update_segments_of tid f db) = map f (segments_of tid db).
Proof.
  intros Hf. unfold segments_of, update_segments_of. cbn [segment_rows].
  rewrite filter_map_comm.
  - apply map_ext_in. intros s Hs. apply filter_In in Hs. now rewrite (proj2 Hs).
  - intros s. destruct (sg_transcript_id s =? tid)%Z eqn:E; [now rewrite Hf | exact E].
Qed.

Lemma insert_by_map {A} (key : A -> Q) (f : A -> A) x l :
  (forall a, key (f a) = key a) ->
  insert_by key (f x) (map f l) = map f (insert_by key x l).
Proof.
  intros Hk. induction l as [|y l IH]; simpl; [reflexivity|].
  rewrite !Hk. destruct (Qltb (key y) (key x)); simpl; [now rewrite IH | reflexivity].
Qed.

Lemma sorted_by_map {A} (key : A -> Q) (f : A -> A) l :
  (forall a, key (f a) = key a) ->
  sorted_by key (map f l) = map f (sorted_by key l).
Proof.
  intros Hk. induction l as [|x l IH]; simpl; [reflexivity|].
  rewrite IH. now apply insert_by_map.
Qed.

Lemma render_rows_labelled rows :
  Forall (fun s => sg_speaker_label s <> None) rows ->
  exists lines, render_rows rows = Ok lines.
Proof.
  induction 1 as [|s r Hs _ IH]; simpl.
  - now exists [].
  - destruct (sg_speaker_label s); [|now elim Hs].
    destruct IH as [lines ->]. eexists. reflexivity.
Qed.

Lemma rows_by_start_labelled tid db :
  Forall (fun s => sg_speaker_label s <> None) (segments_of tid db) ->
  Forall (fun s => sg_speaker_label s <> None) (rows_by_start tid db).
Proof.
  intros H. unfold rows_by_start.
  eapply Permutation_Forall; [apply Permutation_sym, sorted_by_Permutation | exact H].
Qed.

(** Rows stored in order of start time are rendered in stored order. *)
Lemma rows_by_start_stored_order tid db :
  StronglySorted (key_le sg_start_time) (segments_of tid db) ->
  rows_by_start tid db = segments_of tid db.
Proof. apply sorted_by_fixpoint. Qed.

(** One run of [swap_speakers] on a recording that has a transcript whose
    rows all carry a label. *)
Lemma swap_speakers_run id db now t rest :
  transcripts_of id db = t :: rest ->
  Forall (fun s => sg_speaker_label s <> None) (segments_of (trn_id t) db) ->
  exists text,
    rows_text (map swap_row (rows_by_start (trn_id t) db)) = Some text
    /\ swap_speakers id (open_session db now)
       = (Ok true,
          open_session
            (update_transcript (trn_id t) (set_full_text (Some text))
               (update_segments_of (trn_id t) swap_row db)) now).
Proof.
  intros Ht Hl.
  assert (Hsorted : sorted_by sg_start_time
                      (segments_of (trn_id t) (update_segments_of (trn_id t) swap_row db))
                    = map swap_row (rows_by_start (trn_id t) db)).
  { rewrite segments_of_update by reflexivity.
    now rewrite sorted_by_map by reflexivity. }
  assert (Hlab : Forall (fun s => sg_speaker_label s <> None)
                   (map swap_row (rows_by_start (trn_id t) db))).
  { apply Forall_map. eapply Forall_impl; [|apply rows_by_start_labelled, Hl].
    intros s Hs. cbn. now apply swap_label_some. }
  destruct (render_rows_labelled _ Hlab) as [lines Hlines].
  exists (join [10%N] lines). split.
  - unfold rows_text. now rewrite Hlines.
  - unfold swap_speakers, try_finally. unfold bind at 1, get_working at 1, open_session.
    cbn [working]. rewrite Ht.
    unfold bind at 1, modify_working at 1. cbn [working committed clock].
    unfold bind at 1, get_working at 1. cbn [working committed clock].
    unfold bind at 1. fold swap_row.
    change (fun s => set_speaker_label (swap_label (sg_speaker_label s)) s) with swap_row.
    rewrite Hsorted, Hlines. reflexivity.
Qed.

Lemma transcripts_of_update id tid f db :
  (forall t, trn_recording_id (f t) = trn_recording_id t) ->
  transcripts_of id (update_transcript tid f db)
  = map (fun t => if (trn_id t =? tid)%Z then f t else t) (transcripts_of id db).
Proof.
  intros Hf. unfold transcripts_of, update_transcript. cbn [transcripts].
  apply filter_map_comm. intros t.
  destruct (trn_id t =? tid)%Z; [now rewrite Hf | reflexivity].
Qed.

Lemma map_swap_rows_twice tid rows :
  map (fun s => if (sg_transcript_id s =? tid)%Z then swap_row s else s)
    (map (fun s => if (sg_transcript_id s =? tid)%Z then swap_row s else s) rows)
  = rows.
Proof.
  rewrite map_map. rewrite <- (map_id rows) at 2. apply map_ext. intros s.
  destruct (sg_transcript_id s =? tid)%Z eqn:E; [|now rewrite E].
  change (sg_transcript_id (swap_row s)) with (sg_transcript_id s).
  rewrite E. apply swap_row_involutive.
Qed.

Lemma map_set_full_text_twice tid x y ts :
  map (fun t => if (trn_id t =? tid)%Z then set_full_text y t else t)
    (map (fun t => if (trn_id t =? tid)%Z then set_full_text x t else t) ts)
  = map (fun t => if (trn_id t =? tid)%Z then set_full_text y t else t) ts.
Proof.
  rewrite map_map. apply map_ext. intros t.
  destruct (trn_id t =? tid)%Z eqn:E; [|now rewrite E].
  change (trn_id (set_full_text x t)) with (trn_id t). now rewrite E.
Qed.

Lemma map_swap_rows_content tid rows :
  map row_content
    (map (fun s => if (sg_transcript_id s =? tid)%Z then swap_row s else s) rows)
  = map row_content rows.
Proof.
  rewrite map_map. apply map_ext. intros s.
  destruct (sg_transcript_id s =? tid)%Z; reflexivity.
Qed.

Lemma map_map_swap_row rows : map swap_row (map swap_row rows) = rows.
Proof.
  rewrite map_map. rewrite <- (map_id rows) at 2. apply map_ext.
  apply swap_row_involutive.
Qed.

(** Two runs of [swap_speakers] in a row. *)
Lemma swap_twice_run id db now t rest :
  transcripts_of id db = t :: rest ->
  Forall (fun s => sg_speaker_label s <> None) (segments_of (trn_id t) db) ->
  exists text,
    rows_text (rows_by_start (trn_id t) db) = Some text
    /\ swap_twice id (open_session db now)
       = (Ok true,
          open_session (update_transcript (trn_id t) (set_full_text (Some text)) db) now).
Proof.
  intros Ht Hl.
  destruct (swap_speakers_run id db now t rest Ht Hl) as (text1 & _ & Hrun1).
  set (tid := trn_id t) in *.
  set (db1 := update_transcript tid (set_full_text (Some text1))
                (update_segments_of tid swap_row db)) in *.
  assert (Ht1 : transcripts_of id db1
                = set_full_text (Some text1) t
                  :: map (fun t' => if (trn_id t' =? tid)%Z
                                    then set_full_text (Some text1) t' else t') rest).
  { unfold db1. rewrite transcripts_of_update by reflexivity.
    change (transcripts_of id (update_segments_of tid swap_row db))
      with (transcripts_of id db).
    rewrite Ht. cbn [map]. unfold tid. now rewrite Z.eqb_refl. }
  assert (Hseg1 : segments_of tid db1 = map swap_row (segments_of tid db)).
  { change (segments_of tid db1)
      with (segments_of tid (update_segments_of tid swap_row db)).
    now apply segments_of_update. }
  assert (Hl1 : Forall (fun s => sg_speaker_label s <> None)
                  (segments_of (trn_id (set_full_text (Some text1) t)) db1)).
  { change (trn_id (set_full_text (Some text1) t)) with tid. rewrite Hseg1.
    apply Forall_map. eapply Forall_impl; [|exact Hl].
    intros s Hs. cbn. now apply swap_label_some. }
  destruct (swap_speakers_run id db1 now _ _ Ht1 Hl1) as (text2 & Htext2 & Hrun2).
  change (trn_id (set_full_text (Some text1) t)) with tid in *.
  assert (Hrows : map swap_row (rows_by_start tid db1) = rows_by_start tid db).
  { unfold rows_by_start. rewrite Hseg1.
    rewrite sorted_by_map by reflexivity. apply map_map_swap_row. }
  rewrite Hrows in Htext2.
  exists text2. split; [exact Htext2|].
  unfold swap_twice, bind. rewrite Hrun1, Hrun2. f_equal. f_equal.
  unfold db1, update_transcript, update_segments_of.
  cbn [recordings transcripts segment_rows].
  now rewrite map_swap_rows_twice, map_set_full_text_twice.
Qed.

Lemma update_transcript_same tid x db :
  (forall t, In t (transcripts db) -> trn_id t = tid -> trn_full_text t = x) ->
  update_transcript tid (set_full_text x) db = db.
Proof.
  intros H. destruct db as [rs ts ss]. unfold update_transcript.
  cbn [recordings transcripts segment_rows] in *. f_equal.
  rewrite <- (map_id ts) at 2. apply map_ext_in. intros t Hin.
  destruct (trn_id t =? tid)%Z eqn:E; [|reflexivity].
  apply Z.eqb_eq in E. specialize (H t Hin E).
  destruct t. cbn in *. now subst.
Qed.

(** C8, as the code has it. For a recording whose first transcript has
    labelled rows: one swap exchanges agent and customer on the rows of that
    transcript and leaves their identity, text, times, confidence and order as
    they were; two swaps restore every row, and set the transcript text to the
    rendering of the rows in ascending order of start time. The store is
    therefore restored exactly when the persisted text was that rendering. *)
Theorem swap_speakers_twice :
  forall (recording_id : Z) (db : DB) (now : Z) (t : Transcript) (rest : list Transcript),
    transcripts_of recording_id db = t :: rest ->
    Forall (fun s => sg_speaker_label s <> None) (segments_of (trn_id t) db) ->
    (exists db1,
       run (swap_speakers recording_id) db now = (Ok true, db1)
       /\ recordings db1 = recordings db
       /\ map row_content (segment_rows db1) = map row_content (segment_rows db)
       /\ segment_rows db1
          = map (fun s => if (sg_transcript_id s =? trn_id t)%Z then swap_row s else s)
                (segment_rows db)
       /\ map trn_id (transcripts db1) = map trn_id (transcripts db))
    /\ (exists db2 text,
          run (swap_twice recording_id) db now = (Ok true, db2)
          /\ recordings db2 = recordings db
          /\ segment_rows db2 = segment_rows db
          /\ rows_text (rows_by_start (trn_id t) db) = Some text
          /\ db2 = update_transcript (trn_id t) (set_full_text (Some text)) db)
    /\ ((forall t', In t' (transcripts db) -> trn_id t' = trn_id t ->
           trn_full_text t' = rows_text (rows_by_start (trn_id t) db)) ->
        run (swap_twice recording_id) db now = (Ok true, db)).
Proof.
  intros id db now t rest Ht Hl.
  destruct (swap_speakers_run id db now t rest Ht Hl) as (text1 & _ & Hrun1).
  destruct (swap_twice_run id db now t rest Ht Hl) as (text & Htext & Hrun2).
  split; [|split].
  - eexists. unfold run. rewrite Hrun1. cbn [committed open_session].
    split; [reflexivity|]. split; [reflexivity|].
    unfold update_transcript, update_segments_of.
    cbn [recordings transcripts segment_rows].
    split; [apply map_swap_rows_content|]. split; [reflexivity|].
    rewrite map_map. apply map_ext. intros t'.
    destruct (trn_id t' =? trn_id t)%Z; reflexivity.
  - exists (update_transcript (trn_id t) (set_full_text (Some text)) db), text.
    unfold run. rewrite Hrun2. cbn [committed open_session].
    repeat split; try reflexivity. exact Htext.
  - intros Hsame. unfold run. rewrite Hrun2. cbn [committed open_session].
    f_equal. apply update_transcript_same. intros t' Hin Hid.
    rewrite <- Htext. now apply Hsame.
Qed.

(** The stereo call: stored in order of start time, restored by two swaps. *)
Lemma swap_speakers_twice_witness :
  map sg_speaker_label (segment_rows done_store) = [Some (u "customer"); Some (u "agent")]
  /\ map sg_speaker_label
       (segment_rows (snd (run (swap_speakers 1) done_store 200)))
     = [Some (u "agent"); Some (u "customer")]
  /\ run (swap_twice 1) done_store 200 = (Ok true, done_store).
Proof.
  assert (Ht : exists t, transcripts_of 1 done_store = [t] /\ trn_id t = 1%Z).
  { eexists. split; vm_compute; reflexivity. }
  destruct Ht as (t & Ht & Htid).
  assert (Hl : Forall (fun s => sg_speaker_label s <> None)
                 (segments_of (trn_id t) done_store)).
  { rewrite Htid. vm_compute. repeat constructor; discriminate. }
  destruct (swap_speakers_twice 1 done_store 200 t [] Ht Hl) as (_ & _ & Hsame).
  split; [vm_compute; reflexivity|]. split; [vm_compute; reflexivity|].
  apply Hsame. intros t' Hin _. rewrite Htid.
  assert (Hall : Forall (fun t0 => trn_full_text t0 = rows_text (rows_by_start 1 done_store))
                   (transcripts done_store)).
  { vm_compute. repeat constructor. }
  rewrite Forall_forall in Hall. now apply Hall.
Defined.

(** C8, as stated, fails for the rendered text: a mono recording whose
    segments were stored out of time order has its lines reordered by the
    swaps. The labels are restored, the transcript text is not. *)
Lemma swap_twice_reorders_text :
  let db'' := snd (run (swap_twice 1) unordered_store 200) in
  fst (run (swap_twice 1) unordered_store 200) = Ok true
  /\ map sg_start_time (segment_rows unordered_store) = [5; 1]
  /\ segment_rows db'' = segment_rows unordered_store
  /\ map trn_full_text (transcripts unordered_store)
     = [Some (u "[Agent] do widzenia" ++ [10%N] ++ u "[Customer] halo")]
  /\ map trn_full_text (transcripts db'')
     = [Some (u "[Customer] halo" ++ [10%N] ++ u "[Agent] do widzenia")]
  /\ db'' <> unordered_store.
Proof.
  repeat split; try (vm_compute; reflexivity).
  intros H. apply (f_equal (fun d => map trn_full_text (transcripts d))) in H.
  vm_compute in H. discriminate.
Qed.

(* ===================================================================== *)
(** * Further properties of the code *)
(* ===================================================================== *)

(** ** Sums and accumulating dictionaries *)

Lemma fold_Qplus_acc l : forall a, fold_left Qplus l a == a + Qsum l.
Proof.
  unfold Qsum. induction l as [|x l IH]; intros a; simpl.
  - ring.
  - rewrite IH. rewrite (IH (0 + x)). ring.
Qed.

Lemma Qsum_cons x l : Qsum (x :: l) == x + Qsum l.
Proof. unfold Qsum at 1. simpl. rewrite fold_Qplus_acc. ring. Qed.

Lemma Qsum_nonneg l : Forall (fun x => 0 <= x) l -> 0 <= Qsum l.
Proof.
  induction 1 as [|x l Hx _ IH].
  - unfold Qsum. simpl. apply Qle_refl.
  - rewrite Qsum_cons. lra.
Qed.

Lemma dict_get_default_set {V} (d : dict V) k v k' dflt :
  dict_get_default (dict_set d k v) k' dflt
  = if pystr_eqb k k' then v else dict_get_default d k' dflt.
Proof.
  unfold dict_get_default. rewrite dict_get_set.
  destruct (pystr_eqb k k'); reflexivity.
Qed.

Lemma dict_keys_set {V} (d : dict V) k v :
  dict_keys (dict_set d k v)
  = if dict_mem d k then dict_keys d else dict_keys d ++ [k].
Proof.
  unfold dict_mem. induction d as [|[k0 v0] r IH]; simpl; [reflexivity|].
  destruct (pystr_eqb k0 k) eqn:E; simpl; [reflexivity|].
  rewrite IH. destruct (dict_get r k); reflexivity.
Qed.

Lemma dict_get_none_keys {V} (d : dict V) k :
  dict_get d k = None <-> ~ In k (dict_keys d).
Proof.
  induction d as [|[k0 v0] r IH]; simpl.
  - split; [intros _ [] | reflexivity].
  - destruct (pystr_eqb k0 k) eqn:E.
    + apply pystr_eqb_eq in E. subst. split; [discriminate | intros H; elim H; now left].
    + apply pystr_eqb_neq in E. rewrite IH. split.
      * intros H [H'|H']; [now elim E | now elim H].
      * intros H H'. apply H. now right.
Qed.

Lemma dict_set_NoDup {V} (d : dict V) k v :
  NoDup (dict_keys d) -> NoDup (dict_keys (dict_set d k v)).
Proof.
  intros H. rewrite dict_keys_set. unfold dict_mem.
  destruct (dict_get d k) eqn:E; [exact H|].
  apply dict_get_none_keys in E.
  apply NoDup_rev in H. rewrite <- (rev_involutive (dict_keys d ++ [k])).
  apply NoDup_rev. rewrite rev_app_distr. simpl. constructor; [|exact H].
  now rewrite <- in_rev.
Qed.

Lemma dict_get_In {V} (d : dict V) k v :
  NoDup (dict_keys d) -> In (k, v) d -> dict_get d k = Some v.
Proof.
  induction d as [|[k0 v0] r IH]; simpl; [tauto|].
  intros Hnd [Heq|Hin].
  - inversion Heq; subst. now rewrite pystr_eqb_refl.
  - inversion Hnd as [|? ? Hnot Hnd']; subst.
    destruct (pystr_eqb k0 k) eqn:E; [|now apply IH].
    apply pystr_eqb_eq in E. subst k0. elim Hnot.
    change k with (fst (k, v)). now apply in_map.
Qed.

Lemma dict_get_some_In {V} (d : dict V) k v :
  dict_get d k = Some v -> In (k, v) d.
Proof.
  induction d as [|[k0 v0] r IH]; simpl; [discriminate|].
  destruct (pystr_eqb k0 k) eqn:E.
  - apply pystr_eqb_eq in E. intros H. inversion H; subst. now left.
  - intros H. right. now apply IH.
Qed.

Lemma dict_add_all_NoDup items :
  forall acc, NoDup (dict_keys acc) -> NoDup (dict_keys (dict_add_all items acc)).
Proof.
  unfold dict_add_all. induction items as [|kv r IH]; intros acc H; simpl; [exact H|].
  apply IH. now apply dict_set_NoDup.
Qed.

Lemma dict_add_all_keys items k :
  forall acc,
    In k (dict_keys (dict_add_all items acc))
    <-> In k (dict_keys acc) \/ In k (map fst items).
Proof.
  unfold dict_add_all. induction items as [|kv r IH]; intros acc; simpl.
  - tauto.
  - rewrite IH. unfold dict_add at 1. rewrite dict_keys_set.
    unfold dict_mem. destruct (dict_get acc (fst kv)) as [v|] eqn:E.
    + apply dict_get_some_In in E.
      assert (In (fst kv) (dict_keys acc)).
      { change (fst kv) with (fst (fst kv, v)). now apply in_map. }
      split; [tauto|]. intros [H'|[<-|H']]; tauto.
    + rewrite in_app_iff. simpl. tauto.
Qed.

(** The value accumulated for a key is the sum of what the items gave it. *)
Lemma dict_add_all_get items k :
  forall acc,
    dict_get_default (dict_add_all items acc) k 0
    == dict_get_default acc k 0 + key_total items k.
Proof.
  unfold dict_add_all, key_total.
  induction items as [|[k0 v0] r IH]; intros acc; simpl.
  - unfold Qsum. simpl. ring.
  - rewrite IH. unfold dict_add. cbn [fst snd].
    rewrite dict_get_default_set.
    destruct (pystr_eqb k0 k) eqn:E; simpl.
    + apply pystr_eqb_eq in E. subst k0. rewrite Qsum_cons. ring.
    + ring.
Qed.

Lemma dict_set_positive (acc : dict Q) k v :
  Forall (fun kv => 0 < snd kv) acc -> 0 < v ->
  Forall (fun kv => 0 < snd kv) (dict_set acc k v).
Proof.
  intros Hacc Hv. induction Hacc as [|[k1 v1] acc' H1 Htl IHa]; simpl.
  - constructor; [exact Hv | constructor].
  - destruct (pystr_eqb k1 k); constructor; assumption.
Qed.

Lemma dict_add_all_positive items :
  Forall (fun kv => 0 < snd kv) items ->
  forall acc,
    Forall (fun kv => 0 < snd kv) acc ->
    Forall (fun kv => 0 < snd kv) (dict_add_all items acc).
Proof.
  unfold dict_add_all. induction 1 as [|kv r Hkv _ IH]; intros acc Hacc; simpl;
    [exact Hacc|].
  apply IH. unfold dict_add. apply dict_set_positive; [exact Hacc|].
  assert (Hd : 0 <= dict_get_default acc (fst kv) 0).
  { unfold dict_get_default. destruct (dict_get acc (fst kv)) as [v|] eqn:E;
      [|apply Qle_refl].
    apply dict_get_some_In in E. rewrite Forall_forall in Hacc.
    specialize (Hacc _ E). simpl in Hacc. lra. }
  lra.
Qed.

Lemma speaker_overlap_dict_add_all tseg dsegs :
  forall acc,
    fold_left (add_overlap tseg) dsegs acc
    = dict_add_all
        (map (fun d => (dia_speaker d, overlaps tseg d))
             (filter (fun d => Qltb 0 (overlaps tseg d)) dsegs)) acc.
Proof.
  unfold dict_add_all. induction dsegs as [|d r IH]; intros acc; simpl; [reflexivity|].
  rewrite IH. unfold add_overlap at 1. fold (overlaps tseg d).
  destruct (Qltb 0 (overlaps tseg d)); reflexivity.
Qed.

(** ** The speaker chosen by the alignment *)

Lemma key_total_overlap tseg dsegs sp :
  key_total (map (fun d => (dia_speaker d, overlaps tseg d))
                 (filter (fun d => Qltb 0 (overlaps tseg d)) dsegs)) sp
  == tag_overlap tseg dsegs sp.
Proof.
  unfold key_total, tag_overlap. induction dsegs as [|d r IH]; simpl.
  - reflexivity.
  - destruct (Qltb 0 (overlaps tseg d)) eqn:E; simpl;
      destruct (pystr_eqb (dia_speaker d) sp) eqn:Ek; simpl; try exact IH.
    + rewrite !Qsum_cons. now rewrite IH.
    + rewrite Qsum_cons, IH. apply Qltb_ge in E.
      pose proof (overlap_nonneg (tr_start tseg) (tr_end tseg) (dia_start d) (dia_end d)).
      unfold overlaps in *. lra.
Qed.

Lemma speaker_overlap_value tseg dsegs sp :
  dict_get_default (speaker_overlap tseg dsegs) sp 0 == tag_overlap tseg dsegs sp.
Proof.
  unfold speaker_overlap. rewrite speaker_overlap_dict_add_all.
  rewrite dict_add_all_get, key_total_overlap. unfold dict_get_default. simpl. ring.
Qed.

Lemma speaker_overlap_NoDup tseg dsegs :
  NoDup (dict_keys (speaker_overlap tseg dsegs)).
Proof.
  unfold speaker_overlap. rewrite speaker_overlap_dict_add_all.
  apply dict_add_all_NoDup. constructor.
Qed.

Lemma speaker_overlap_positive tseg dsegs :
  Forall (fun kv => 0 < snd kv) (speaker_overlap tseg dsegs).
Proof.
  unfold speaker_overlap. rewrite speaker_overlap_dict_add_all.
  apply dict_add_all_positive; [|constructor].
  apply Forall_map. apply Forall_forall. intros d Hd.
  apply filter_In in Hd. simpl. now apply Qltb_lt.
Qed.

(** The tag returned by [max] has the largest total overlap. *)
Lemma max_key_speaker_overlap tseg dsegs raw :
  max_key (speaker_overlap tseg dsegs) = Some raw ->
  0 < tag_overlap tseg dsegs raw
  /\ forall sp, tag_overlap tseg dsegs sp <= tag_overlap tseg dsegs raw.
Proof.
  intros Hmax.
  destruct (max_key_maximal _ _ Hmax) as (v & Hin & Hall).
  pose proof (speaker_overlap_NoDup tseg dsegs) as Hnd.
  pose proof (speaker_overlap_positive tseg dsegs) as Hpos.
  pose proof (dict_get_In _ _ _ Hnd Hin) as Hget.
  pose proof (speaker_overlap_value tseg dsegs raw) as Hraw.
  unfold dict_get_default in Hraw. rewrite Hget in Hraw.
  assert (Hv : 0 < v).
  { rewrite Forall_forall in Hpos. exact (Hpos _ Hin). }
  split; [lra|]. intros sp.
  pose proof (speaker_overlap_value tseg dsegs sp) as Hsp.
  unfold dict_get_default in Hsp.
  destruct (dict_get (speaker_overlap tseg dsegs) sp) as [v'|] eqn:E.
  - apply dict_get_some_In in E. specialize (Hall _ _ E). lra.
  - lra.
Qed.

(** X1. A transcription segment that overlaps some diarization segment is
    labelled through the speaker tag whose diarization segments overlap it
    longest in total: the role is the one the role map gives that tag, or
    customer when the map has no entry for it. *)
Theorem align_follows_largest_overlap :
  forall (transcription : TranscriptionResult) (diarization : DiarizationResult)
         (speaker_map : dict SpeakerLabel) (i : nat) (tseg : TranscriptionSegment)
         (dseg : DiarizationSegment),
    nth_error (tr_segments transcription) i = Some tseg ->
    In dseg (dia_segments diarization) ->
    0 < overlaps tseg dseg ->
    exists raw_speaker aligned,
      nth_error (_align_segments transcription diarization speaker_map) i = Some aligned
      /\ seg_speaker aligned = dict_get_default speaker_map raw_speaker customer
      /\ 0 < tag_overlap tseg (dia_segments diarization) raw_speaker
      /\ forall sp, tag_overlap tseg (dia_segments diarization) sp
                    <= tag_overlap tseg (dia_segments diarization) raw_speaker.
Proof.
  intros t d m i tseg dseg Hi Hin Hov.
  assert (Hne : speaker_overlap tseg (dia_segments d) <> []).
  { intros Hnil.
    pose proof (proj1 (speaker_overlap_nil_iff tseg (dia_segments d)) Hnil dseg Hin).
    lra. }
  apply max_key_some_iff in Hne. destruct Hne as [raw Hmax].
  exists raw. eexists. split; [exact (align_nth t d m i tseg Hi)|].
  split; [unfold align_one; now rewrite Hmax|].
  now apply max_key_speaker_overlap.
Qed.

(** Scenario A: a segment over [1,4] against X on [0,5] and Y on [5,10]. *)
Lemma align_follows_largest_overlap_witness :
  exists raw_speaker aligned,
    nth_error (_align_segments
                 (mk_transcription [mk_tseg "halo" 1 4])
                 (mk_diarization [mk_dseg "X" 0 5; mk_dseg "Y" 5 10])
                 [(u "X", customer); (u "Y", agent)]) 0 = Some aligned
    /\ seg_speaker aligned
       = dict_get_default [(u "X", customer); (u "Y", agent)] raw_speaker customer
    /\ 0 < tag_overlap (mk_tseg "halo" 1 4) [mk_dseg "X" 0 5; mk_dseg "Y" 5 10] raw_speaker
    /\ forall sp, tag_overlap (mk_tseg "halo" 1 4) [mk_dseg "X" 0 5; mk_dseg "Y" 5 10] sp
                  <= tag_overlap (mk_tseg "halo" 1 4)
                       [mk_dseg "X" 0 5; mk_dseg "Y" 5 10] raw_speaker.
Proof.
  apply (align_follows_largest_overlap
           (mk_transcription [mk_tseg "halo" 1 4])
           (mk_diarization [mk_dseg "X" 0 5; mk_dseg "Y" 5 10])
           [(u "X", customer); (u "Y", agent)] 0 (mk_tseg "halo" 1 4) (mk_dseg "X" 0 5)).
  - reflexivity.
  - left. reflexivity.
  - vm_compute. reflexivity.
Defined.

(** ** Word confidence *)

Lemma Qsum_le_length l :
  Forall (fun x => 0 <= x <= 1) l -> 0 <= Qsum l /\ Qsum l <= Qnat (length l).
Proof.
  induction 1 as [|x l [Hx0 Hx1] _ [IH0 IH1]].
  - unfold Qsum, Qnat. simpl. split; apply Qle_refl.
  - rewrite Qsum_cons. unfold Qnat in *.
    change (length (x :: l)) with (S (length l)).
    rewrite Nat2Z.inj_succ, <- Z.add_1_r, inject_Z_plus.
    change (inject_Z 1) with 1.
    split; lra.
Qed.

(** X2. The confidence of a segment is absent exactly when the segment has
    no words; when every word probability lies in [0,1], so does the
    confidence. *)
Theorem avg_word_confidence_range :
  forall seg : TranscriptionSegment,
    (_avg_word_confidence seg = None <-> tr_words seg = [])
    /\ (Forall (fun w => 0 <= w_probability w <= 1) (tr_words seg) ->
        forall c, _avg_word_confidence seg = Some c -> 0 <= c <= 1).
Proof.
  intros seg. unfold _avg_word_confidence.
  destruct (tr_words seg) as [|w ws] eqn:Hw.
  - split; [tauto|]. intros _ c H. discriminate.
  - split; [split; discriminate|].
    intros Hall c Hc. inversion Hc as [Hc']. clear Hc. subst c.
    assert (Hp : Forall (fun x => 0 <= x <= 1) (map w_probability (w :: ws))).
    { apply Forall_map. exact Hall. }
    destruct (Qsum_le_length _ Hp) as [H0 H1]. rewrite length_map in H1.
    assert (Hn : 0 < Qnat (length (w :: ws))).
    { unfold Qnat. change 0 with (inject_Z 0). rewrite <- Zlt_Qlt. simpl. lia. }
    change (map w_probability (w :: ws)) with (w_probability w :: map w_probability ws)
      in H0, H1.
    change (length (w :: ws)) with (S (length ws)) in H1, Hn.
    split.
    + apply Qle_shift_div_l; [exact Hn|]. lra.
    + apply Qle_shift_div_r; [exact Hn|]. lra.
Qed.

Lemma avg_word_confidence_range_witness :
  let seg := {| tr_text := u "tak"; tr_start := 0; tr_end := 1;
                tr_words := [ {| w_word := u "tak"; w_start := 0; w_end := 1;
                                 w_probability := 1 # 2 |};
                              {| w_word := u "tak"; w_start := 0; w_end := 1;
                                 w_probability := 1 |} ];
                tr_avg_logprob := 0; tr_no_speech_prob := 0 |} in
  exists c, _avg_word_confidence seg = Some c /\ 0 <= c <= 1.
Proof.
  intros seg.
  assert (Hc : exists c, _avg_word_confidence seg = Some c).
  { eexists. reflexivity. }
  destruct Hc as [c Hc]. exists c. split; [exact Hc|].
  apply (proj2 (avg_word_confidence_range seg)); [|exact Hc].
  repeat constructor; simpl; lra.
Defined.

(** ** The candidates of the role classifier *)

Lemma speaking_time_fold dsegs :
  forall st,
    speaking_time (fold_left gather_step dsegs st)
    = dict_add_all (map (fun s => (dia_speaker s, dia_end s - dia_start s)) dsegs)
                   (speaking_time st).
Proof.
  unfold dict_add_all. induction dsegs as [|s r IH]; intros st; simpl; [reflexivity|].
  now rewrite IH.
Qed.

Lemma speaking_time_items dsegs :
  speaking_time (gather_stats dsegs)
  = dict_add_all (map (fun s => (dia_speaker s, dia_end s - dia_start s)) dsegs) [].
Proof. unfold gather_stats. now rewrite speaking_time_fold. Qed.

Lemma key_total_duration dsegs sp :
  key_total (map (fun s => (dia_speaker s, dia_end s - dia_start s)) dsegs) sp
  = tag_duration dsegs sp.
Proof.
  unfold key_total, tag_duration. f_equal.
  induction dsegs as [|d r IH]; simpl; [reflexivity|].
  destruct (pystr_eqb (dia_speaker d) sp); simpl; now rewrite IH.
Qed.

(** The speaking time recorded for a tag is the total duration of its
    diarization segments. *)
Lemma speaking_time_value dsegs sp :
  dict_get_default (speaking_time (gather_stats dsegs)) sp 0 == tag_duration dsegs sp.
Proof.
  rewrite speaking_time_items, dict_add_all_get, key_total_duration.
  unfold dict_get_default. simpl. ring.
Qed.

Lemma speaking_time_NoDup dsegs :
  NoDup (dict_keys (speaking_time (gather_stats dsegs))).
Proof. rewrite speaking_time_items. apply dict_add_all_NoDup. constructor. Qed.

Lemma speaking_time_keys dsegs k :
  In k (dict_keys (speaking_time (gather_stats dsegs)))
  <-> In k (map dia_speaker dsegs).
Proof.
  rewrite speaking_time_items, dict_add_all_keys, map_map. simpl. tauto.
Qed.

Lemma insert_desc_Permutation x l : Permutation (insert_desc x l) (x :: l).
Proof.
  induction l as [|y r IH]; simpl; [apply Permutation_refl|].
  destruct (Qltb (snd x) (snd y)); [|apply Permutation_refl].
  eapply Permutation_trans; [apply perm_skip, IH | apply perm_swap].
Qed.

Lemma sort_desc_Permutation (d : dict Q) :
  Permutation (fold_right insert_desc [] d) d.
Proof.
  induction d as [|x d IH]; simpl; [constructor|].
  eapply Permutation_trans; [apply insert_desc_Permutation | now apply perm_skip].
Qed.

Lemma insert_desc_sorted x l :
  StronglySorted value_ge l -> StronglySorted value_ge (insert_desc x l).
Proof.
  induction 1 as [|y r Hs IH Hall]; simpl.
  - repeat constructor.
  - destruct (Qltb (snd x) (snd y)) eqn:E; [apply Qltb_lt in E | apply Qltb_ge in E].
    + constructor; [exact IH|].
      eapply Permutation_Forall; [apply Permutation_sym, insert_desc_Permutation|].
      constructor; [unfold value_ge; lra | exact Hall].
    + constructor; [now constructor|].
      constructor; [exact E|].
      eapply Forall_impl; [|exact Hall]. unfold value_ge. intros z Hz. lra.
Qed.

Lemma sort_desc_sorted (d : dict Q) :
  StronglySorted value_ge (fold_right insert_desc [] d).
Proof.
  induction d as [|x d IH]; simpl; [constructor | now apply insert_desc_sorted].
Qed.

Lemma sorted_desc_Permutation (d : dict Q) :
  Permutation (sorted_desc d) (dict_keys d).
Proof. unfold sorted_desc, dict_keys. apply Permutation_map, sort_desc_Permutation. Qed.

Lemma NoDup_firstn {A} n (l : list A) : NoDup l -> NoDup (firstn n l).
Proof.
  intros H. revert n. induction H as [|x l Hx Hl IH]; intros [|n]; simpl;
    try constructor; [|apply IH].
  intros Hin. apply Hx. rewrite <- (firstn_skipn n l). apply in_or_app. now left.
Qed.

Lemma In_firstn {A} n (l : list A) x : In x (firstn n l) -> In x l.
Proof.
  intros H. rewrite <- (firstn_skipn n l). apply in_or_app. now left.
Qed.

Lemma top_speakers_NoDup dsegs : NoDup (top_speakers dsegs).
Proof.
  unfold top_speakers. apply NoDup_firstn.
  eapply Permutation_NoDup; [apply Permutation_sym, sorted_desc_Permutation|].
  apply speaking_time_NoDup.
Qed.

Lemma top_speakers_tags dsegs k :
  In k (top_speakers dsegs) -> In k (map dia_speaker dsegs).
Proof.
  unfold top_speakers. intros H. apply In_firstn in H.
  apply speaking_time_keys.
  eapply Permutation_in; [apply sorted_desc_Permutation | exact H].
Qed.

Lemma nodup_same_length (l1 l2 : list pystr) :
  NoDup l1 -> NoDup l2 -> (forall x, In x l1 <-> In x l2) -> length l1 = length l2.
Proof.
  intros H1 H2 H. apply Permutation_length. now apply NoDup_Permutation.
Qed.

Lemma speaking_time_length dsegs :
  length (speaking_time (gather_stats dsegs)) = distinct_tags dsegs.
Proof.
  unfold distinct_tags. rewrite <- (length_map fst).
  apply nodup_same_length.
  - apply speaking_time_NoDup.
  - apply NoDup_nodup.
  - intros x. fold (dict_keys (speaking_time (gather_stats dsegs))).
    rewrite speaking_time_keys. symmetry. apply nodup_In.
Qed.

Lemma top_speakers_length dsegs :
  length (top_speakers dsegs) = Nat.min 2 (distinct_tags dsegs).
Proof.
  unfold top_speakers. rewrite length_firstn.
  rewrite (Permutation_length (sorted_desc_Permutation _)).
  unfold dict_keys. now rewrite length_map, speaking_time_length.
Qed.

Lemma distinct_tags_zero dsegs : distinct_tags dsegs = O <-> dsegs = [].
Proof.
  unfold distinct_tags. split.
  - destruct dsegs as [|d r]; [reflexivity|]. intros H.
    assert (Hin : In (dia_speaker d)
                    (nodup (list_eq_dec N.eq_dec) (map dia_speaker (d :: r)))).
    { apply nodup_In. now left. }
    destruct (nodup _ _); [destruct Hin | discriminate].
  - intros ->. reflexivity.
Qed.

(** X3. The role map has as many entries as there are distinct speaker tags,
    up to two: it is empty exactly for a diarization without segments. Its
    keys are distinct tags of the diarization, and when it has two entries
    the first is the agent and the second the customer. *)
Theorem role_map_shape :
  forall (diarization : DiarizationResult) (transcription : TranscriptionResult),
    let m := _label_speakers_smart diarization transcription in
    length m = Nat.min 2 (distinct_tags (dia_segments diarization))
    /\ (m = [] <-> dia_segments diarization = [])
    /\ NoDup (dict_keys m)
    /\ (forall k, In k (dict_keys m) ->
          exists dseg, In dseg (dia_segments diarization) /\ dia_speaker dseg = k)
    /\ (length m = 2%nat -> dict_values m = [agent; customer]).
Proof.
  intros [dsegs n] t m. cbn [dia_segments].
  assert (Hkeys : m = [] /\ dsegs = []
                  \/ dsegs <> [] /\ Permutation (dict_keys m) (top_speakers dsegs)
                     /\ (length m = 2%nat -> dict_values m = [agent; customer])).
  { subst m. unfold _label_speakers_smart. cbn [dia_segments].
    destruct dsegs as [|d0 dr]; [now left|]. right. split; [discriminate|].
    pose proof (top_speakers_length (d0 :: dr)) as Hlen.
    assert (Hpos : distinct_tags (d0 :: dr) <> O).
    { intros H. apply distinct_tags_zero in H. discriminate. }
    destruct (top_speakers (d0 :: dr)) as [|a [|b [|c r]]] eqn:Htop.
    - simpl in Hlen. destruct (distinct_tags (d0 :: dr)) as [|[|k]]; simpl in Hlen;
        [now elim Hpos | discriminate | discriminate].
    - cbv zeta. destruct (_ && _); simpl; (split; [apply Permutation_refl | discriminate]).
    - destruct (Qle_bool _ _); simpl; (split; [|reflexivity]);
        [apply Permutation_refl | apply perm_swap].
    - simpl in Hlen. destruct (distinct_tags (d0 :: dr)) as [|[|k]]; simpl in Hlen;
        discriminate. }
  destruct Hkeys as [[Hm Hd] | (Hne & Hperm & Hroles)].
  - rewrite Hm, Hd. simpl. repeat split; try tauto; try constructor.
    discriminate.
  - assert (Hlen : length m = Nat.min 2 (distinct_tags dsegs)).
    { rewrite <- top_speakers_length, <- (Permutation_length Hperm).
      unfold dict_keys. now rewrite length_map. }
    split; [exact Hlen|]. split; [|split; [|split; [|exact Hroles]]].
    + split; [|tauto]. intros Hm. exfalso. rewrite Hm in Hlen. simpl in Hlen.
      destruct (distinct_tags dsegs) as [|k] eqn:E.
      * apply distinct_tags_zero in E. contradiction.
      * destruct k; discriminate.
    + eapply Permutation_NoDup; [apply Permutation_sym, Hperm|].
      apply top_speakers_NoDup.
    + intros k Hk. apply (Permutation_in _ Hperm) in Hk.
      apply top_speakers_tags in Hk. apply in_map_iff in Hk.
      destruct Hk as (dseg & Hs & Hin). now exists dseg.
Qed.

(** Three speakers, of whom the two who speak longest are kept. *)
Lemma role_map_shape_witness :
  let d := mk_diarization [mk_dseg "A" 0 10; mk_dseg "B" 10 20; mk_dseg "C" 20 25] in
  let t := mk_transcription [mk_tseg "dzień dobry" 1 9; mk_tseg "halo" 21 24] in
  dict_values (_label_speakers_smart d t) = [agent; customer].
Proof.
  intros d t.
  apply (proj2 (proj2 (proj2 (proj2 (role_map_shape d t))))).
  vm_compute. reflexivity.
Defined.

Lemma StronglySorted_app_order {A} (R : A -> A -> Prop) l1 l2 :
  StronglySorted R (l1 ++ l2) ->
  forall x y, In x l1 -> In y l2 -> R x y.
Proof.
  induction l1 as [|a l1 IH]; simpl; intros Hs x y Hx Hy; [destruct Hx|].
  inversion Hs as [|? ? Hs' Hall]; subst.
  destruct Hx as [<-|Hx].
  - rewrite Forall_forall in Hall. apply Hall. apply in_or_app. now right.
  - now apply IH.
Qed.

(** X4. The candidates of the classifier are the tags with the longest
    total speaking time: a tag that is not a candidate never has more
    speaking time than a candidate. *)
Theorem candidates_speak_longest :
  forall (dsegs : list DiarizationSegment) (a b : pystr),
    In a (top_speakers dsegs) ->
    In b (map dia_speaker dsegs) ->
    ~ In b (top_speakers dsegs) ->
    tag_duration dsegs b <= tag_duration dsegs a.
Proof.
  intros dsegs a b Ha Hb Hnb.
  set (d := speaking_time (gather_stats dsegs)) in *.
  set (L := fold_right insert_desc [] d).
  assert (Htop : top_speakers dsegs = map fst (firstn 2 L)).
  { unfold top_speakers, sorted_desc. fold d. fold L. now rewrite firstn_map. }
  pose proof (sort_desc_Permutation d) as HP. fold L in HP.
  pose proof (sort_desc_sorted d) as HS. fold L in HS.
  pose proof (speaking_time_NoDup dsegs) as Hnd. fold d in Hnd.
  rewrite Htop in Ha. apply in_map_iff in Ha. destruct Ha as ([a' va] & Hfa & Ha).
  simpl in Hfa. subst a'.
  apply speaking_time_keys in Hb. fold d in Hb. unfold dict_keys in Hb.
  apply in_map_iff in Hb. destruct Hb as ([b' vb] & Hfb & Hb). simpl in Hfb. subst b'.
  assert (HbL : In (b, vb) L) by (eapply Permutation_in; [apply Permutation_sym, HP | exact Hb]).
  rewrite <- (firstn_skipn 2 L) in HbL, HS. apply in_app_or in HbL.
  destruct HbL as [HbL|HbL].
  - elim Hnb. rewrite Htop. change b with (fst (b, vb)). now apply in_map.
  - pose proof (StronglySorted_app_order _ _ _ HS _ _ Ha HbL) as Hge.
    unfold value_ge in Hge. simpl in Hge.
    assert (Had : In (a, va) d).
    { eapply Permutation_in; [exact HP|]. now apply In_firstn in Ha. }
    pose proof (speaking_time_value dsegs a) as Hva.
    pose proof (speaking_time_value dsegs b) as Hvb.
    fold d in Hva, Hvb. unfold dict_get_default in Hva, Hvb.
    rewrite (dict_get_In _ _ _ Hnd Had) in Hva.
    rewrite (dict_get_In _ _ _ Hnd Hb) in Hvb. lra.
Qed.

Lemma candidates_speak_longest_witness :
  tag_duration [mk_dseg "A" 0 10; mk_dseg "C" 20 25; mk_dseg "B" 10 20] (u "C")
  <= tag_duration [mk_dseg "A" 0 10; mk_dseg "C" 20 25; mk_dseg "B" 10 20] (u "B").
Proof.
  apply candidates_speak_longest.
  - vm_compute. right. left. reflexivity.
  - vm_compute. right. left. reflexivity.
  - vm_compute. intros [H|[H|[]]]; discriminate.
Defined.

(** ** Range of the scores *)

Lemma Qnat_le n m : (n <= m)%nat -> Qnat n <= Qnat m.
Proof. intros H. unfold Qnat. rewrite <- Zle_Qle. lia. Qed.

Lemma Qnat_nonneg n : 0 <= Qnat n.
Proof. unfold Qnat. change 0 with (inject_Z 0). rewrite <- Zle_Qle. lia. Qed.

(** X5. The score of a speaker lies between -3.5 for each text attributed
    to the speaker and 155.5: at most 3.0 for each of the 50 agent patterns
    plus the four bonuses, at least the two penalties for every text. *)
Theorem speaker_score_range :
  forall (st : dia_stats) (texts : list pystr) (sp : pystr),
    - ((7 # 2) * Qnat (length texts)) <= speaker_score st texts sp
    /\ speaker_score st texts sp <= 311 # 2.
Proof.
  intros st texts sp. rewrite speaker_score_decomposition.
  unfold signal_agent_phrases, other_signals.
  assert (Hc : Qnat (agent_phrase_count texts) <= 50).
  { change 50 with (Qnat 50). apply Qnat_le.
    unfold agent_phrase_count, _count_phrase_matches.
    etransitivity; [apply filter_length_le|]. vm_compute. lia. }
  pose proof (Qnat_nonneg (agent_phrase_count texts)) as Hc0.
  pose proof (Qnat_le _ _ (filter_length_le
    (fun t => (0 <? _count_phrase_matches t _CUSTOMER_SHORT_RESPONSES)%nat) texts)) as Hr.
  pose proof (Qnat_le _ _ (filter_length_le
    (fun t => (word_count t <? 5)%nat) texts)) as Hs.
  fold (short_responses texts) in Hr. fold (short_segment_count texts) in Hs.
  pose proof (Qnat_nonneg (short_responses texts)) as Hr0.
  pose proof (Qnat_nonneg (short_segment_count texts)) as Hs0.
  destruct (Qltb (11 # 20) (time_pct st sp));
    destruct (3 <=? distinct_agent texts)%nat;
    destruct (speaks_first st sp);
    destruct texts as [|t0 texts']; try destruct (Qltb 8 (avg_words (t0 :: texts')));
    split; lra.
Qed.

(** ** Segments that no candidate receives *)

Lemma texts_of_attributed dsegs tsegs sp :
  texts_of dsegs (filter (attributed_to_candidate dsegs) tsegs) sp
  = texts_of dsegs tsegs sp.
Proof.
  rewrite !texts_of_filter.
  destruct (existsb (fun k => pystr_eqb k sp) (top_speakers dsegs)) eqn:E; [|reflexivity].
  f_equal. rewrite filter_filter. apply filter_ext. intros x.
  destruct (best_is dsegs sp x) eqn:Hb; [|apply andb_false_r].
  rewrite andb_true_r. unfold attributed_to_candidate.
  apply existsb_exists in E. destruct E as (k & Hk & Heq).
  apply pystr_eqb_eq in Heq. subst k.
  apply existsb_exists. now exists sp.
Qed.

(** X6. Transcription segments that are attributed to no candidate (they
    overlap nothing, or mostly a speaker outside the top two) have no
    influence on the scores or on the role map: removing them changes
    neither. *)
Theorem classifier_ignores_unattributed :
  forall (diarization : DiarizationResult) (transcription : TranscriptionResult),
    let kept := filter (attributed_to_candidate (dia_segments diarization))
                       (tr_segments transcription) in
    speaker_scores (dia_segments diarization) kept
    = speaker_scores (dia_segments diarization) (tr_segments transcription)
    /\ _label_speakers_smart diarization (with_segments transcription kept)
       = _label_speakers_smart diarization transcription.
Proof.
  intros [dsegs n] t kept. cbn [dia_segments] in *.
  assert (Hsc : speaker_scores dsegs kept = speaker_scores dsegs (tr_segments t)).
  { unfold speaker_scores. apply map_ext. intros sp. subst kept.
    now rewrite texts_of_attributed. }
  split; [exact Hsc|].
  unfold _label_speakers_smart. cbn [dia_segments tr_segments with_segments].
  rewrite Hsc. subst kept.
  destruct dsegs as [|d0 dr]; [reflexivity|].
  destruct (top_speakers (d0 :: dr)) as [|a [|b [|c r]]]; try reflexivity.
  cbv zeta. now rewrite texts_of_attributed.
Qed.

(** ** The mono route *)

Lemma process_routes_mono env path audio :
  path_exists env path = true ->
  load_audio env path = Ok audio ->
  (channels audio < 2)%Z ->
  process env path [] = _run_mono_pipeline env path [].
Proof.
  intros Hex Hload Hch.
  assert (Hge : (channels audio >=? 2)%Z = false).
  { rewrite Z.geb_leb. apply Z.leb_gt. lia. }
  unfold process. rewrite Hex. cbn [negb].
  unfold P_bind at 1, P_lift at 1. now rewrite Hload, Hge.
Qed.

Lemma label_speakers_no_diarization d t :
  dia_segments d = [] -> _label_speakers_smart d t = [].
Proof. intros H. unfold _label_speakers_smart. now rewrite H. Qed.

Lemma align_no_diarization t d m :
  dia_segments d = [] ->
  Forall (fun s => seg_speaker s = agent) (_align_segments t d m).
Proof.
  intros H. unfold _align_segments. rewrite H. apply Forall_map.
  apply Forall_forall. intros tseg _. reflexivity.
Qed.

(** X7. For decoded audio with fewer than two channels the pipeline calls
    the diarization service, then the recognition service on the whole file,
    then the role classifier, in this order and once each; an exception of a
    service ends the run before the later calls. The result has mode mono,
    the speaker count reported by the diarization and one aligned segment for
    each recognised segment; when the diarization has no segment, every
    segment is labelled agent. *)
Theorem mono_route :
  forall (env : Env) (audio_path : pystr) (audio : Audio),
    path_exists env audio_path = true ->
    load_audio env audio_path = Ok audio ->
    (channels audio < 2)%Z ->
    (forall e, diarize env audio_path = Raise e ->
       process env audio_path [] = (Raise e, [EvDiarize audio_path]))
    /\ (forall d e, diarize env audio_path = Ok d ->
          transcribe env (WavFile audio_path) = Raise e ->
          process env audio_path []
          = (Raise e, [EvDiarize audio_path; EvTranscribe (WavFile audio_path)]))
    /\ (forall d t, diarize env audio_path = Ok d ->
          transcribe env (WavFile audio_path) = Ok t ->
          exists result,
            process env audio_path []
            = (Ok result, [EvDiarize audio_path; EvTranscribe (WavFile audio_path);
                           EvClassify])
            /\ channel_mode result = mono
            /\ num_speakers result = dia_num_speakers d
            /\ segments result = _align_segments t d (_label_speakers_smart d t)
            /\ length (segments result) = length (tr_segments t)
            /\ full_text result = _build_full_text (segments result)
            /\ language result = tr_language t
            /\ duration result = tr_duration t
            /\ (dia_segments d = [] ->
                Forall (fun s => seg_speaker s = agent) (segments result))).
Proof.
  intros env path audio Hex Hload Hch.
  rewrite (process_routes_mono env path audio Hex Hload Hch).
  unfold _run_mono_pipeline, call_diarize, call_transcribe, call_label_speakers,
    P_bind, P_log, P_lift, P_ret. cbn [app].
  split; [|split].
  - intros e He. now rewrite He.
  - intros d e Hd He. now rewrite Hd, He.
  - intros d t Hd Ht. rewrite Hd, Ht. eexists. split; [reflexivity|].
    cbn [segments full_text num_speakers channel_mode language duration].
    repeat split; try reflexivity.
    + apply align_length.
    + intros Hnil. now apply align_no_diarization.
Qed.

(** A single-channel call whose diarization found nothing. *)
Lemma mono_route_witness :
  let env := {| path_exists := fun _ => true;
                load_audio := fun _ => Ok {| channels := 1 |};
                transcribe := fun _ => Ok (mk_transcription [mk_tseg "halo" 1 2]);
                diarize := fun _ => Ok (mk_diarization []) |} in
  exists result,
    process env (u "mono.wav") []
    = (Ok result, [EvDiarize (u "mono.wav"); EvTranscribe (WavFile (u "mono.wav"));
                   EvClassify])
    /\ channel_mode result = mono
    /\ Forall (fun s => seg_speaker s = agent) (segments result).
Proof.
  intros env.
  assert (Hch : (channels {| channels := 1 |} < 2)%Z) by (simpl; lia).
  destruct (proj2 (proj2 (mono_route env (u "mono.wav") {| channels := 1 |}
                            eq_refl eq_refl Hch))
              (mk_diarization []) (mk_transcription [mk_tseg "halo" 1 2])
              eq_refl eq_refl)
    as (result & Hrun & Hm & _ & _ & _ & _ & _ & _ & Hag).
  exists result. split; [exact Hrun|]. split; [exact Hm|]. now apply Hag.
Defined.

(** ** Stability of the merge and the stereo route *)

Lemma insert_by_filter_key {A} (key : A -> Q) k x l :
  filter (fun y => Qeq_bool (key y) k) (insert_by key x l)
  = if Qeq_bool (key x) k
    then x :: filter (fun y => Qeq_bool (key y) k) l
    else filter (fun y => Qeq_bool (key y) k) l.
Proof.
  induction l as [|y r IH]; simpl.
  - destruct (Qeq_bool (key x) k); reflexivity.
  - destruct (Qltb (key y) (key x)) eqn:E; simpl.
    + rewrite IH. apply Qltb_lt in E.
      destruct (Qeq_bool (key x) k) eqn:Ex, (Qeq_bool (key y) k) eqn:Ey;
        try reflexivity.
      apply Qeq_bool_iff in Ex. apply Qeq_bool_iff in Ey. lra.
    + destruct (Qeq_bool (key x) k); reflexivity.
Qed.

(** The sort is stable: the elements of equal key keep their order. *)
Lemma sorted_by_stable {A} (key : A -> Q) k l :
  filter (fun y => Qeq_bool (key y) k) (sorted_by key l)
  = filter (fun y => Qeq_bool (key y) k) l.
Proof.
  induction l as [|x l IH]; simpl; [reflexivity|].
  rewrite insert_by_filter_key, IH. reflexivity.
Qed.

Lemma filter_map_swap_key {A B} (f : A -> B) (p : B -> bool) l :
  map f (filter (fun x => p (f x)) l) = filter p (map f l).
Proof.
  induction l as [|x l IH]; simpl; [reflexivity|].
  destruct (p (f x)); simpl; now rewrite IH.
Qed.

Lemma process_stereo_ok env path agent_result customer_result :
  path_exists env path = true ->
  load_audio env path = Ok {| channels := 2 |} ->
  transcribe env (MonoChannel path 0) = Ok agent_result ->
  transcribe env (MonoChannel path 1) = Ok customer_result ->
  fst (process env path [])
  = Ok (let segs := sorted_by seg_start
                      (map (channel_segment agent) (tr_segments agent_result)
                       ++ map (channel_segment customer) (tr_segments customer_result)) in
        {| segments := segs;
           full_text := _build_full_text segs;
           language := tr_language agent_result;
           duration := py_max (tr_duration agent_result) (tr_duration customer_result);
           num_speakers := 2;
           channel_mode := stereo;
           raw_transcription := None;
           raw_diarization := None |}).
Proof.
  intros Hex Hload Ha Hc.
  rewrite (process_routes_stereo env path _ Hex Hload) by (simpl; lia).
  unfold _run_stereo_pipeline, _split_stereo. cbn [channels Z.eqb Pos.eqb negb].
  unfold P_bind, P_ret, call_transcribe, P_bind, P_log, P_lift. cbn [fst snd app].
  now rewrite Ha, Hc.
Qed.

(** X8. In a stereo result the segments that start at the same time keep
    the order agent channel first, customer channel second, and within a
    channel the order of the recognition; the duration is the larger of the
    two channel durations (it is one of them, and neither exceeds it) and
    the language is that of the agent channel. *)
Theorem stereo_merge_is_stable :
  forall (env : Env) (audio_path : pystr)
         (agent_result customer_result : TranscriptionResult),
    path_exists env audio_path = true ->
    load_audio env audio_path = Ok {| channels := 2 |} ->
    transcribe env (MonoChannel audio_path 0) = Ok agent_result ->
    transcribe env (MonoChannel audio_path 1) = Ok customer_result ->
    exists result,
      fst (process env audio_path []) = Ok result
      /\ (forall k,
            filter (fun s => Qeq_bool (seg_start s) k) (segments result)
            = map (channel_segment agent)
                  (filter (fun s => Qeq_bool (tr_start s) k) (tr_segments agent_result))
              ++ map (channel_segment customer)
                   (filter (fun s => Qeq_bool (tr_start s) k)
                           (tr_segments customer_result)))
      /\ duration result
         = py_max (tr_duration agent_result) (tr_duration customer_result)
      /\ tr_duration agent_result <= duration result
      /\ tr_duration customer_result <= duration result
      /\ (duration result = tr_duration agent_result
          \/ duration result = tr_duration customer_result)
      /\ language result = tr_language agent_result.
Proof.
  intros env path ra rc Hex Hload Ha Hc.
  eexists. split; [exact (process_stereo_ok env path ra rc Hex Hload Ha Hc)|].
  cbn [segments duration language].
  split; [|split; [reflexivity|split; [|split; [|split; [|reflexivity]]]]].
  - intros k. rewrite sorted_by_stable, filter_app.
    f_equal; rewrite <- filter_map_swap_key; reflexivity.
  - unfold py_max. q_cases; lra.
  - unfold py_max. q_cases; lra.
  - unfold py_max. destruct (Qltb _ _); [right | left]; reflexivity.
Qed.

(** Two segments that start together, one on each channel. *)
Lemma stereo_merge_is_stable_witness :
  let env := env_of_channels 2 [mk_tseg "dzień dobry" 0 2] [mk_tseg "halo" 0 1] in
  exists result,
    fst (process env (u "call.wav") []) = Ok result
    /\ map seg_speaker (filter (fun s => Qeq_bool (seg_start s) 0) (segments result))
       = [agent; customer].
Proof.
  intros env.
  destruct (stereo_merge_is_stable env (u "call.wav")
              (mk_transcription [mk_tseg "dzień dobry" 0 2])
              (mk_transcription [mk_tseg "halo" 0 1])
              eq_refl eq_refl eq_refl eq_refl)
    as (result & Hrun & Hties & _).
  exists result. split; [exact Hrun|]. rewrite (Hties 0). reflexivity.
Defined.

(** ** Outcomes of [_process_file] *)

Lemma by_filepath_after_success p result clk db1 r1 :
  recording_by_filepath p db1 = Some r1 ->
  recording_by_filepath p (store_after_success (rec_id r1) result clk db1)
  = Some {| rec_id := rec_id r1; rec_filename := rec_filename r1;
            rec_filepath := rec_filepath r1;
            rec_duration_seconds := Some (duration result);
            rec_created_at := rec_created_at r1;
            rec_processed_at := Some clk; rec_status := done;
            rec_error_message := rec_error_message r1 |}.
Proof.
  intros Hr.
  change (recording_by_filepath p (store_after_success (rec_id r1) result clk db1))
    with (recording_by_filepath p
            (update_recording (rec_id r1) (set_processed_at (Some clk))
               (update_recording (rec_id r1) (set_duration_seconds (Some (duration result)))
                  (update_recording (rec_id r1) (set_status done)
                     (update_recording (rec_id r1) (set_status processing) db1))))).
  rewrite !recording_by_filepath_update by reflexivity. rewrite Hr.
  cbn [option_map].
  repeat (cbn [set_status set_duration_seconds set_processed_at rec_id];
          rewrite ?Z.eqb_refl).
  reflexivity.
Qed.

(** X9. When [_process_file] returns, the path has a record and its status
    is done or error: no run that returns leaves a record pending or
    processing. *)
Theorem process_file_terminal_status :
  forall (env : Env) (faults : Faults) (db : DB) (now : Z) (file_path : pystr),
    fst (run (_process_file env faults file_path) db now) = Ok tt ->
    exists r,
      recording_by_filepath file_path
        (snd (run (_process_file env faults file_path) db now)) = Some r
      /\ (rec_status r = done \/ rec_status r = error).
Proof.
  intros env faults db now p. unfold run.
  destruct (process_file_cases env faults db now p)
    as [(r & Ho & Hr & Hs & Hrun)
       | [(e0 & s' & Hraise & Hrun & Hc)
         | (r1 & db1 & now1 & Hq & Hent & Hr1 & Hs1 & Ht & Hsg &
            [(result & Hp & Hae & Hrun)
            | [(e & clk' & Hae & Hh & Hrun) | (e & e' & clk' & Hae & Hh & Hrun)]])]];
    rewrite Hrun; cbn [fst snd committed open_session]; intros Hret;
    try discriminate.
  - exists r. split; [exact Hr | now left].
  - eexists. split; [exact (by_filepath_after_success p result now1 db1 r1 Hr1)|].
    now left.
  - destruct (failure_recorded p (rec_id r1) e db1 r1 Hr1 eq_refl)
      as ((r' & Hr' & Hst & _) & _).
    exists r'. split; [exact Hr' | now right].
Qed.

(** A call whose final commit fails ends in error. *)
Lemma process_file_terminal_status_witness :
  let faults := {| open_error := None; enqueue_error := None;
                   flush_error := None;
                   commit_error := Some {| exn_class := u "OperationalError";
                                           exn_msg := u "database is locked" |};
                   rollback_error := None; handler_error := None |} in
  exists r,
    recording_by_filepath (u "/watch/call.wav")
      (snd (run (_process_file stereo_call faults (u "/watch/call.wav"))
                empty_store 100)) = Some r
    /\ (rec_status r = done \/ rec_status r = error).
Proof.
  intros faults.
  apply (process_file_terminal_status stereo_call faults empty_store 100
           (u "/watch/call.wav")).
  vm_compute. reflexivity.
Defined.

Lemma attempt_error_no_faults env faults p result :
  fst (process env p []) = Ok result ->
  flush_error faults = None ->
  commit_error faults = None ->
  attempt_error env faults p = None.
Proof. intros Hp Hf Hc. unfold attempt_error. now rewrite Hp, Hf, Hc. Qed.

Lemma persist_segments_payload tid segs :
  forall rows, exists added,
    persist_segments tid segs rows = rows ++ added
    /\ map segment_payload added = map (aligned_payload tid) segs.
Proof.
  induction segs as [|seg r IH]; intros rows.
  - exists []. simpl. now rewrite app_nil_r.
  - unfold persist_segments. cbn [fold_left].
    match goal with |- context [fold_left ?f r (rows ++ [?row])] =>
      destruct (IH (rows ++ [row])) as (added & Hadd & Hpay);
      exists (row :: added)
    end.
    unfold persist_segments in Hadd. rewrite Hadd, <- app_assoc. split; [reflexivity|].
    cbn [map]. now rewrite Hpay.
Qed.

(** X10. A run in which nothing raises (not the pipeline, nor a storage
    call before or inside the [try] block), on a path that is new or whose
    record is not done, ends with the record done, without error message,
    with the duration of the result and a processed timestamp; exactly one
    transcript is added, holding the text and language of the result, and one
    segment row per aligned segment, in order, with role, text, times and
    confidence of the segment. *)
Theorem process_file_success :
  forall (env : Env) (faults : Faults) (db : DB) (now : Z) (file_path : pystr)
         (result : PipelineResult),
    enqueue_succeeds faults ->
    enters_processing db file_path = true ->
    fst (process env file_path []) = Ok result ->
    flush_error faults = None ->
    commit_error faults = None ->
    let db' := snd (run (_process_file env faults file_path) db now) in
    let tid := next_id (map trn_id (transcripts db)) in
    exists r' rows,
      recording_by_filepath file_path db' = Some r'
      /\ rec_status r' = done
      /\ rec_error_message r' = None
      /\ rec_duration_seconds r' = Some (duration result)
      /\ rec_processed_at r' <> None
      /\ transcripts db'
         = transcripts db ++
           [ {| trn_id := tid; trn_recording_id := rec_id r';
                trn_full_text := Some (full_text result);
                trn_language := Some (language result);
                trn_model_used := None |} ]
      /\ segment_rows db' = segment_rows db ++ rows
      /\ map segment_payload rows = map (aligned_payload tid) (segments result).
Proof.
  intros env faults db now p result Hq Hent Hp Hf Hc db' tid. subst db'.
  pose proof (attempt_error_no_faults env faults p result Hp Hf Hc) as He.
  rewrite process_file_unfold. unfold run, bind.
  destruct (enqueue_cases faults p db now Hq)
    as [(r & Hr & Hs & Henq) | (r1 & db1 & now1 & Henq & Hr1 & Hs1 & Ht & Hsg & _)];
    rewrite Henq.
  - unfold enters_processing in Hent. rewrite Hr, Hs in Hent. discriminate.
  - rewrite (attempt_success env faults (rec_id r1) p result db1 now1 Hp He).
    cbn [snd committed open_session].
    destruct (persist_segments_payload (next_id (map trn_id (transcripts db1)))
                (segments result) (segment_rows db1)) as (rows & Hrows & Hpay).
    eexists. exists rows.
    split; [exact (by_filepath_after_success p result now1 db1 r1 Hr1)|].
    cbn [rec_status rec_error_message rec_duration_seconds rec_processed_at rec_id].
    split; [reflexivity|].
    split.
    { (* the error message was cleared by the enqueue step *)
      destruct (recording_by_filepath p db) as [r0|] eqn:Hr0.
      - assert (Hnd : rec_status r0 <> done).
        { intros H. unfold enters_processing in Hent. rewrite Hr0, H in Hent.
          discriminate. }
        rewrite (enqueue_existing faults p db now r0 Hq Hr0 Hnd) in Henq.
        inversion Henq as [[Hid Hdb Hnow]]. subst db1.
        rewrite !recording_by_filepath_update in Hr1 by reflexivity.
        rewrite Hr0 in Hr1. cbn [option_map] in Hr1.
        rewrite Z.eqb_refl in Hr1. cbn [set_status rec_id] in Hr1.
        rewrite Z.eqb_refl in Hr1. inversion Hr1. reflexivity.
      - rewrite (enqueue_new faults p db now Hq Hr0) in Henq.
        inversion Henq as [[Hid Hdb Hnow]]. subst db1.
        unfold recording_by_filepath in *. cbn [recordings] in Hr1.
        rewrite (find_app_none _ _ _ Hr0) in Hr1
          by (cbn [rec_filepath]; apply pystr_eqb_refl).
        inversion Hr1. reflexivity. }
    split; [reflexivity|]. split; [discriminate|].
    unfold store_after_success. cbn [transcripts segment_rows].
    subst tid. rewrite Ht in Hrows, Hpay |- *. split; [reflexivity|].
    split; [now rewrite Hrows, Hsg | exact Hpay].
Qed.

(** The stereo call, seen for the first time. *)
Lemma process_file_success_witness :
  let db' := snd (run (_process_file stereo_call no_faults (u "/watch/call.wav"))
                      empty_store 100) in
  exists r' rows,
    recording_by_filepath (u "/watch/call.wav") db' = Some r'
    /\ rec_status r' = done
    /\ map trn_full_text (transcripts db')
       = [Some (u "[Customer] halo" ++ [10%N] ++ u "[Agent] dzień dobry")]
    /\ segment_rows db' = rows
    /\ map sg_speaker_label rows = [Some (u "customer"); Some (u "agent")].
Proof.
  intros db'.
  assert (Hp : exists result,
             fst (process stereo_call (u "/watch/call.wav") []) = Ok result
             /\ full_text result = u "[Customer] halo" ++ [10%N] ++ u "[Agent] dzień dobry").
  { eexists. split; vm_compute; reflexivity. }
  destruct Hp as (result & Hp & Hft).
  destruct (process_file_success stereo_call no_faults empty_store 100
              (u "/watch/call.wav") result (conj eq_refl eq_refl) eq_refl Hp
              eq_refl eq_refl)
    as (r' & rows & Hr & Hs & _ & _ & _ & Ht & Hrows & _).
  exists r', rows. fold db' in Hr, Ht, Hrows.
  split; [exact Hr|]. split; [exact Hs|].
  split; [rewrite Ht, Hft; reflexivity|]. split; [exact Hrows|].
  change rows with (segment_rows empty_store ++ rows).
  rewrite <- Hrows. vm_compute. reflexivity.
Defined.

Lemma update_fresh_id id f l :
  (forall r, In r l -> rec_id r <> id) ->
  map (fun r => if (rec_id r =? id)%Z then f r else r) l = l.
Proof.
  intros H. rewrite <- (map_id l) at 2. apply map_ext_in. intros r Hr.
  destruct (rec_id r =? id)%Z eqn:E; [|reflexivity].
  apply Z.eqb_eq in E. now elim (H r Hr).
Qed.

Lemma recordings_fresh db r :
  In r (recordings db) -> rec_id r <> next_id (map rec_id (recordings db)).
Proof.
  intros Hr Heq.
  assert (Hin : In (rec_id r) (map rec_id (recordings db))) by now apply in_map.
  apply next_id_fresh in Hin. lia.
Qed.

(** X11. The first run on a path that has no record, when the storage
    calls before the [try] block succeed, adds exactly one record, after the
    existing ones, with a fresh key, the path and its final component as
    file name, and the current time as creation time; no existing record is
    changed. This holds whatever happens afterwards in the run. *)
Theorem process_file_first_sight :
  forall (env : Env) (faults : Faults) (db : DB) (now : Z) (file_path : pystr),
    enqueue_succeeds faults ->
    recording_by_filepath file_path db = None ->
    exists r',
      recordings (snd (run (_process_file env faults file_path) db now))
      = recordings db ++ [r']
      /\ rec_id r' = next_id (map rec_id (recordings db))
      /\ (forall r, In r (recordings db) -> rec_id r <> rec_id r')
      /\ rec_filepath r' = file_path
      /\ rec_filename r' = path_name file_path
      /\ rec_created_at r' = Some now.
Proof.
  intros env faults db now p Hq Hnone. rewrite process_file_unfold. unfold run, bind.
  rewrite (enqueue_new faults p db now Hq Hnone).
  set (id := next_id (map rec_id (recordings db))).
  set (new := {| rec_id := id; rec_filename := path_name p; rec_filepath := p;
                 rec_duration_seconds := None; rec_created_at := Some now;
                 rec_processed_at := None; rec_status := pending;
                 rec_error_message := None |}).
  set (db1 := {| recordings := recordings db ++ [new];
                 transcripts := transcripts db;
                 segment_rows := segment_rows db |}).
  assert (Hfresh : forall r, In r (recordings db) -> rec_id r <> id)
    by (intros r Hr; now apply recordings_fresh).
  assert (Hupd : forall f,
            map (fun r => if (rec_id r =? id)%Z then f r else r) (recordings db ++ [new])
            = recordings db ++ [f new]).
  { intros f. rewrite map_app, (update_fresh_id id f _ Hfresh). cbn [map rec_id new].
    unfold id at 1. now rewrite Z.eqb_refl. }
  assert (Hupd2 : forall f x,
            rec_id x = id ->
            map (fun r => if (rec_id r =? id)%Z then f r else r) (recordings db ++ [x])
            = recordings db ++ [f x]).
  { intros f x Hx. rewrite map_app, (update_fresh_id id f _ Hfresh). cbn [map].
    now rewrite Hx, Z.eqb_refl. }
  assert (Hnew : exists r0, recording_by_id id db1 = Some r0).
  { assert (Hp : recording_by_filepath p db1 = Some new).
    { unfold recording_by_filepath. cbn [recordings db1].
      apply find_app_none; [exact Hnone|]. apply pystr_eqb_refl. }
    exact (by_filepath_has_id _ _ _ Hp). }
  destruct Hnew as [rnew Hrnew].
  destruct (attempt_error env faults p) as [e|] eqn:He.
  - destruct (handler_cases faults) as [Hh | [e' Hh]].
    + destruct (attempt_failure env faults id p e db1 (now + 1) Hh He) as [clk' Hatt].
      rewrite Hatt. cbn [snd committed open_session].
      unfold store_after_error.
      assert (Hget : exists r0, recording_by_id id
                                  (update_recording id (set_status processing) db1)
                                = Some r0).
      { rewrite recording_by_id_update by reflexivity.
        rewrite Hrnew. eexists. reflexivity. }
      destruct Hget as [r0 Hr0]. rewrite Hr0.
      unfold update_recording. cbn [recordings db1].
      rewrite Hupd, Hupd2, Hupd2 by reflexivity.
      eexists. split; [reflexivity|]. cbn. repeat split; try reflexivity. exact Hfresh.
    + destruct (attempt_handler_failure env faults id p e e' db1 (now + 1) rnew
                  He Hh Hrnew) as [clk' Hatt].
      rewrite Hatt. cbn [snd committed open_session].
      unfold update_recording. cbn [recordings db1].
      rewrite Hupd.
      eexists. split; [reflexivity|]. cbn. repeat split; try reflexivity. exact Hfresh.
  - destruct (attempt_error_none _ _ _ He) as [result Hp].
    rewrite (attempt_success env faults id p result db1 (now + 1) Hp He).
    cbn [snd committed open_session store_after_success recordings].
    unfold update_recording. cbn [recordings db1].
    rewrite Hupd, !Hupd2 by reflexivity.
    eexists. split; [reflexivity|]. cbn. repeat split; try reflexivity. exact Hfresh.
Qed.

Lemma process_file_first_sight_witness :
  exists r',
    recordings (snd (run (_process_file stereo_call no_faults (u "/watch/new.wav"))
                         done_store 300))
    = recordings done_store ++ [r']
    /\ rec_id r' = next_id (map rec_id (recordings done_store))
    /\ (forall r, In r (recordings done_store) -> rec_id r <> rec_id r')
    /\ rec_filepath r' = u "/watch/new.wav"
    /\ rec_filename r' = path_name (u "/watch/new.wav")
    /\ rec_created_at r' = Some 300%Z.
Proof.
  apply (process_file_first_sight stereo_call no_faults done_store 300
           (u "/watch/new.wav")).
  - split; reflexivity.
  - vm_compute. reflexivity.
Defined.

(** X12. A path that does not exist on disk, and is new or not done, ends
    with a record in error whose message is "Audio file not found: " followed
    by the path, when the storage calls before the [try] block and those of
    the [except] block succeed; no transcript or segment row is written. *)
Theorem missing_file_is_recorded :
  forall (env : Env) (faults : Faults) (db : DB) (now : Z) (file_path : pystr),
    enqueue_succeeds faults ->
    handler_succeeds faults ->
    path_exists env file_path = false ->
    enters_processing db file_path = true ->
    let db' := snd (run (_process_file env faults file_path) db now) in
    (exists r', recording_by_filepath file_path db' = Some r'
                /\ rec_status r' = error
                /\ rec_error_message r'
                   = Some (u "Audio file not found: " ++ file_path))
    /\ transcripts db' = transcripts db
    /\ segment_rows db' = segment_rows db.
Proof.
  intros env faults db now p Hq Hh Hex Hent db'. subst db'.
  remember {| exn_class := u "FileNotFoundError";
              exn_msg := u "Audio file not found: " ++ p |} as e eqn:Ee.
  assert (He : attempt_error env faults p = Some e).
  { unfold attempt_error, process. rewrite Hex, Ee. reflexivity. }
  rewrite process_file_unfold. unfold run, bind.
  destruct (enqueue_cases faults p db now Hq)
    as [(r & Hr & Hs & Henq) | (r1 & db1 & now1 & Henq & Hr1 & Hs1 & Ht & Hsg & _)];
    rewrite Henq.
  - unfold enters_processing in Hent. rewrite Hr, Hs in Hent. discriminate.
  - destruct (attempt_failure env faults (rec_id r1) p e db1 now1 Hh He) as [clk' Hatt].
    rewrite Hatt. cbn [snd committed open_session].
    destruct (failure_recorded p (rec_id r1) e db1 r1 Hr1 eq_refl)
      as ((r' & Hr' & Hst & Hmsg) & Ht' & Hsg').
    split; [|split; congruence].
    exists r'. split; [exact Hr'|]. split; [exact Hst|].
    rewrite Hmsg, Ee. reflexivity.
Qed.

Lemma missing_file_is_recorded_witness :
  let env := {| path_exists := fun _ => false;
                load_audio := fun _ => Ok {| channels := 1 |};
                transcribe := fun _ => Ok (mk_transcription []);
                diarize := fun _ => Ok (mk_diarization []) |} in
  let db' := snd (run (_process_file env no_faults (u "/watch/gone.wav")) empty_store 100) in
  (exists r', recording_by_filepath (u "/watch/gone.wav") db' = Some r'
              /\ rec_status r' = error
              /\ rec_error_message r'
                 = Some (u "Audio file not found: " ++ u "/watch/gone.wav"))
  /\ transcripts db' = []
  /\ segment_rows db' = [].
Proof.
  intros env.
  apply (missing_file_is_recorded env no_faults empty_store 100 (u "/watch/gone.wav"));
    try reflexivity; split; reflexivity.
Defined.

(** X13. After a run in which nothing raised, no further run on the same
    path changes the store, whatever the services would now answer and
    whatever fails in the storage; the further run returns normally when
    the session can be opened and the path looked up. *)
Theorem process_file_idempotent_after_success :
  forall (env env2 : Env) (faults faults2 : Faults) (db : DB) (now now2 : Z)
         (file_path : pystr),
    enqueue_succeeds faults ->
    attempt_error env faults file_path = None ->
    let db' := snd (run (_process_file env faults file_path) db now) in
    snd (run (_process_file env2 faults2 file_path) db' now2) = db'
    /\ (open_error faults2 = None ->
        run (_process_file env2 faults2 file_path) db' now2 = (Ok tt, db')).
Proof.
  intros env env2 faults faults2 db now now2 p Hq He db'.
  assert (Hdone : exists r, recording_by_filepath p db' = Some r /\ rec_status r = done).
  { subst db'. rewrite process_file_unfold. unfold run, bind.
    destruct (enqueue_cases faults p db now Hq)
      as [(r & Hr & Hs & Henq) | (r1 & db1 & now1 & Henq & Hr1 & Hs1 & Ht & Hsg & _)];
      rewrite Henq.
    - exists r. cbn. now split.
    - destruct (attempt_error_none _ _ _ He) as [result Hp].
      rewrite (attempt_success env faults (rec_id r1) p result db1 now1 Hp He).
      cbn [snd committed open_session].
      eexists. split; [exact (by_filepath_after_success p result now1 db1 r1 Hr1)|].
      reflexivity. }
  destruct Hdone as (r & Hr & Hs).
  split.
  - unfold run.
    destruct (process_file_cases env2 faults2 db' now2 p)
      as [(r0 & _ & _ & _ & Hrun)
         | [(e0 & s' & _ & Hrun & Hc)
           | (r1 & db1 & now1 & _ & Hent & _)]].
    + now rewrite Hrun.
    + now rewrite Hrun.
    + unfold enters_processing in Hent. rewrite Hr, Hs in Hent. discriminate.
  - intros Ho. rewrite process_file_unfold. unfold run, bind.
    rewrite (enqueue_done faults2 p db' now2 r Ho Hr Hs). reflexivity.
Qed.

Lemma process_file_idempotent_after_success_witness :
  run (_process_file mono_call_unordered no_faults (u "/watch/call.wav")) done_store 300
  = (Ok tt, done_store).
Proof.
  apply (process_file_idempotent_after_success stereo_call mono_call_unordered
           no_faults no_faults empty_store 100 300 (u "/watch/call.wav")).
  - split; reflexivity.
  - vm_compute. reflexivity.
  - reflexivity.
Defined.

(** ** The stored text and the stored rows *)

Lemma run_success env faults db now p result :
  enqueue_succeeds faults ->
  enters_processing db p = true ->
  fst (process env p []) = Ok result ->
  attempt_error env faults p = None ->
  exists r1 db1 now1,
    snd (run (_process_file env faults p) db now)
    = store_after_success (rec_id r1) result now1 db1
    /\ recording_by_filepath p db1 = Some r1
    /\ transcripts db1 = transcripts db
    /\ segment_rows db1 = segment_rows db.
Proof.
  intros Hq Hent Hp He. rewrite process_file_unfold. unfold run, bind.
  destruct (enqueue_cases faults p db now Hq)
    as [(r & Hr & Hs & Henq) | (r1 & db1 & now1 & Henq & Hr1 & Hs1 & Ht & Hsg & _)];
    rewrite Henq.
  - unfold enters_processing in Hent. rewrite Hr, Hs in Hent. discriminate.
  - rewrite (attempt_success env faults (rec_id r1) p result db1 now1 Hp He).
    exists r1, db1, now1. cbn [snd committed open_session]. now repeat split.
Qed.

(** Every result of the pipeline carries the rendering of its segments. *)
Lemma process_full_text env p result :
  fst (process env p []) = Ok result ->
  full_text result = _build_full_text (segments result).
Proof.
  unfold process. destruct (path_exists env p); cbn [negb]; [|discriminate].
  unfold P_bind at 1, P_lift at 1.
  destruct (load_audio env p) as [audio|e]; [|discriminate].
  destruct (channels audio >=? 2)%Z.
  - unfold _run_stereo_pipeline, _split_stereo.
    destruct (negb (channels audio =? 2)%Z); [discriminate|].
    unfold P_bind, P_ret, call_transcribe, P_bind, P_log, P_lift. cbn [fst snd app].
    destruct (transcribe env (MonoChannel p 0)); [|discriminate].
    destruct (transcribe env (MonoChannel p 1)); [|discriminate].
    intros H. inversion H. reflexivity.
  - unfold _run_mono_pipeline, call_diarize, call_transcribe, call_label_speakers,
      P_bind, P_log, P_lift, P_ret. cbn [fst snd app].
    destruct (diarize env p); [|discriminate].
    destruct (transcribe env (WavFile p)); [|discriminate].
    intros H. inversion H. reflexivity.
Qed.

Lemma render_rows_payload tid segs :
  forall rows,
    map segment_payload rows = map (aligned_payload tid) segs ->
    render_rows rows
    = Ok (map (fun seg => render_line (label_str (seg_speaker seg)) (seg_text seg)) segs).
Proof.
  induction segs as [|seg r IH]; intros [|row rows] H; try discriminate.
  - reflexivity.
  - cbn [map] in H. inversion H as [[Htid Hlab Htext Hst Hen Hco Hrest]].
    rewrite ?Htid in Hrest.
    cbn [render_rows map]. rewrite Hlab, (IH rows Hrest), Htext. reflexivity.
Qed.

Lemma filter_all_true_in {A} (f : A -> bool) l :
  (forall x, In x l -> f x = true) -> filter f l = l.
Proof.
  induction l as [|x l IH]; intros H; simpl; [reflexivity|].
  rewrite (H x (or_introl eq_refl)). f_equal. apply IH. intros y Hy. apply H. now right.
Qed.

Lemma segments_of_app_fresh tid db rows :
  Forall (fun s => sg_transcript_id s <> tid) (segment_rows db) ->
  Forall (fun s => sg_transcript_id s = tid) rows ->
  filter (fun s => (sg_transcript_id s =? tid)%Z) (segment_rows db ++ rows) = rows.
Proof.
  intros Hold Hnew. rewrite filter_app.
  rewrite (filter_none _ (segment_rows db)).
  - simpl. apply filter_all_true_in. rewrite Forall_forall in Hnew.
    intros s Hs. apply Z.eqb_eq. now apply Hnew.
  - rewrite Forall_forall in Hold. intros s Hs. apply Z.eqb_neq. now apply Hold.
Qed.

Lemma payload_transcript_id tid segs :
  forall rows,
    map segment_payload rows = map (aligned_payload tid) segs ->
    Forall (fun s => sg_transcript_id s = tid) rows.
Proof.
  induction segs as [|seg r IH]; intros [|row rows] H; try discriminate.
  - constructor.
  - cbn [map] in H. inversion H as [[Htid Hlab Htext Hst Hen Hco Hrest]].
    rewrite ?Htid in Hrest. rewrite ?Htid.
    constructor; [exact Htid | now apply IH].
Qed.

(** X14. After a run in which nothing raised, on a store whose segment rows
    all belong to transcripts, the rows of the new transcript are exactly the
    aligned segments of the result, in order, and rendering those rows in
    stored order gives back the stored transcript text. *)
Theorem persisted_text_is_rendering :
  forall (env : Env) (faults : Faults) (db : DB) (now : Z) (file_path : pystr)
         (result : PipelineResult),
    enqueue_succeeds faults ->
    segments_reference_transcripts db ->
    enters_processing db file_path = true ->
    fst (process env file_path []) = Ok result ->
    flush_error faults = None ->
    commit_error faults = None ->
    let db' := snd (run (_process_file env faults file_path) db now) in
    let tid := next_id (map trn_id (transcripts db)) in
    map segment_payload (segments_of tid db')
      = map (aligned_payload tid) (segments result)
    /\ rows_text (segments_of tid db') = Some (full_text result)
    /\ exists t, In t (transcripts db') /\ trn_id t = tid
                 /\ trn_full_text t = rows_text (segments_of tid db').
Proof.
  intros env faults db now p result Hq Hfk Hent Hp Hf Hc db' tid.
  pose proof (attempt_error_no_faults env faults p result Hp Hf Hc) as He.
  destruct (run_success env faults db now p result Hq Hent Hp He)
    as (r1 & db1 & now1 & Hrun & Hr1 & Ht & Hsg).
  subst db'. rewrite Hrun. unfold segments_of, store_after_success.
  cbn [segment_rows transcripts]. rewrite Ht, Hsg. fold tid.
  destruct (persist_segments_payload tid (segments result) (segment_rows db))
    as (rows & Hrows & Hpay).
  rewrite Hrows.
  assert (Hold : Forall (fun s => sg_transcript_id s <> tid) (segment_rows db)).
  { eapply Forall_impl; [|exact Hfk]. intros s Hs Heq. cbv beta in Hs.
    apply next_id_fresh in Hs. fold tid in Hs. lia. }
  rewrite (segments_of_app_fresh tid db rows Hold (payload_transcript_id _ _ _ Hpay)).
  assert (Htext : rows_text rows = Some (full_text result)).
  { unfold rows_text. rewrite (render_rows_payload tid _ _ Hpay).
    now rewrite (process_full_text env p result Hp). }
  split; [exact Hpay|]. split; [exact Htext|].
  eexists. split; [apply in_or_app; right; left; reflexivity|].
  split; [reflexivity|]. cbn [trn_full_text]. now rewrite Htext.
Qed.

Lemma persisted_text_is_rendering_witness :
  let db' := snd (run (_process_file mono_call_unordered no_faults (u "/watch/mono.wav"))
                      done_store 300) in
  rows_text (segments_of 2 db')
  = Some (u "[Agent] do widzenia" ++ [10%N] ++ u "[Customer] halo").
Proof.
  intros db'.
  assert (Hp : exists result,
             fst (process mono_call_unordered (u "/watch/mono.wav") []) = Ok result
             /\ full_text result
                = u "[Agent] do widzenia" ++ [10%N] ++ u "[Customer] halo").
  { eexists. split; vm_compute; reflexivity. }
  destruct Hp as (result & Hp & Hft).
  assert (Hfk : segments_reference_transcripts done_store).
  { unfold segments_reference_transcripts. vm_compute. repeat constructor. }
  destruct (persisted_text_is_rendering mono_call_unordered no_faults done_store 300
              (u "/watch/mono.wav") result (conj eq_refl eq_refl) Hfk eq_refl Hp
              eq_refl eq_refl)
    as (_ & Htext & _).
  rewrite <- Hft. exact Htext.
Defined.

(** ** Edge cases of [swap_speakers] *)

Lemma render_rows_unlabelled rows :
  Exists (fun s => sg_speaker_label s = None) rows ->
  render_rows rows
  = Raise {| exn_class := u "AttributeError";
             exn_msg := u "'NoneType' object has no attribute 'capitalize'" |}.
Proof.
  induction rows as [|s r IH]; intros H; [inversion H|].
  cbn [render_rows]. destruct (sg_speaker_label s) as [l|] eqn:El; [|reflexivity].
  inversion H as [? ? Hs|? ? Hr]; subst; [congruence|].
  now rewrite (IH Hr).
Qed.

Lemma swap_label_none l : l = None -> swap_label l = None.
Proof. now intros ->. Qed.

(** X15. [swap_speakers] on a recording without transcript returns False and
    changes nothing. When a row of the first transcript has no speaker label,
    it raises AttributeError and nothing is committed: the labels it had
    already exchanged in the session are discarded. *)
Theorem swap_speakers_edge_cases :
  forall (recording_id : Z) (db : DB) (now : Z),
    (transcripts_of recording_id db = [] ->
     run (swap_speakers recording_id) db now = (Ok false, db))
    /\ (forall t rest,
          transcripts_of recording_id db = t :: rest ->
          Exists (fun s => sg_speaker_label s = None) (segments_of (trn_id t) db) ->
          run (swap_speakers recording_id) db now
          = (Raise {| exn_class := u "AttributeError";
                      exn_msg := u "'NoneType' object has no attribute 'capitalize'" |},
             db)).
Proof.
  intros id db now. split.
  - intros Hnil. unfold run, swap_speakers, try_finally.
    unfold bind at 1, get_working at 1, open_session. cbn [working]. rewrite Hnil.
    reflexivity.
  - intros t rest Ht Hex.
    assert (Hraise : render_rows
                       (sorted_by sg_start_time
                          (segments_of (trn_id t)
                             (update_segments_of (trn_id t) swap_row db)))
                     = Raise {| exn_class := u "AttributeError";
                                exn_msg := u "'NoneType' object has no attribute 'capitalize'" |}).
    { apply render_rows_unlabelled.
      rewrite segments_of_update by reflexivity.
      apply Exists_exists in Hex. destruct Hex as (s & Hin & Hs).
      apply Exists_exists. exists (swap_row s). split.
      - eapply Permutation_in; [apply Permutation_sym, sorted_by_Permutation|].
        now apply in_map.
      - cbn. now rewrite Hs. }
    unfold run, swap_speakers, try_finally.
    unfold bind at 1, get_working at 1, open_session. cbn [working]. rewrite Ht.
    unfold bind at 1, modify_working at 1. cbn [working committed clock].
    unfold bind at 1, get_working at 1. cbn [working committed clock].
    unfold bind at 1.
    change (fun s => set_speaker_label (swap_label (sg_speaker_label s)) s) with swap_row.
    rewrite Hraise. reflexivity.
Qed.

Lemma swap_speakers_edge_cases_witness :
  run (swap_speakers 7) done_store 300 = (Ok false, done_store).
Proof.
  apply (proj1 (swap_speakers_edge_cases 7 done_store 300)).
  vm_compute. reflexivity.
Defined.

(** ** Queries *)

Lemma StronglySorted_map {A B} (f : A -> B) (R : B -> B -> Prop) l :
  StronglySorted (fun x y => R (f x) (f y)) l -> StronglySorted R (map f l).
Proof.
  induction 1 as [|x l Hs IH Hall]; simpl; constructor; [exact IH|].
  apply Forall_map. exact Hall.
Qed.

(** The stable sort by start time is one of the orderings that the
    database may apply. *)
Lemma sorted_by_orders : orders_by_start (sorted_by sg_start_time).
Proof.
  intros rows. split; [apply sorted_by_Permutation | apply sorted_by_sorted].
Qed.

Lemma segment_views_sorted order_by (role : Segment -> option pystr) rows :
  orders_by_start order_by ->
  StronglySorted (key_le sv_start_time)
    (map (fun s => segment_view (role s) s) (order_by rows)).
Proof.
  intros Ho. apply StronglySorted_map.
  exact (proj2 (Ho rows)).
Qed.

Lemma lookup_role_no_speakers labels l :
  lookup_role (role_map_of [] labels) l = None.
Proof. destruct l; reflexivity. Qed.

(** X16. [get_transcript] answers None exactly for an unknown recording.
    For a recording without transcript it reports no transcript and no
    segments. Otherwise it reports the first transcript of the recording and
    each of its segment rows once, in ascending order of start time,
    whatever order the database gives to rows of equal start time; with an
    empty speakers table every role is None. *)
Theorem get_transcript_view :
  forall (order_by : list Segment -> list Segment) (speakers : list Speaker)
         (recording_id : Z) (db : DB),
    orders_by_start order_by ->
    (get_transcript order_by speakers recording_id db = None
     <-> recording_by_id recording_id db = None)
    /\ (forall v, get_transcript order_by speakers recording_id db = Some v ->
          transcripts_of recording_id db = [] ->
          tv_transcript v = None /\ tv_segments v = [])
    /\ (forall v t rest,
          get_transcript order_by speakers recording_id db = Some v ->
          transcripts_of recording_id db = t :: rest ->
          tv_transcript v = Some {| ti_id := trn_id t;
                                    ti_full_text := trn_full_text t;
                                    ti_language := trn_language t |}
          /\ Permutation (map sv_id (tv_segments v))
                         (map sg_id (segments_of (trn_id t) db))
          /\ StronglySorted (key_le sv_start_time) (tv_segments v)
          /\ (speakers = [] -> Forall (fun s => sv_role s = None) (tv_segments v))).
Proof.
  intros order_by speakers id db Ho. unfold get_transcript.
  destruct (recording_by_id id db) as [r|] eqn:Hr.
  - split; [|split].
    + destruct (transcripts_of id db); split; discriminate.
    + intros v Hv Hnil. rewrite Hnil in Hv. inversion Hv. now split.
    + intros v t rest Hv Ht. rewrite Ht in Hv. cbv zeta in Hv. inversion Hv as [Hv'].
      clear Hv Hv'. cbn [tv_transcript tv_segments].
      split; [reflexivity|]. split; [|split].
      * rewrite map_map. cbn [sv_id segment_view].
        apply Permutation_map. exact (proj1 (Ho _)).
      * apply (segment_views_sorted order_by
                 (fun s => lookup_role (role_map_of speakers _) (sg_speaker_label s))).
        exact Ho.
      * intros ->. apply Forall_map. apply Forall_forall. intros s _.
        cbn [sv_role segment_view]. apply lookup_role_no_speakers.
  - split; [tauto|]. split; intros; discriminate.
Qed.

Lemma get_transcript_view_witness :
  exists v,
    get_transcript (sorted_by sg_start_time) [] 1 unordered_store = Some v
    /\ map sv_text (tv_segments v) = [u "halo"; u "do widzenia"]
    /\ Forall (fun s => sv_role s = None) (tv_segments v).
Proof.
  assert (Hv : exists v,
             get_transcript (sorted_by sg_start_time) [] 1 unordered_store = Some v
             /\ map sv_text (tv_segments v) = [u "halo"; u "do widzenia"]).
  { eexists. split; vm_compute; reflexivity. }
  destruct Hv as (v & Hv & Htexts).
  assert (Ht : exists t, transcripts_of 1 unordered_store = [t]).
  { eexists. vm_compute. reflexivity. }
  destruct Ht as (t & Ht).
  destruct (proj2 (proj2 (get_transcript_view (sorted_by sg_start_time) [] 1
                            unordered_store sorted_by_orders)) v t [] Hv Ht)
    as (_ & _ & _ & Hroles).
  exists v. split; [exact Hv|]. split; [exact Htexts|]. now apply Hroles.
Defined.

(** X17. [get_segments_by_speaker] returns nothing when the recording has no
    transcript or when no row of the speakers table has the role. Every
    segment it returns carries the requested role and is a segment row whose
    label is the label of a speaker with that role; the segments come in
    ascending order of start time, whatever order the database gives to rows
    of equal start time. *)
Theorem get_segments_by_speaker_sound :
  forall (order_by : list Segment -> list Segment) (speakers : list Speaker)
         (recording_id : Z) (role : pystr) (db : DB),
    orders_by_start order_by ->
    (transcripts_of recording_id db = []
     \/ (forall sp, In sp speakers -> has_role role sp = false) ->
     get_segments_by_speaker order_by speakers recording_id role db = [])
    /\ (forall v,
          In v (get_segments_by_speaker order_by speakers recording_id role db) ->
          sv_role v = Some role
          /\ exists s sp,
               In s (segment_rows db) /\ sv_id v = sg_id s /\ sv_text v = sg_text s
               /\ In sp speakers /\ has_role role sp = true
               /\ sg_speaker_label s = Some (spk_label sp))
    /\ StronglySorted (key_le sv_start_time)
         (get_segments_by_speaker order_by speakers recording_id role db).
Proof.
  intros order_by speakers id role db Ho. unfold get_segments_by_speaker.
  split; [|split].
  - intros [Hnil|Hnone]; [now rewrite Hnil|].
    destruct (transcripts_of id db); [reflexivity|].
    rewrite (filter_none _ speakers Hnone). reflexivity.
  - intros v Hv. destruct (transcripts_of id db) as [|t rest]; [destruct Hv|].
    destruct (map spk_label (filter (has_role role) speakers)) as [|l0 ls] eqn:Hl;
      [destruct Hv|].
    rewrite <- Hl in Hv. clear Hl.
    apply in_map_iff in Hv. destruct Hv as (s & <- & Hs).
    split; [reflexivity|].
    apply (Permutation_in _ (proj1 (Ho _))) in Hs.
    apply filter_In in Hs. destruct Hs as [Hin Hcond].
    apply andb_prop in Hcond. destruct Hcond as [_ Hlab].
    unfold label_in in Hlab. destruct (sg_speaker_label s) as [l|] eqn:El;
      [|discriminate].
    apply existsb_exists in Hlab. destruct Hlab as (l' & Hl' & Heq).
    apply pystr_eqb_eq in Heq. subst l'.
    apply in_map_iff in Hl'. destruct Hl' as (sp & Hsp & Hspin).
    apply filter_In in Hspin. destruct Hspin as [Hspin Hrole].
    exists s, sp. cbn [sv_id sv_text segment_view]. rewrite Hsp, El. now repeat split.
  - destruct (transcripts_of id db) as [|t rest]; [constructor|].
    destruct (map spk_label (filter (has_role role) speakers)); [constructor|].
    apply (segment_views_sorted order_by (fun _ => Some role)). exact Ho.
Qed.

(** The pipeline labels segments "agent" and "customer"; with no speaker of
    that label in the speakers table the query is empty. *)
Lemma get_segments_by_speaker_sound_witness :
  get_segments_by_speaker (sorted_by sg_start_time) [] 1 (u "agent") done_store = [].
Proof.
  apply (proj1 (get_segments_by_speaker_sound (sorted_by sg_start_time) [] 1
                  (u "agent") done_store sorted_by_orders)).
  right. intros sp [].
Defined.

Lemma status_partition (l : list Recording) :
  length l =
    (length (filter (fun r => status_eqb (rec_status r) done) l)
     + length (filter (fun r => status_eqb (rec_status r) pending) l)
     + length (filter (fun r => status_eqb (rec_status r) error) l)
     + length (filter (fun r => status_eqb (rec_status r) processing) l))%nat.
Proof.
  induction l as [|r l IH]; [reflexivity|].
  simpl. destruct (rec_status r); simpl; lia.
Qed.

Lemma round_half_even_near (x : Q) :
  Qabs (inject_Z (round_half_even x) - x) <= 1 # 2.
Proof.
  unfold round_half_even.
  pose proof (Qfloor_le x) as Hlo.
  pose proof (Qlt_floor x) as Hhi.
  rewrite inject_Z_plus in Hhi. change (inject_Z 1) with 1 in Hhi.
  set (f := Qfloor x) in *.
  assert (Hup : inject_Z (f + 1) == inject_Z f + 1).
  { rewrite inject_Z_plus. reflexivity. }
  cbv zeta.
  destruct (Qltb (x - inject_Z f) (1 # 2)) eqn:E1.
  - apply Qltb_lt in E1. apply Qabs_Qle_condition. split; lra.
  - apply Qltb_ge in E1.
    assert (Hnear : Qabs (inject_Z (f + 1) - x) <= 1 # 2).
    { rewrite Hup. apply Qabs_Qle_condition. split; lra. }
    destruct (Qltb (1 # 2) (x - inject_Z f)) eqn:E2; [exact Hnear|].
    apply Qltb_ge in E2.
    destruct (Z.even f); [|exact Hnear].
    apply Qabs_Qle_condition. split; lra.
Qed.

Lemma round2_near (x : Q) : Qabs (round2 x - x) <= 1 # 200.
Proof.
  unfold round2.
  pose proof (round_half_even_near (x * 100)) as H.
  apply Qabs_Qle_condition in H. destruct H as [H1 H2].
  apply Qabs_Qle_condition.
  set (n := inject_Z (round_half_even (x * 100))) in *.
  split.
  - apply Qle_minus_iff. apply Qle_minus_iff in H1.
    setoid_replace (n / 100 - x + - - (1 # 200))
      with ((n - x * 100 + - - (1 # 2)) * (1 # 100)) by field.
    apply Qmult_le_0_compat; [exact H1|discriminate].
  - apply Qle_minus_iff. apply Qle_minus_iff in H2.
    setoid_replace ((1 # 200) + - (n / 100 - x))
      with (((1 # 2) + - (n - x * 100)) * (1 # 100)) by field.
    apply Qmult_le_0_compat; [exact H2|discriminate].
Qed.

(** X18. [get_stats]: the three reported counts and the recordings in status
    processing, which it does not report, add up to the total. The average
    is None exactly when no recording has a duration or the mean of the
    durations is 0; otherwise it is within 1/200 of the mean of the known
    durations. *)
Theorem get_stats_counts :
  forall db : DB,
    let s := get_stats db in
    total_recordings s
      = (stats_done s + stats_pending s + stats_errors s
         + count_status processing db)%Z
    /\ (0 <= stats_done s /\ 0 <= stats_pending s /\ 0 <= stats_errors s)%Z
    /\ (avg_duration_seconds s = None
        <-> known_durations db = []
            \/ Qsum (known_durations db)
                 / Qnat (length (known_durations db)) == 0)
    /\ (forall a, avg_duration_seconds s = Some a ->
          Qabs (a - Qsum (known_durations db)
                      / Qnat (length (known_durations db))) <= 1 # 200).
Proof.
  intro db. cbv zeta. unfold get_stats, count_status.
  cbn [total_recordings stats_done stats_pending stats_errors avg_duration_seconds].
  split; [|split; [|split]].
  - rewrite (status_partition (recordings db)) at 1. lia.
  - lia.
  - unfold sql_avg. destruct (known_durations db) as [|d ds] eqn:Hd.
    + split; [now left|reflexivity].
    + destruct (Qeq_bool _ 0) eqn:E.
      * split; [|reflexivity]. intros _. right. now apply Qeq_bool_iff.
      * split; [discriminate|]. intros [H|H]; [discriminate|].
        apply Qeq_bool_iff in H. rewrite H in E. discriminate.
  - intros a. unfold sql_avg. destruct (known_durations db) as [|d ds] eqn:Hd;
      [discriminate|].
    destruct (Qeq_bool _ 0); [discriminate|].
    intros Ha. inversion Ha. apply round2_near.
Qed.

Lemma get_stats_counts_witness :
  exists a,
    avg_duration_seconds (get_stats stale_store) = Some a
    /\ Qabs (a - Qsum (known_durations stale_store)
                 / Qnat (length (known_durations stale_store))) <= 1 # 200.
Proof.
  eexists. split; [vm_compute; reflexivity|].
  apply (proj2 (proj2 (proj2 (get_stats_counts stale_store)))).
  vm_compute. reflexivity.
Defined.

(** ** Removing and resetting recordings *)

Lemma filter_negb_In {A} (f : A -> bool) l x :
  In x l -> f x = false -> In x (filter (fun y => negb (f y)) l).
Proof. intros Hin Hf. apply filter_In. split; [exact Hin|]. now rewrite Hf. Qed.

Lemma recording_by_id_filtered id l :
  find (fun r => (rec_id r =? id)%Z)
       (filter (fun r => negb (rec_id r =? id)%Z) l) = None.
Proof.
  induction l as [|r l IH]; [reflexivity|].
  simpl. destruct (rec_id r =? id)%Z eqn:E; simpl; [exact IH|].
  rewrite E. exact IH.
Qed.

Lemma delete_recording_run id db now r :
  recording_by_id id db = Some r ->
  run (delete_recording id) db now
  = (Ok tt,
     {| recordings := filter (fun x => negb (rec_id x =? id)%Z) (recordings db);
        transcripts := transcripts (store_after_delete (transcripts_of id db) db);
        segment_rows := segment_rows (store_after_delete (transcripts_of id db) db) |}).
Proof.
  intros Hr. pose proof (find_some_id_eq _ _ _ Hr) as Hid.
  unfold run, delete_recording, try_finally.
  unfold bind at 1, get_working at 1, open_session. cbn [working].
  rewrite Hr, Hid. unfold bind at 1. rewrite for_each_delete.
  reflexivity.
Qed.

(** X19. [delete_recording] on an unknown id raises HTTPException and leaves
    the store as it was. On a known id it removes the recording, every
    transcript of the recording and every segment of those transcripts;
    every other recording stays, and no row is added. *)
Theorem delete_recording_cascades :
  forall (recording_id : Z) (db : DB) (now : Z),
    (recording_by_id recording_id db = None ->
     run (delete_recording recording_id) db now
     = (Raise {| exn_class := u "HTTPException";
                 exn_msg := u "Recording not found" |}, db))
    /\ (forall r, recording_by_id recording_id db = Some r ->
          exists db',
            run (delete_recording recording_id) db now = (Ok tt, db')
            /\ recording_by_id recording_id db' = None
            /\ transcripts_of recording_id db' = []
            /\ (forall t, In t (transcripts_of recording_id db) ->
                  segments_of (trn_id t) db' = [])
            /\ (forall r0, In r0 (recordings db) -> rec_id r0 <> recording_id ->
                  In r0 (recordings db'))
            /\ incl (recordings db') (recordings db)
            /\ incl (transcripts db') (transcripts db)
            /\ incl (segment_rows db') (segment_rows db)).
Proof.
  intros id db now. split.
  - intros Hr. unfold run, delete_recording, try_finally.
    unfold bind at 1, get_working at 1, open_session. cbn [working].
    rewrite Hr. reflexivity.
  - intros r Hr. eexists. split; [exact (delete_recording_run id db now r Hr)|].
    destruct (store_after_delete_clean id db) as [Hts Hsegs].
    split; [|split; [|split; [|split; [|split; [|split]]]]].
    + apply recording_by_id_filtered.
    + exact Hts.
    + exact Hsegs.
    + intros r0 Hin Hne. cbn [recordings].
      apply (filter_negb_In (fun x => (rec_id x =? id)%Z)); [exact Hin|].
      now apply Z.eqb_neq.
    + intros x Hx. cbn [recordings] in Hx. apply filter_In in Hx. tauto.
    + intros x Hx. cbn [transcripts store_after_delete] in Hx.
      apply filter_In in Hx. tauto.
    + intros x Hx. cbn [segment_rows store_after_delete] in Hx.
      apply filter_In in Hx. tauto.
Qed.

Lemma delete_recording_cascades_witness :
  exists db',
    run (delete_recording 1) done_store 0 = (Ok tt, db')
    /\ recording_by_id 1 db' = None
    /\ transcripts_of 1 db' = [].
Proof.
  assert (Hr : exists r, recording_by_id 1 done_store = Some r).
  { eexists. vm_compute. reflexivity. }
  destruct Hr as (r & Hr).
  destruct (proj2 (delete_recording_cascades 1 done_store 0) r Hr)
    as (db' & Hrun & Hnone & Hts & _).
  exists db'. now repeat split.
Defined.

(** ** Pages of a listing *)

Lemma firstn_skipn_add {A} (a b : nat) (l : list A) :
  firstn a l ++ firstn b (skipn a l) = firstn (a + b) l.
Proof.
  revert l. induction a as [|a IH]; intros l; [reflexivity|].
  destruct l as [|x l]; simpl.
  - now rewrite firstn_nil.
  - now rewrite IH.
Qed.

Lemma chunks_concat {A} (k m : nat) (l : list A) :
  concat (map (fun i => firstn k (skipn ((i - 1) * k) l)) (seq 1 m))
  = firstn (m * k) l.
Proof.
  induction m as [|m IH]; [reflexivity|].
  rewrite seq_S, map_app, concat_app, IH. cbn [map concat].
  rewrite app_nil_r.
  replace (1 + m - 1)%nat with m by lia.
  rewrite firstn_skipn_add. f_equal. lia.
Qed.

Lemma page_offset (page per_page : Z) :
  (1 <= page)%Z -> (1 <= per_page)%Z ->
  Z.to_nat ((page - 1) * per_page) = ((Z.to_nat page - 1) * Z.to_nat per_page)%nat.
Proof.
  intros Hp Hk. rewrite Z2Nat.inj_mul by lia. f_equal. lia.
Qed.

Lemma total_pages_bounds (total per_page : Z) :
  (0 <= total)%Z -> (1 <= per_page)%Z ->
  (1 <= total_pages total per_page)%Z
  /\ (total <= total_pages total per_page * per_page)%Z
  /\ (0 < total -> (total_pages total per_page - 1) * per_page < total)%Z.
Proof.
  intros Ht Hk. unfold total_pages.
  pose proof (Z.div_mod (total + per_page - 1) per_page ltac:(lia)) as Hdm.
  pose proof (Z.mod_pos_bound (total + per_page - 1) per_page ltac:(lia)) as Hm.
  set (q := ((total + per_page - 1) / per_page)%Z) in *.
  set (r := ((total + per_page - 1) mod per_page)%Z) in *.
  split; [lia|]. split.
  - destruct (Z.max_spec 1 q) as [[Hlt ->]|[Hle ->]]; nia.
  - intros Hpos. destruct (Z.max_spec 1 q) as [[Hlt ->]|[Hle ->]]; nia.
Qed.

(** X20. Pages of [list_recordings], over the rows of its filtered and
    ordered query: with a page size of at least 1 there is at least one
    page, the pages 1 .. total_pages put one after the other are exactly the
    rows, no page holds more than per_page rows, every page after the last
    is empty, and when there is a row no page up to the last is empty. *)
Theorem pages_cover_rows :
  forall (A : Type) (rows : list A) (per_page : Z),
    (1 <= per_page)%Z ->
    let n := total_pages (Z.of_nat (length rows)) per_page in
    (1 <= n)%Z
    /\ concat (map (fun i => page_rows (Z.of_nat i) per_page rows)
                   (seq 1 (Z.to_nat n))) = rows
    /\ (forall page, (1 <= page)%Z ->
          (Z.of_nat (length (page_rows page per_page rows)) <= per_page)%Z)
    /\ (forall page, (n < page)%Z -> page_rows page per_page rows = [])
    /\ (rows <> [] -> forall page, (1 <= page <= n)%Z ->
          page_rows page per_page rows <> []).
Proof.
  intros A rows per_page Hk n.
  destruct (total_pages_bounds (Z.of_nat (length rows)) per_page
              ltac:(lia) Hk) as (Hn1 & Hcover & Hlast).
  fold n in Hn1, Hcover, Hlast.
  split; [exact Hn1|]. split; [|split; [|split]].
  - rewrite (map_ext_in _
               (fun i => firstn (Z.to_nat per_page)
                           (skipn ((i - 1) * Z.to_nat per_page) rows))).
    + rewrite chunks_concat. apply firstn_all2.
      rewrite <- Z2Nat.inj_mul by lia. lia.
    + intros i Hi. apply in_seq in Hi.
      unfold page_rows, offset_limit.
      rewrite page_offset by lia. now rewrite Nat2Z.id.
  - intros page Hp. unfold page_rows, offset_limit.
    rewrite length_firstn. lia.
  - intros page Hp. unfold page_rows, offset_limit.
    rewrite skipn_all2; [apply firstn_nil|]. nia.
  - intros Hrows page Hp. unfold page_rows, offset_limit.
    assert (Hlen : (0 < Z.of_nat (length rows))%Z).
    { destruct rows; [congruence|simpl; lia]. }
    specialize (Hlast Hlen).
    assert (Hoff : (Z.to_nat ((page - 1) * per_page) < length rows)%nat) by nia.
    intros Hnil. apply (f_equal (@length A)) in Hnil.
    rewrite length_firstn, length_skipn in Hnil. simpl in Hnil. lia.
Qed.

Lemma pages_cover_rows_witness :
  concat (map (fun i => page_rows (Z.of_nat i) 2 [pending; processing; done; error; done])
              (seq 1 (Z.to_nat (total_pages 5 2))))
  = [pending; processing; done; error; done].
Proof.
  apply (proj1 (proj2 (pages_cover_rows Status
                         [pending; processing; done; error; done] 2 ltac:(lia)))).
Defined.

Lemma NoDup_map_inj_in {A B} (f : A -> B) l x y :
  NoDup (map f l) -> In x l -> In y l -> f x = f y -> x = y.
Proof.
  induction l as [|a l IH]; intros Hnd Hx Hy Hf; [destruct Hx|].
  simpl in Hnd. inversion Hnd as [|? ? Hnotin Hnd']. subst.
  destruct Hx as [->|Hx], Hy as [->|Hy].
  - reflexivity.
  - elim Hnotin. rewrite Hf. now apply in_map.
  - elim Hnotin. rewrite <- Hf. now apply in_map.
  - now apply IH.
Qed.

Lemma other_transcript_not_deleted id db t :
  NoDup (map trn_id (transcripts db)) ->
  In t (transcripts db) -> trn_recording_id t <> id ->
  existsb (fun t0 => (trn_id t =? trn_id t0)%Z) (transcripts_of id db) = false.
Proof.
  intros Hnd Ht Hne.
  destruct (existsb _ (transcripts_of id db)) eqn:E; [|reflexivity].
  apply existsb_exists in E. destruct E as (t0 & Ht0 & Heq).
  apply filter_In in Ht0. destruct Ht0 as [Hin Hrid].
  apply Z.eqb_eq in Heq, Hrid.
  elim Hne. now rewrite (NoDup_map_inj_in trn_id _ t t0 Hnd Ht Hin Heq).
Qed.

Lemma recording_by_id_reset i id db :
  recording_by_id i (store_after_reset id db)
  = option_map (fun r => if (rec_id r =? id)%Z then reset_by_reprocess r else r)
               (recording_by_id i db).
Proof.
  unfold store_after_reset.
  rewrite !recording_by_id_update by (intros []; reflexivity).
  change (recording_by_id i (store_after_delete (transcripts_of id db) db))
    with (recording_by_id i db).
  destruct (recording_by_id i db) as [r|]; [|reflexivity].
  cbn [option_map]. f_equal.
  destruct r as [rid fn fp du cr pr st em].
  cbn [rec_id]. destruct (rid =? id)%Z eqn:E;
    cbn [rec_id set_status set_error_message set_processed_at];
    rewrite ?E; cbn [rec_id set_status set_error_message set_processed_at];
    rewrite ?E; reflexivity.
Qed.

(** X21. [reprocess_recording] on an unknown id raises HTTPException, runs
    no pipeline and leaves the store as it was. On a known id the reset it
    commits before the new run turns the record into a pending one without
    error message and processed timestamp, and leaves every other recording
    as it was; where transcript ids are unique, the transcripts of the other
    recordings and their segments are as before. *)
Theorem reprocess_reset_scope :
  forall (env : Env) (faults : Faults) (recording_id : Z) (db : DB) (now : Z),
    (recording_by_id recording_id db = None ->
     run (reprocess_recording env faults recording_id) db now
     = (Raise {| exn_class := u "HTTPException";
                 exn_msg := u "Recording not found" |}, db))
    /\ (forall r, recording_by_id recording_id db = Some r ->
          exists db',
            run (reprocess_reset recording_id) db now = (Ok (rec_filepath r), db')
            /\ recording_by_id recording_id db' = Some (reset_by_reprocess r)
            /\ (forall id', id' <> recording_id ->
                  recording_by_id id' db' = recording_by_id id' db)
            /\ (NoDup (map trn_id (transcripts db)) ->
                forall id', id' <> recording_id ->
                  transcripts_of id' db' = transcripts_of id' db
                  /\ forall t, In t (transcripts_of id' db) ->
                       segments_of (trn_id t) db' = segments_of (trn_id t) db)).
Proof.
  intros env faults id db now. split.
  - intros Hr. unfold run, reprocess_recording, bind at 1.
    unfold reprocess_reset, try_finally.
    unfold bind at 1, get_working at 1, open_session. cbn [working].
    rewrite Hr. reflexivity.
  - intros r Hr. exists (store_after_reset id db).
    split; [|split; [|split]].
    + unfold run. now rewrite (reprocess_reset_run id db now r Hr).
    + rewrite recording_by_id_reset, Hr. cbn [option_map].
      rewrite (find_some_id_eq _ _ _ Hr), Z.eqb_refl. reflexivity.
    + intros id' Hne. rewrite recording_by_id_reset.
      destruct (recording_by_id id' db) as [r'|] eqn:Hr'; [|reflexivity].
      cbn [option_map]. rewrite (find_some_id_eq _ _ _ Hr').
      apply Z.eqb_neq in Hne. now rewrite Hne.
    + intros Hnd id' Hne. split.
      * unfold transcripts_of at 1, store_after_reset, update_recording,
          store_after_delete. cbn [transcripts].
        rewrite filter_filter. apply filter_ext_in. intros t Ht.
        destruct (trn_recording_id t =? id')%Z eqn:E; [|apply andb_false_r].
        rewrite andb_true_r. apply negb_true_iff.
        apply Z.eqb_eq in E.
        apply (other_transcript_not_deleted id db t Hnd Ht). lia.
      * intros t Ht. apply filter_In in Ht. destruct Ht as [Ht Hrid].
        apply Z.eqb_eq in Hrid.
        unfold segments_of, store_after_reset, update_recording,
          store_after_delete. cbn [segment_rows].
        rewrite filter_filter. apply filter_ext_in. intros s Hs.
        destruct (sg_transcript_id s =? trn_id t)%Z eqn:E; [|apply andb_false_r].
        rewrite andb_true_r. apply negb_true_iff.
        apply Z.eqb_eq in E. rewrite E.
        apply (other_transcript_not_deleted id db t Hnd Ht). lia.
Qed.

Lemma reprocess_reset_scope_witness :
  exists db',
    run (reprocess_reset 2) two_calls_store 0 = (Ok (u "/watch/mono.wav"), db')
    /\ map rec_status (recordings db') = [done; pending]
    /\ transcripts_of 1 db' = transcripts_of 1 two_calls_store
    /\ transcripts_of 2 db' = [].
Proof.
  assert (Hr : exists r, recording_by_id 2 two_calls_store = Some r
                         /\ rec_filepath r = u "/watch/mono.wav").
  { eexists. split; vm_compute; reflexivity. }
  destruct Hr as (r & Hr & Hpath).
  destruct (proj2 (reprocess_reset_scope stereo_call no_faults 2 two_calls_store 0) r Hr)
    as (db' & Hrun & _ & _ & Hothers).
  assert (Hnd : NoDup (map trn_id (transcripts two_calls_store))).
  { vm_compute. repeat constructor; simpl; intuition discriminate. }
  destruct (Hothers Hnd 1%Z ltac:(lia)) as [Hts _].
  exists db'. rewrite <- Hpath. split; [exact Hrun|].
  assert (Hdb : db' = snd (run (reprocess_reset 2) two_calls_store 0))
    by now rewrite Hrun.
  split; [|split; [exact Hts|]]; rewrite Hdb; vm_compute; reflexivity.
Defined.

(** ** The services *)

Lemma nodup_Permutation_length (l1 l2 : list pystr) :
  Permutation l1 l2 ->
  length (nodup (list_eq_dec N.eq_dec) l1) = length (nodup (list_eq_dec N.eq_dec) l2).
Proof.
  intros Hp. apply nodup_same_length; try apply NoDup_nodup.
  intros x. rewrite !nodup_In. split; apply Permutation_in;
    [exact Hp | now apply Permutation_sym].
Qed.

Lemma distinct_tags_Permutation l1 l2 :
  Permutation l1 l2 -> distinct_tags l1 = distinct_tags l2.
Proof.
  intros Hp. unfold distinct_tags. apply nodup_Permutation_length.
  now apply Permutation_map.
Qed.

Lemma label_speakers_length diarization transcription :
  length (_label_speakers_smart diarization transcription)
  = Nat.min 2 (distinct_tags (dia_segments diarization)).
Proof.
  destruct diarization as [dsegs n]. cbn [dia_segments].
  unfold _label_speakers_smart. cbn [dia_segments].
  destruct dsegs as [|d0 dr]; [reflexivity|].
  rewrite <- top_speakers_length.
  destruct (top_speakers (d0 :: dr)) as [|a [|b [|c r]]] eqn:Htop.
  - exfalso. pose proof (top_speakers_length (d0 :: dr)) as Hlen.
    rewrite Htop in Hlen. simpl in Hlen.
    assert (Hpos : distinct_tags (d0 :: dr) <> O).
    { intros H. apply distinct_tags_zero in H. discriminate. }
    destruct (distinct_tags (d0 :: dr)) as [|[|k]]; simpl in Hlen;
      [now elim Hpos | discriminate | discriminate].
  - cbv zeta. destruct (_ && _); reflexivity.
  - destruct (Qle_bool _ _); reflexivity.
  - exfalso. pose proof (top_speakers_length (d0 :: dr)) as Hlen.
    rewrite Htop in Hlen. simpl in Hlen.
    destruct (distinct_tags (d0 :: dr)) as [|[|k]]; simpl in Hlen; discriminate.
Qed.

(** X22. What [PyannoteDiarizer.diarize] returns for the tracks of the
    engine: one segment per track, each track once, in ascending order of
    start (tracks that come in order keep their order); [num_speakers] is
    the number of distinct speakers of the tracks, and the role map that
    [_label_speakers_smart] builds from the result has min(2, num_speakers)
    entries. *)
Theorem diarization_of_tracks_ordered :
  forall (tracks : list Track),
    let d := diarization_of_tracks tracks in
    let as_segment t := {| dia_speaker := track_speaker t;
                           dia_start := turn_start t;
                           dia_end := turn_end t |} in
    Permutation (dia_segments d) (map as_segment tracks)
    /\ StronglySorted (key_le dia_start) (dia_segments d)
    /\ (StronglySorted (key_le turn_start) tracks ->
        dia_segments d = map as_segment tracks)
    /\ dia_num_speakers d
       = Z.of_nat (length (nodup (list_eq_dec N.eq_dec) (map track_speaker tracks)))
    /\ (forall transcription,
          Z.of_nat (length (_label_speakers_smart d transcription))
          = Z.min 2 (dia_num_speakers d)).
Proof.
  intros tracks d as_segment. subst d. unfold diarization_of_tracks.
  cbn [dia_segments dia_num_speakers]. fold as_segment.
  split; [apply sorted_by_Permutation|].
  split; [apply sorted_by_sorted|].
  split; [|split].
  - intros Hs. apply sorted_by_fixpoint.
    apply StronglySorted_map. exact Hs.
  - rewrite (distinct_tags_Permutation _ _ (sorted_by_Permutation dia_start _)).
    unfold distinct_tags. now rewrite map_map.
  - intros t. rewrite label_speakers_length. cbn [dia_segments]. lia.
Qed.

Lemma diarization_of_tracks_ordered_witness :
  let tracks := [ {| turn_start := 0; turn_end := 4; track_speaker := u "SPEAKER_00" |};
                  {| turn_start := 4; turn_end := 9; track_speaker := u "SPEAKER_01" |};
                  {| turn_start := 9; turn_end := 12; track_speaker := u "SPEAKER_00" |} ] in
  map dia_speaker (dia_segments (diarization_of_tracks tracks))
  = [u "SPEAKER_00"; u "SPEAKER_01"; u "SPEAKER_00"].
Proof.
  intros tracks.
  rewrite (proj1 (proj2 (proj2 (diarization_of_tracks_ordered tracks)))).
  - reflexivity.
  - repeat constructor; unfold key_le; simpl; lra.
Defined.

Lemma lstrip_decomp s :
  exists pre, s = pre ++ lstrip s /\ forallb is_space pre = true.
Proof.
  induction s as [|c r IH]; [now exists []|].
  simpl. destruct (is_space c) eqn:E.
  - destruct IH as (pre & Hs & Hpre). exists (c :: pre). simpl.
    rewrite E, Hpre. split; [now rewrite <- Hs | reflexivity].
  - now exists [].
Qed.

Lemma lstrip_head s c r : lstrip s = c :: r -> is_space c = false.
Proof.
  induction s as [|a s IH]; simpl; [discriminate|].
  destruct (is_space a) eqn:E; [exact IH|].
  intros H. inversion H. now subst.
Qed.

Lemma lstrip_fix s :
  (forall c r, s = c :: r -> is_space c = false) -> lstrip s = s.
Proof.
  destruct s as [|c r]; [reflexivity|].
  intros H. simpl. now rewrite (H c r eq_refl).
Qed.

Lemma rstrip_decomp s :
  exists post, s = rstrip s ++ post /\ forallb is_space post = true.
Proof.
  unfold rstrip. destruct (lstrip_decomp (rev s)) as (pre & Hs & Hpre).
  exists (rev pre). split.
  - rewrite <- rev_app_distr, <- Hs. now rewrite rev_involutive.
  - apply forallb_forall. intros x Hx. apply in_rev in Hx.
    now apply (proj1 (forallb_forall _ _) Hpre).
Qed.

Lemma rstrip_last s c r : rstrip s = r ++ [c] -> is_space c = false.
Proof.
  unfold rstrip. intros H. apply (f_equal (@rev _)) in H.
  rewrite rev_involutive, rev_app_distr in H. simpl in H.
  now apply lstrip_head in H.
Qed.

Lemma rstrip_fix s :
  (forall c r, s = r ++ [c] -> is_space c = false) -> rstrip s = s.
Proof.
  intros H. unfold rstrip. rewrite lstrip_fix; [apply rev_involutive|].
  intros c r Hr. apply (H c (rev r)).
  apply (f_equal (@rev _)) in Hr. rewrite rev_involutive in Hr. exact Hr.
Qed.

Lemma strip_head s c r : strip s = c :: r -> is_space c = false.
Proof.
  unfold strip. intros H.
  destruct (rstrip_decomp (lstrip s)) as (post & Hs & _).
  rewrite H in Hs. simpl in Hs. now apply lstrip_head in Hs.
Qed.

Lemma strip_last s c r : strip s = r ++ [c] -> is_space c = false.
Proof. unfold strip. apply rstrip_last. Qed.

Lemma strip_decomp s :
  exists pre post,
    s = pre ++ strip s ++ post
    /\ forallb is_space pre = true /\ forallb is_space post = true.
Proof.
  destruct (lstrip_decomp s) as (pre & Hs & Hpre).
  destruct (rstrip_decomp (lstrip s)) as (post & Hl & Hpost).
  exists pre, post. unfold strip. now rewrite <- Hl, <- Hs.
Qed.

Lemma strip_idempotent s : strip (strip s) = strip s.
Proof.
  unfold strip at 1. rewrite (lstrip_fix (strip s)) by apply strip_head.
  apply rstrip_fix. apply strip_last.
Qed.

(** X23. What [WhisperService.transcribe] returns for the segments of the
    engine: one segment per engine segment, whose text is the engine's text
    without the whitespace around it: it neither starts nor ends with a
    whitespace character, so that the [strip] of the role classifier leaves
    it as it is; a segment for which the engine gives no words has an empty
    word list and therefore no confidence. *)
Theorem transcription_texts_stripped :
  forall (raw : list RawSegment) (lang : pystr) (lang_probability dur : Q),
    let t := transcription_of_segments raw lang lang_probability dur in
    Forall2 (fun rs seg =>
               (exists pre post,
                  rs_text rs = pre ++ tr_text seg ++ post
                  /\ forallb is_space pre = true /\ forallb is_space post = true)
               /\ (forall c r, tr_text seg = c :: r -> is_space c = false)
               /\ (forall c r, tr_text seg = r ++ [c] -> is_space c = false)
               /\ stripped_text seg = tr_text seg
               /\ (rs_words rs = None ->
                   tr_words seg = [] /\ _avg_word_confidence seg = None))
            raw (tr_segments t).
Proof.
  intros raw lang p dur t. subst t. unfold transcription_of_segments.
  cbn [tr_segments].
  induction raw as [|rs raw IH]; simpl; constructor; [|exact IH].
  cbn [tr_text tr_words]. unfold stripped_text. cbn [tr_text].
  split; [apply strip_decomp|].
  split; [apply strip_head|].
  split; [apply strip_last|].
  split; [apply strip_idempotent|].
  intros ->. split; reflexivity.
Qed.

Lemma transcription_texts_stripped_witness :
  let raw := [ {| rs_text := u " Dzień dobry. "; rs_start := 0; rs_end := 2;
                  rs_words := None; rs_avg_logprob := 0; rs_no_speech_prob := 0 |} ] in
  Forall (fun seg => tr_text seg = u "Dzień dobry." /\ _avg_word_confidence seg = None)
         (tr_segments (transcription_of_segments raw (u "pl") 1 2)).
Proof.
  intros raw.
  pose proof (transcription_texts_stripped raw (u "pl") 1 2) as H.
  cbv zeta in H. inversion H as [|rs seg l l' Hseg Hrest Hraw Hsegs].
  inversion Hrest. subst.
  destruct Hseg as (_ & _ & _ & _ & Hwords).
  constructor; [|constructor].
  split; [reflexivity|]. now apply Hwords.
Defined.

(** ** Reading back what a run has stored *)

Lemma map_eq_Forall2 {A B C} (f : A -> C) (g : B -> C) l1 :
  forall l2, map f l1 = map g l2 -> Forall2 (fun a b => f a = g b) l1 l2.
Proof.
  induction l1 as [|a l1 IH]; intros [|b l2] H; try discriminate; constructor.
  - now inversion H.
  - apply IH. now inversion H.
Qed.

Lemma Forall2_map_eq {A B C} (R : A -> B -> Prop) (f : A -> C) (g : B -> C) l1 l2 :
  (forall a b, R a b -> f a = g b) -> Forall2 R l1 l2 -> map f l1 = map g l2.
Proof.
  intros HR H. induction H as [|a b l1 l2 Hab H IH]; simpl; [reflexivity|].
  now rewrite (HR _ _ Hab), IH.
Qed.

Lemma recording_by_id_after_success id result clk db1 r1 :
  recording_by_id id db1 = Some r1 ->
  recording_by_id id (store_after_success id result clk db1)
  = Some {| rec_id := rec_id r1; rec_filename := rec_filename r1;
            rec_filepath := rec_filepath r1;
            rec_duration_seconds := Some (duration result);
            rec_created_at := rec_created_at r1;
            rec_processed_at := Some clk; rec_status := done;
            rec_error_message := rec_error_message r1 |}.
Proof.
  intros Hr. pose proof (find_some_id_eq _ _ _ Hr) as Hid.
  change (recording_by_id id (store_after_success id result clk db1))
    with (recording_by_id id
            (update_recording id (set_processed_at (Some clk))
               (update_recording id (set_duration_seconds (Some (duration result)))
                  (update_recording id (set_status done)
                     (update_recording id (set_status processing) db1))))).
  rewrite !recording_by_id_update by (intros []; reflexivity).
  rewrite Hr. cbn [option_map]. destruct r1 as [rid fn fp du cr pr st em].
  cbn [rec_id] in Hid. subst rid.
  cbn [rec_id set_status set_duration_seconds set_processed_at].
  rewrite !Z.eqb_refl.
  cbn [rec_id set_status set_duration_seconds set_processed_at rec_filename
       rec_filepath rec_created_at rec_error_message].
  rewrite ?Z.eqb_refl. reflexivity.
Qed.

(** X24. Reading back a first run: after a run in which nothing raised, on a
    path the store has no record of, [get_transcript] for the new recording
    reports status done, the transcript with the text and the language of
    the pipeline result, and one segment per aligned segment of the result,
    with its role, text and times, in ascending order of start, whatever
    order the database gives to segments of equal start. The store is one in
    which every transcript belongs to a recording and every segment to a
    transcript. *)
Theorem get_transcript_after_first_run :
  forall (env : Env) (faults : Faults) (order_by : list Segment -> list Segment)
         (speakers : list Speaker) (db : DB) (now : Z)
         (file_path : pystr) (result : PipelineResult),
    orders_by_start order_by ->
    enqueue_succeeds faults ->
    transcripts_reference_recordings db ->
    segments_reference_transcripts db ->
    recording_by_filepath file_path db = None ->
    fst (process env file_path []) = Ok result ->
    flush_error faults = None ->
    commit_error faults = None ->
    let db' := snd (run (_process_file env faults file_path) db now) in
    let id := next_id (map rec_id (recordings db)) in
    exists v,
      get_transcript order_by speakers id db' = Some v
      /\ tv_recording v = {| rv_id := id; rv_filename := path_name file_path;
                             rv_status := done;
                             rv_duration := Some (Some (duration result)) |}
      /\ tv_transcript v
         = Some {| ti_id := next_id (map trn_id (transcripts db));
                   ti_full_text := Some (full_text result);
                   ti_language := Some (language result) |}
      /\ Permutation (map view_payload (tv_segments v))
                     (map aligned_view_payload (segments result))
      /\ StronglySorted (key_le sv_start_time) (tv_segments v).
Proof.
  intros env faults order_by speakers db now p result Ho Hq Htr Hfk Hnew Hp Hf Hc db' id.
  pose proof (attempt_error_no_faults env faults p result Hp Hf Hc) as He.
  assert (Hdb' : db' = store_after_success id result (now + 1)
                         {| recordings := recordings db ++
                              [ {| rec_id := id;
                                   rec_filename := path_name p; rec_filepath := p;
                                   rec_duration_seconds := None;
                                   rec_created_at := Some now;
                                   rec_processed_at := None; rec_status := pending;
                                   rec_error_message := None |} ];
                            transcripts := transcripts db;
                            segment_rows := segment_rows db |}).
  { subst db'. rewrite process_file_unfold. unfold run, bind.
    rewrite (enqueue_new faults p db now Hq Hnew).
    fold id. rewrite (attempt_success env faults id p result _ (now + 1) Hp He).
    reflexivity. }
  clearbody db'. subst db'.
  set (tid := next_id (map trn_id (transcripts db))).
  assert (Hfresh : find (fun r => (rec_id r =? id)%Z) (recordings db) = None).
  { destruct (find _ (recordings db)) as [r|] eqn:E; [|reflexivity].
    apply find_some in E. destruct E as [Hin Heq]. apply Z.eqb_eq in Heq.
    pose proof (next_id_fresh (map rec_id (recordings db)) (rec_id r)
                  (in_map rec_id _ _ Hin)) as Hlt.
    fold id in Hlt. lia. }
  unfold get_transcript.
  match goal with |- context [recordings db ++ [?r]] =>
    rewrite (recording_by_id_after_success id result (now + 1)
               {| recordings := recordings db ++ [r];
                  transcripts := transcripts db;
                  segment_rows := segment_rows db |} r
               (find_app_none (fun x => (rec_id x =? id)%Z) (recordings db) r
                  Hfresh (Z.eqb_refl id)))
  end.
  assert (Hts : transcripts_of id
                  (store_after_success id result (now + 1)
                     {| recordings := recordings db ++
                          [ {| rec_id := id;
                               rec_filename := path_name p; rec_filepath := p;
                               rec_duration_seconds := None;
                               rec_created_at := Some now;
                               rec_processed_at := None; rec_status := pending;
                               rec_error_message := None |} ];
                        transcripts := transcripts db;
                        segment_rows := segment_rows db |})
                = [ {| trn_id := tid; trn_recording_id := id;
                       trn_full_text := Some (full_text result);
                       trn_language := Some (language result);
                       trn_model_used := None |} ]).
  { unfold transcripts_of, store_after_success. cbn [transcripts].
    rewrite filter_app. rewrite (filter_none _ (transcripts db)).
    - simpl. now rewrite Z.eqb_refl.
    - intros t Ht. apply Z.eqb_neq. intros Heq.
      unfold transcripts_reference_recordings in Htr.
      rewrite Forall_forall in Htr. specialize (Htr t Ht).
      apply next_id_fresh in Htr. fold id in Htr. lia. }
  rewrite Hts. cbv zeta. eexists. split; [reflexivity|].
  cbn [tv_recording tv_transcript tv_segments rec_id rec_filename rec_status
       rec_duration_seconds trn_id trn_full_text trn_language].
  split; [reflexivity|]. split; [reflexivity|].
  unfold segments_of, store_after_success. cbn [segment_rows transcripts]. fold tid.
  destruct (persist_segments_payload tid (segments result) (segment_rows db))
    as (rows & Hrows & Hpay).
  rewrite Hrows.
  assert (Hold : Forall (fun s => sg_transcript_id s <> tid) (segment_rows db)).
  { eapply Forall_impl; [|exact Hfk]. intros s Hs Heq. cbv beta in Hs.
    apply next_id_fresh in Hs. fold tid in Hs. lia. }
  rewrite (segments_of_app_fresh tid db rows Hold (payload_transcript_id _ _ _ Hpay)).
  split.
  - rewrite map_map.
    eapply Permutation_trans; [apply Permutation_map; exact (proj1 (Ho rows))|].
    assert (Heq : map (fun s => view_payload
                                  (segment_view
                                     (lookup_role
                                        (role_map_of speakers
                                           (speaker_labels_of (order_by rows)))
                                        (sg_speaker_label s)) s)) rows
                  = map aligned_view_payload (segments result)).
    { apply (Forall2_map_eq (fun s seg => segment_payload s = aligned_payload tid seg)).
      - intros s seg H. unfold segment_payload, aligned_payload in H.
        inversion H. unfold view_payload, aligned_view_payload.
        cbn [sv_speaker sv_text sv_start_time sv_end_time segment_view]. congruence.
      - now apply map_eq_Forall2. }
    rewrite Heq. apply Permutation_refl.
  - apply (segment_views_sorted order_by
             (fun s => lookup_role (role_map_of speakers _) (sg_speaker_label s))).
    exact Ho.
Qed.

Lemma get_transcript_after_first_run_witness :
  let db' := snd (run (_process_file mono_call_unordered no_faults (u "/watch/mono.wav"))
                      empty_store 100) in
  let id := next_id (map rec_id (recordings empty_store)) in
  exists v,
    get_transcript (sorted_by sg_start_time) [] id db' = Some v
    /\ rv_status (tv_recording v) = done
    /\ StronglySorted (key_le sv_start_time) (tv_segments v).
Proof.
  intros db' id.
  assert (Hp : exists result,
             fst (process mono_call_unordered (u "/watch/mono.wav") []) = Ok result).
  { eexists. vm_compute. reflexivity. }
  destruct Hp as (result & Hp).
  destruct (get_transcript_after_first_run mono_call_unordered no_faults
              (sorted_by sg_start_time) [] empty_store 100 (u "/watch/mono.wav") result
              sorted_by_orders (conj eq_refl eq_refl)
              (Forall_nil _) (Forall_nil _) eq_refl Hp eq_refl eq_refl)
    as (v & Hv & Hrec & _ & _ & Hsorted).
  exists v. split; [exact Hv|]. split; [now rewrite Hrec | exact Hsorted].
Defined.

(** X25. A run in which nothing raises (not the pipeline, nor a storage
    call before or inside the [try] block), on a path whose record is not done
    (pending, or left in error or in processing by an earlier run), adds no
    record: the record of the path keeps its key, file name, path and
    creation time, becomes done with the duration of the result and the
    time of the run as processed timestamp, and loses its error message;
    every record with another key is left as it is. *)
Theorem process_file_retry_in_place :
  forall (env : Env) (faults : Faults) (db : DB) (now : Z) (file_path : pystr)
         (r : Recording) (result : PipelineResult),
    enqueue_succeeds faults ->
    recording_by_filepath file_path db = Some r ->
    rec_status r <> done ->
    fst (process env file_path []) = Ok result ->
    flush_error faults = None ->
    commit_error faults = None ->
    let db' := snd (run (_process_file env faults file_path) db now) in
    recordings db'
    = map (fun x => if (rec_id x =? rec_id r)%Z then finished result now x else x)
          (recordings db)
    /\ recording_by_filepath file_path db' = Some (finished result now r).
Proof.
  intros env faults db now p r result Hq Hr Hnd Hp Hf Hc db'.
  pose proof (attempt_error_no_faults env faults p result Hp Hf Hc) as He.
  assert (Hrecs : recordings db'
                  = map (fun x => if (rec_id x =? rec_id r)%Z
                                  then finished result now x else x)
                        (recordings db)).
  { subst db'. rewrite process_file_unfold. unfold run, bind.
    rewrite (enqueue_existing faults p db now r Hq Hr Hnd).
    rewrite (attempt_success env faults (rec_id r) p result _ now Hp He).
    cbn [snd committed open_session].
    unfold store_after_success, update_recording. cbn [recordings].
    rewrite !map_map. apply map_ext. intros [rid fn fp du cr pr st em].
    cbn [rec_id set_status set_error_message].
    destruct (rid =? rec_id r)%Z eqn:E;
      repeat (cbn [rec_id set_status set_error_message set_duration_seconds
                   set_processed_at];
              rewrite ?E);
      reflexivity. }
  split; [exact Hrecs|].
  unfold recording_by_filepath in *. rewrite Hrecs.
  rewrite find_map_preserved.
  - rewrite Hr. cbn [option_map]. now rewrite Z.eqb_refl.
  - intros x. destruct (rec_id x =? rec_id r)%Z; reflexivity.
Qed.

(** The record of a failed call is completed by the next run. *)
Lemma process_file_retry_in_place_witness :
  let db' := snd (run (_process_file stereo_call no_faults (u "/watch/call.wav"))
                      stale_store 100) in
  map rec_status (recordings db') = [done]
  /\ map rec_error_message (recordings db') = [None]
  /\ map rec_processed_at (recordings db') = [Some 100%Z].
Proof.
  intros db'.
  assert (Hr : exists r, recording_by_filepath (u "/watch/call.wav") stale_store = Some r
                         /\ rec_status r = error /\ rec_id r = 1%Z).
  { eexists. repeat split; vm_compute; reflexivity. }
  destruct Hr as (r & Hr & Hs & Hid).
  assert (Hp : exists result,
             fst (process stereo_call (u "/watch/call.wav") []) = Ok result).
  { eexists. vm_compute. reflexivity. }
  destruct Hp as (result & Hp).
  destruct (process_file_retry_in_place stereo_call no_faults stale_store 100
              (u "/watch/call.wav") r result (conj eq_refl eq_refl) Hr
              ltac:(rewrite Hs; discriminate) Hp eq_refl eq_refl) as [Hrecs _].
  fold db' in Hrecs. rewrite Hrecs, Hid. repeat split.
Defined.

(** ** Batch processing *)

Lemma find_app_some {A} (g : A -> bool) l l' x :
  find g l = Some x -> find g (l ++ l') = Some x.
Proof.
  induction l as [|y l IH]; simpl; [discriminate|].
  destruct (g y); [tauto | exact IH].
Qed.

(** An attempt rewrites the records of the key it works on, and leaves them
    done or in error. *)
Lemma attempt_recordings env faults id p db1 clk r1 :
  handler_succeeds faults ->
  recording_by_id id db1 = Some r1 ->
  exists db' clk' F,
    _process_file_attempt env faults id p (open_session db1 clk)
    = (Ok tt, open_session db' clk')
    /\ recordings db'
       = map (fun x => if (rec_id x =? id)%Z then F x else x) (recordings db1)
    /\ (forall x, rec_filepath (F x) = rec_filepath x)
    /\ (forall x, terminal (F x)).
Proof.
  intros Hh Hr1. destruct (attempt_error env faults p) as [e|] eqn:He.
  - destruct (attempt_failure env faults id p e db1 clk Hh He) as [clk' Hatt].
    do 2 eexists.
    exists (fun x => set_error_message (Some (exn_msg e))
                       (set_status error (set_status processing x))).
    split; [exact Hatt|]. split; [|split].
    + unfold store_after_error.
      rewrite recording_by_id_update by reflexivity. rewrite Hr1.
      cbn [option_map]. unfold update_recording. cbn [recordings].
      rewrite !map_map. apply map_ext. intros [rid fn fp du cr pr st em].
      cbn [rec_id set_status].
      destruct (rid =? id)%Z eqn:E;
        repeat (cbn [rec_id set_status set_error_message]; rewrite ?E);
        reflexivity.
    + intros x. reflexivity.
    + intros x. right. reflexivity.
  - destruct (attempt_error_none _ _ _ He) as [result Hp].
    do 2 eexists.
    exists (fun x => set_processed_at (Some clk)
                       (set_duration_seconds (Some (duration result))
                          (set_status done (set_status processing x)))).
    split; [exact (attempt_success env faults id p result db1 clk Hp He)|].
    split; [|split].
    + unfold store_after_success, update_recording. cbn [recordings].
      rewrite !map_map. apply map_ext. intros [rid fn fp du cr pr st em].
      cbn [rec_id set_status].
      destruct (rid =? id)%Z eqn:E;
        repeat (cbn [rec_id set_status set_duration_seconds set_processed_at];
                rewrite ?E);
        reflexivity.
    + intros x. reflexivity.
    + intros x. left. reflexivity.
Qed.

(** A run whose unguarded storage calls succeed returns normally with a
    closed session; it either leaves the store as it is, or rewrites the
    records of one key, after adding at most one record, and leaves them
    done or in error. *)
Lemma process_file_recordings env faults db now p :
  enqueue_succeeds faults ->
  handler_succeeds faults ->
  exists db' now',
    _process_file env faults p (open_session db now)
    = (Ok tt, open_session db' now')
    /\ (db' = db
        \/ exists extra id F,
             recordings db'
             = map (fun x => if (rec_id x =? id)%Z then F x else x)
                   (recordings db ++ extra)
             /\ (forall x, rec_filepath (F x) = rec_filepath x)
             /\ (forall x, terminal (F x))).
Proof.
  intros Hq Hh. rewrite process_file_unfold. unfold bind.
  destruct (recording_by_filepath p db) as [r|] eqn:Hr.
  - destruct (status_eqb (rec_status r) done) eqn:Hs.
    + assert (Hd : rec_status r = done) by (destruct (rec_status r); now try discriminate).
      rewrite (enqueue_done faults p db now r (proj1 Hq) Hr Hd).
      exists db, now. split; [reflexivity | now left].
    + assert (Hnd : rec_status r <> done) by (intros H; rewrite H in Hs; discriminate).
      rewrite (enqueue_existing faults p db now r Hq Hr Hnd).
      destruct (by_filepath_has_id _ _ _ Hr) as [r0 Hr0].
      assert (Hr1 : exists r1,
                 recording_by_id (rec_id r)
                   (update_recording (rec_id r) (set_error_message None)
                      (update_recording (rec_id r) (set_status pending) db))
                 = Some r1).
      { rewrite !recording_by_id_update by reflexivity. rewrite Hr0. now eexists. }
      destruct Hr1 as [r1 Hr1].
      destruct (attempt_recordings env faults (rec_id r) p _ now r1 Hh Hr1)
        as (db' & clk' & F & Hatt & Hrecs & Hpath & Hterm).
      exists db', clk'. split; [exact Hatt|]. right.
      exists [], (rec_id r),
        (fun x => F (set_error_message None (set_status pending x))).
      split; [|split].
      * rewrite Hrecs, app_nil_r. unfold update_recording. cbn [recordings].
        rewrite !map_map. apply map_ext. intros [rid fn fp du cr pr st em].
        cbn [rec_id]. destruct (rid =? rec_id r)%Z eqn:E;
          repeat (cbn [rec_id set_status set_error_message]; rewrite ?E);
          reflexivity.
      * intros x. now rewrite Hpath.
      * intros x. apply Hterm.
  - rewrite (enqueue_new faults p db now Hq Hr).
    set (id := next_id (map rec_id (recordings db))).
    set (new := {| rec_id := id; rec_filename := path_name p; rec_filepath := p;
                   rec_duration_seconds := None; rec_created_at := Some now;
                   rec_processed_at := None; rec_status := pending;
                   rec_error_message := None |}).
    assert (Hfresh : find (fun x => (rec_id x =? id)%Z) (recordings db) = None).
    { destruct (find _ (recordings db)) as [x|] eqn:E; [|reflexivity].
      apply find_some in E. destruct E as [Hin Heq]. apply Z.eqb_eq in Heq.
      pose proof (next_id_fresh (map rec_id (recordings db)) (rec_id x)
                    (in_map rec_id _ _ Hin)) as Hlt.
      fold id in Hlt. lia. }
    destruct (attempt_recordings env faults id p
                {| recordings := recordings db ++ [new];
                   transcripts := transcripts db;
                   segment_rows := segment_rows db |} (now + 1) new Hh
                (find_app_none (fun x => (rec_id x =? id)%Z) (recordings db) new
                   Hfresh (Z.eqb_refl id)))
      as (db' & clk' & F & Hatt & Hrecs & Hpath & Hterm).
    exists db', clk'. split; [exact Hatt|]. right.
    exists [new], id, F. now repeat split.
Qed.

(** A record that is done or in error is still so after a run on any path. *)
Lemma terminal_preserved env faults db now p db' now' f r :
  enqueue_succeeds faults ->
  handler_succeeds faults ->
  _process_file env faults p (open_session db now)
  = (Ok tt, open_session db' now') ->
  recording_by_filepath f db = Some r -> terminal r ->
  exists r', recording_by_filepath f db' = Some r' /\ terminal r'.
Proof.
  intros Hq Hh Hrun Hr Ht.
  destruct (process_file_recordings env faults db now p Hq Hh)
    as (db2 & now2 & Hrun2 & Hshape).
  rewrite Hrun in Hrun2. inversion Hrun2 as [[Hdb Hnow]]. subst db2.
  destruct Hshape as [-> | (extra & id & F & Hrecs & Hpath & Hterm)].
  - now exists r.
  - unfold recording_by_filepath in *. rewrite Hrecs.
    rewrite find_map_preserved.
    + rewrite (find_app_some _ _ extra _ Hr). cbn [option_map].
      eexists. split; [reflexivity|].
      destruct (rec_id r =? id)%Z; [apply Hterm | exact Ht].
    + intros x. destruct (rec_id x =? id)%Z; [now rewrite Hpath | reflexivity].
Qed.

(** The record of the path of a run that returns is done or in error. *)
Lemma process_file_terminal env faults db now p db' now' :
  _process_file env faults p (open_session db now)
  = (Ok tt, open_session db' now') ->
  exists r, recording_by_filepath p db' = Some r /\ terminal r.
Proof.
  intros Hrun.
  destruct (process_file_cases env faults db now p)
    as [(r & Ho & Hr & Hs & Hrun')
       | [(e0 & s' & Hraise & Hrun' & Hc)
         | (r1 & db1 & now1 & Hq & Hent & Hr1 & Hs1 & Ht & Hsg &
            [(result & Hp & Hae & Hrun')
            | [(e & clk' & Hae & Hh & Hrun') | (e & e' & clk' & Hae & Hh & Hrun')]])]];
    rewrite Hrun in Hrun'; inversion Hrun' as [[Hdb Hnow]].
  - exists r. split; [exact Hr | now left].
  - eexists. split; [exact (by_filepath_after_success p result now1 db1 r1 Hr1)|].
    now left.
  - destruct (failure_recorded p (rec_id r1) e db1 r1 Hr1 eq_refl)
      as ((r' & Hr' & Hst & _) & _).
    exists r'. split; [exact Hr' | now right].
Qed.

(** What a run leaves committed, however it ends: rows are only added. When
    it returns, its session is closed. *)
Lemma process_file_step env faults db now p :
  exists o s',
    _process_file env faults p (open_session db now) = (o, s')
    /\ (exists ts ss,
          transcripts (committed s') = transcripts db ++ ts
          /\ segment_rows (committed s') = segment_rows db ++ ss)
    /\ (o = Ok tt -> s' = open_session (committed s') (clock s')).
Proof.
  pose proof (process_file_appends env faults db now p) as Happ.
  cbv zeta in Happ. unfold run in Happ.
  destruct (_process_file env faults p (open_session db now)) as [o s'] eqn:Hrun.
  exists o, s'. split; [reflexivity|]. split; [exact Happ|].
  intros ->.
  destruct (process_file_cases env faults db now p)
    as [(r & Ho & Hr & Hs & Hrun')
       | [(e0 & s2 & Hraise & Hrun' & Hc)
         | (r1 & db1 & now1 & Hq & Hent & Hr1 & Hs1 & Ht & Hsg &
            [(result & Hp & Hae & Hrun')
            | [(e & clk' & Hae & Hh & Hrun') | (e & e' & clk' & Hae & Hh & Hrun')]])]];
    rewrite Hrun in Hrun'; inversion Hrun'; reflexivity.
Qed.

(** A batch of runs whose unguarded storage calls succeed. *)
Lemma batch_runs (body_faults : pystr -> Faults) env files :
  (forall f, In f files ->
     enqueue_succeeds (body_faults f) /\ handler_succeeds (body_faults f)) ->
  forall db now,
    exists db' now',
      for_each files (fun f => _process_file env (body_faults f) f) (open_session db now)
      = (Ok tt, open_session db' now')
      /\ (forall f r, recording_by_filepath f db = Some r -> terminal r ->
            exists r', recording_by_filepath f db' = Some r' /\ terminal r')
      /\ (forall f, In f files ->
            exists r, recording_by_filepath f db' = Some r /\ terminal r).
Proof.
  induction files as [|p files IH]; intros Hok db now.
  - exists db, now. split; [reflexivity|].
    split; [intros f r Hr Ht; now exists r | intros f []].
  - destruct (Hok p (or_introl eq_refl)) as [Hq Hh].
    destruct (process_file_recordings env (body_faults p) db now p Hq Hh)
      as (db1 & now1 & Hrun & _).
    destruct (IH (fun f Hf => Hok f (or_intror Hf)) db1 now1)
      as (db' & now' & Hrest & Hkeep & Hall).
    exists db', now'. split; [|split].
    + cbn [for_each]. unfold bind at 1. rewrite Hrun. exact Hrest.
    + intros f r Hr Ht.
      destruct (terminal_preserved _ _ _ _ _ _ _ f r Hq Hh Hrun Hr Ht)
        as (r1 & Hr1 & Ht1).
      exact (Hkeep f r1 Hr1 Ht1).
    + intros f [<-|Hin]; [|now apply Hall].
      destruct (process_file_terminal _ _ _ _ _ _ _ Hrun) as (r1 & Hr1 & Ht1).
      exact (Hkeep p r1 Hr1 Ht1).
Qed.

(** A batch of runs only adds rows, however it ends. *)
Lemma batch_appends (body_faults : pystr -> Faults) env files :
  forall db now,
    exists o s',
      for_each files (fun f => _process_file env (body_faults f) f) (open_session db now)
      = (o, s')
      /\ exists ts ss,
           transcripts (committed s') = transcripts db ++ ts
           /\ segment_rows (committed s') = segment_rows db ++ ss.
Proof.
  induction files as [|p files IH]; intros db now.
  - exists (Ok tt), (open_session db now). split; [reflexivity|].
    exists [], []. cbn. now rewrite !app_nil_r.
  - destruct (process_file_step env (body_faults p) db now p)
      as (o1 & s1 & Hrun & (ts1 & ss1 & Hts1 & Hss1) & Hclosed).
    cbn [for_each]. unfold bind at 1. rewrite Hrun.
    destruct o1 as [[]|e1].
    + rewrite (Hclosed eq_refl).
      destruct (IH (committed s1) (clock s1)) as (o & s' & Hrest & ts & ss & Hts & Hss).
      exists o, s'. split; [exact Hrest|].
      exists (ts1 ++ ts), (ss1 ++ ss).
      rewrite Hts, Hss, Hts1, Hss1, !app_assoc. now split.
    + exists (Raise e1), s1. split; [reflexivity|]. now exists ts1, ss1.
Qed.

Lemma name_is_done_names db f :
  existsb (pystr_eqb (path_name f))
    (map rec_filename
       (filter (fun r => status_eqb (rec_status r) done) (recordings db)))
  = name_is_done db f.
Proof.
  unfold name_is_done. induction (recordings db) as [|r l IH]; [reflexivity|].
  simpl. destruct (status_eqb (rec_status r) done); simpl; now rewrite IH.
Qed.

Lemma process_all_unprocessed_unfold env faults files db now :
  process_all_unprocessed env None faults files (open_session db now)
  = for_each (filter (fun f => negb (name_is_done db f)) files)
             (fun f => _process_file env (faults f) f) (open_session db now).
Proof.
  unfold process_all_unprocessed.
  unfold bind at 1, may_fail at 1, ret at 1.
  unfold bind at 1, get_working at 1. cbn [open_session working].
  f_equal. apply filter_ext. intros f. now rewrite name_is_done_names.
Qed.

(** X26. [process_all_unprocessed] guards neither its query nor its runs.
    When the query and the storage calls that [_process_file] leaves
    unguarded succeed, it returns normally whatever the pipeline, the flush
    and the final commit do on each file: a file whose attempt fails does
    not stop the batch; afterwards every listed file whose name is not the
    name of a recording that was done at the start has a record that is
    done or in error, and when every listed file has the name of a done
    recording the store is left as it is. However the batch ends,
    transcripts and segments are only added. A failure of the query, or of
    the opening of the session for the first file to process, leaves the
    batch with nothing changed and no file processed. *)
Theorem process_all_unprocessed_completes :
  forall (env : Env) (scan_error : option exn) (faults : pystr -> Faults)
         (wav_files : list pystr) (db : DB) (now : Z),
    let out := run (process_all_unprocessed env scan_error faults wav_files) db now in
    (scan_error = None ->
     (forall f, In f wav_files ->
        enqueue_succeeds (faults f) /\ handler_succeeds (faults f)) ->
     fst out = Ok tt
     /\ (forall f, In f wav_files -> name_is_done db f = false ->
           exists r, recording_by_filepath f (snd out) = Some r /\ terminal r)
     /\ ((forall f, In f wav_files -> name_is_done db f = true) -> snd out = db))
    /\ (exists ts ss,
          transcripts (snd out) = transcripts db ++ ts
          /\ segment_rows (snd out) = segment_rows db ++ ss)
    /\ (forall e, scan_error = Some e -> out = (Raise e, db))
    /\ (forall f rest e,
          scan_error = None ->
          wav_files = f :: rest ->
          name_is_done db f = false ->
          open_error (faults f) = Some e ->
          out = (Raise e, db)).
Proof.
  intros env scan_error faults files db now out. subst out. unfold run.
  destruct scan_error as [e0|].
  - cbn. split; [discriminate|]. split.
    + exists [], []. now rewrite !app_nil_r.
    + split; [intros e He; now inversion He | discriminate].
  - rewrite process_all_unprocessed_unfold.
    set (unprocessed := filter _ files).
    split; [|split; [|split]].
    + intros _ Hok.
      destruct (batch_runs faults env unprocessed) with (db := db) (now := now)
        as (db' & now' & Hrun & _ & Hall).
      { intros f Hf. apply Hok. subst unprocessed. apply filter_In in Hf. tauto. }
      rewrite Hrun. cbn [fst snd committed open_session].
      split; [reflexivity|]. split.
      * intros f Hin Hname. apply Hall. subst unprocessed.
        apply filter_In. split; [exact Hin|]. now rewrite Hname.
      * intros Hskip.
        assert (Hnil : unprocessed = []).
        { subst unprocessed. apply filter_none. intros f Hf.
          now rewrite (Hskip f Hf). }
        rewrite Hnil in Hrun. cbn in Hrun. now inversion Hrun.
    + destruct (batch_appends faults env unprocessed db now)
        as (o & s' & Hrun & Happ).
      rewrite Hrun. exact Happ.
    + discriminate.
    + intros f rest e _ Hfiles Hname Ho.
      subst unprocessed. rewrite Hfiles. cbn [filter].
      rewrite Hname. cbn [negb for_each].
      unfold bind at 1. rewrite process_file_unfold. unfold bind at 1.
      destruct (enqueue_failure (faults f) f db now e (or_introl Ho))
        as (s' & Henq & Hc); [intros H; congruence|].
      rewrite Henq. cbn. now rewrite Hc.
Qed.

(** A batch of a call that succeeds and a file that is not on disk. *)
Lemma process_all_unprocessed_completes_witness :
  let env := {| path_exists := fun p => pystr_eqb p (u "/watch/call.wav");
                load_audio := load_audio stereo_call;
                transcribe := transcribe stereo_call;
                diarize := diarize stereo_call |} in
  let out := run (process_all_unprocessed env None (fun _ => no_faults)
                    [u "/watch/call.wav"; u "/watch/gone.wav"]) empty_store 100 in
  fst out = Ok tt
  /\ map rec_status (recordings (snd out)) = [done; error]
  /\ exists r, recording_by_filepath (u "/watch/gone.wav") (snd out) = Some r
               /\ terminal r.
Proof.
  intros env out.
  destruct (process_all_unprocessed_completes env None (fun _ => no_faults)
              [u "/watch/call.wav"; u "/watch/gone.wav"] empty_store 100)
    as (Hok & _).
  fold out in Hok.
  destruct (Hok eq_refl) as (Hret & Hall & _).
  { intros f _. split; split; reflexivity. }
  split; [exact Hret|]. split; [vm_compute; reflexivity|].
  apply Hall; [right; left; reflexivity | reflexivity].
Defined.
